(** * SchemaCanvas: the normalize / validate / generate pipeline

    A shallow embedding of the pure core of SchemaCanvas
    (normalizer, denormalizer, validator, generation guard, PostgreSQL and
    Prisma generators) together with the properties stated about it.

    Conventions of the embedding.
    - A JavaScript string is a [string] of bytes.  [toUpperCase],
      [toLowerCase] and [trim] act on the ASCII range; every other byte is
      left alone.
    - A JavaScript object used as a dictionary and enumerated with
      [Object.keys] / [Object.values] / [Object.entries] is an association
      list in enumeration order ([obj]).  Only own properties are
      modelled: a read [o[k]] finds what was stored under [k], and the
      names that every object inherits from [Object.prototype]
      ([constructor], [toString], ...) are taken not to occur as keys,
      foreign-key targets or types.
    - A [Map] or [Set] that is only read with [get] / [has] is a [gmap] or
      [gset]; a [Set] that is iterated is a duplicate-free list in insertion
      order.
    - A function that can throw returns an [outcome].
    - The [positions] field of a schema only carries canvas coordinates
      through the pipeline and is left out. *)

From Stdlib Require Import String Ascii List Arith Lia Permutation Bool
  DecimalString Relations.
From stdpp Require Import base gmap strings list.
Import ListNotations.
Open Scope string_scope.
Open Scope list_scope.

#[local] Arguments String.append !_ _ / : simpl nomatch.

(* ===================================================================== *)
(** ** JavaScript strings *)
(* ===================================================================== *)

Module JS.

Definition dquote : string := String "034"%char EmptyString.
Definition squote : string := String "039"%char EmptyString.
Definition nl : string := String "010"%char EmptyString.

Definition is_lower (a : ascii) : bool :=
  (Nat.leb 97 (nat_of_ascii a) && Nat.leb (nat_of_ascii a) 122)%bool.
Definition is_upper (a : ascii) : bool :=
  (Nat.leb 65 (nat_of_ascii a) && Nat.leb (nat_of_ascii a) 90)%bool.
Definition is_digit (a : ascii) : bool :=
  (Nat.leb 48 (nat_of_ascii a) && Nat.leb (nat_of_ascii a) 57)%bool.
(** tab, line feed, vertical tab, form feed, carriage return, space *)
Definition is_space (a : ascii) : bool :=
  (Nat.leb 9 (nat_of_ascii a) && Nat.leb (nat_of_ascii a) 13
   || Nat.eqb (nat_of_ascii a) 32)%bool.

Definition upper_char (a : ascii) : ascii :=
  if is_lower a then ascii_of_nat (nat_of_ascii a - 32) else a.
Definition lower_char (a : ascii) : ascii :=
  if is_upper a then ascii_of_nat (nat_of_ascii a + 32) else a.

Fixpoint map_chars (f : ascii -> ascii) (s : string) : string :=
  match s with
  | EmptyString => EmptyString
  | String a r => String (f a) (map_chars f r)
  end.

Definition toUpperCase : string -> string := map_chars upper_char.
Definition toLowerCase : string -> string := map_chars lower_char.

(** [s.charAt(0)] *)
Definition charAt0 (s : string) : string :=
  match s with
  | EmptyString => EmptyString
  | String a _ => String a EmptyString
  end.

(** [s.slice(n)] for [n >= 0] *)
Fixpoint slice_from (n : nat) (s : string) : string :=
  match n, s with
  | O, _ => s
  | S _, EmptyString => EmptyString
  | S k, String _ r => slice_from k r
  end.

(** [s.slice(0, -k)] for [k > 0] *)
Definition slice_drop_last (k : nat) (s : string) : string :=
  substring 0 (String.length s - k) s.

(** [s.endsWith(suffix)] *)
Definition endsWith (s suffix : string) : bool :=
  let n := String.length s in
  let m := String.length suffix in
  if Nat.leb m n then String.eqb (substring (n - m) m s) suffix else false.

(** [s.includes(sub)] *)
Fixpoint includes (s sub : string) : bool :=
  if String.prefix sub s then true
  else match s with
       | EmptyString => false
       | String _ r => includes r sub
       end.

(** [s.split(c)] for a one-character separator: never the empty list *)
Fixpoint split (c : ascii) (s : string) : list string :=
  match s with
  | EmptyString => [EmptyString]
  | String a r =>
      if Ascii.eqb a c then EmptyString :: split c r
      else match split c r with
           | w :: ws => String a w :: ws
           | [] => [String a EmptyString]
           end
  end.

(** [words.join(sep)] *)
Fixpoint join (sep : string) (words : list string) : string :=
  match words with
  | [] => EmptyString
  | [w] => w
  | w :: ws => w +:+ sep +:+ join sep ws
  end.

Fixpoint drop_spaces (s : string) : string :=
  match s with
  | EmptyString => EmptyString
  | String a r => if is_space a then drop_spaces r else s
  end.

Fixpoint str_rev (s : string) : string :=
  match s with
  | EmptyString => EmptyString
  | String a r => str_rev r +:+ String a EmptyString
  end.

(** [s.trim()] *)
Definition trim (s : string) : string :=
  str_rev (drop_spaces (str_rev (drop_spaces s))).

(** [s.replace(/c/g, by)] for a one-character pattern *)
Fixpoint replace_char (c : ascii) (by_ : string) (s : string) : string :=
  match s with
  | EmptyString => EmptyString
  | String a r =>
      if Ascii.eqb a c then by_ +:+ replace_char c by_ r
      else String a (replace_char c by_ r)
  end.

(** [String(n)] for a non-negative integer *)
Definition of_nat (n : nat) : string :=
  NilEmpty.string_of_uint (Nat.to_uint n).

(** Truthiness of a string: [!s] is true exactly for the empty string. *)
Definition truthy (s : string) : bool :=
  match s with EmptyString => false | _ => true end.

(** Occurrence of a character *)
Fixpoint has_char (c : ascii) (s : string) : bool :=
  match s with
  | EmptyString => false
  | String a r => (Ascii.eqb a c || has_char c r)%bool
  end.

End JS.

(** What a JavaScript call ends in: a value, a thrown error carrying its
  message, or (for the fuelled model of a recursive function) no answer
  within the fuel given. *)
Inductive outcome (A : Type) : Type :=
| Returned (a : A)
| Thrown (message : string)
| OutOfFuel.
Arguments Returned {A} a.
Arguments Thrown {A} message.
Arguments OutOfFuel {A}.

(* ===================================================================== *)
(** ** JavaScript objects as dictionaries *)
(* ===================================================================== *)

Module Obj.

Definition obj (V : Type) : Type := list (string * V).

(** Value of a canonical array index ([0], [1], ..., [4294967294]): such
    keys are enumerated first, in ascending numeric order. *)
Fixpoint digits_value (acc : N) (s : string) : option N :=
  match s with
  | EmptyString => Some acc
  | String a r =>
      if JS.is_digit a
      then digits_value (10 * acc + N.of_nat (nat_of_ascii a - 48))%N r
      else None
  end.

Definition array_index (k : string) : option N :=
  match k with
  | EmptyString => None
  | String a r =>
      if (Ascii.eqb a "0"%char && negb (String.eqb r EmptyString))%bool
      then None
      else if Nat.ltb 10 (String.length k) then None
      else match digits_value 0 k with
           | Some n => if N.leb n 4294967294 then Some n else None
           | None => None
           end
  end.

Section Ops.
Context {V : Type}.

(** [o[k]]: the own property [k], if any *)
Fixpoint get (o : obj V) (k : string) : option V :=
  match o with
  | [] => None
  | (k', v) :: r => if String.eqb k' k then Some v else get r k
  end.

Definition keys (o : obj V) : list string := map fst o.
Definition values (o : obj V) : list V := map snd o.

Definition has (o : obj V) (k : string) : bool :=
  match get o k with Some _ => true | None => false end.

Fixpoint replace (k : string) (v : V) (o : obj V) : obj V :=
  match o with
  | [] => []
  | (k', v') :: r =>
      if String.eqb k' k then (k', v) :: r else (k', v') :: replace k v r
  end.

(** A new index key goes before the first key that is not an index or is a
    larger index. *)
Fixpoint insert_index (n : N) (k : string) (v : V) (o : obj V) : obj V :=
  match o with
  | [] => [(k, v)]
  | (k', v') :: r =>
      match array_index k' with
      | Some n' =>
          if N.ltb n n' then (k, v) :: o
          else (k', v') :: insert_index n k v r
      | None => (k, v) :: o
      end
  end.

(** [o[k] = v] *)
Definition set (k : string) (v : V) (o : obj V) : obj V :=
  if has o k then replace k v o
  else match array_index k with
       | Some n => insert_index n k v o
       | None => o ++ [(k, v)]
       end.

End Ops.

End Obj.

(** A loop that stores [val x] under [key x] in a [Map] for every [x] it
    does not skip.  The map-filling loops of the normalizer are instances
    of it up to computation; it is used to reason about them. *)
Definition fill {A V : Type} (key : A -> string) (val : A -> option V)
  (l : list A) (m : gmap string V) : gmap string V :=
  fold_left
    (fun m x => match val x with Some v => <[key x := v]> m | None => m end)
    l m.

(* ===================================================================== *)
(** ** Data model *)
(* ===================================================================== *)

(** [default.kind] *)
Inductive DefaultKind : Type :=
| k_autoincrement | k_uuid | k_now | k_value.

Definition DefaultKind_eqb (a b : DefaultKind) : bool :=
  match a, b with
  | k_autoincrement, k_autoincrement | k_uuid, k_uuid
  | k_now, k_now | k_value, k_value => true
  | _, _ => false
  end.

Record Default : Type := mkDefault {
  d_kind : DefaultKind;
  d_value : option string
}.

(** Editor graph (store/schemaStore.ts) *)
Record Column : Type := mkColumn {
  c_id : string;
  c_name : string;
  c_type : string;
  c_primaryKey : bool;
  c_nullable : bool;
  c_unique : bool;
  c_default : option Default
}.

Record Table : Type := mkTable {
  t_id : string;
  t_name : string;
  t_columns : list Column
}.

Record Relation : Type := mkRelation {
  r_id : string;
  fromTableId : string;
  fromColumnId : string;
  toTableId : string;
  toColumnId : string
}.

(** Canonical schema (schemaNormalizer) *)
Record ForeignKey : Type := mkForeignKey {
  fk_table : string;
  fk_column : string
}.

Record NormalizedColumn : Type := mkNormalizedColumn {
  nc_name : string;
  nc_type : string;
  nc_primaryKey : bool;
  nc_nullable : bool;
  nc_unique : bool;
  nc_foreignKey : option ForeignKey;
  nc_default : option Default
}.

Record NormalizedTable : Type := mkNormalizedTable {
  nt_name : string;
  nt_columns : Obj.obj NormalizedColumn
}.

Record NormalizedSchema : Type := mkNormalizedSchema {
  tables : Obj.obj NormalizedTable
}.

(** A JavaScript object has each key once. *)
Definition wf_table (t : NormalizedTable) : Prop :=
  NoDup (Obj.keys (nt_columns t)).

Definition wf_schema (s : NormalizedSchema) : Prop :=
  NoDup (Obj.keys (tables s)) /\ Forall wf_table (Obj.values (tables s)).

(* ===================================================================== *)
(** ** Normalizer (unnamed/part_002) *)
(* ===================================================================== *)

Module SchemaNormalizer.

(** [`${tableId}::${columnId}`] *)
Definition columnKey (tableId columnId : string) : string :=
  tableId +:+ "::" +:+ columnId.

(** The two lookup maps.  The source fills both in one pass over the
    tables; each is a fold of its own here. *)
Definition tableNameMapOf (tables : list Table) : gmap string string :=
  fold_left (fun m t => <[t_id t := t_name t]> m) tables ∅.

Definition columnNameMapOf (tables : list Table)
  : gmap string (string * string) :=
  fold_left
    (fun m t =>
       fold_left
         (fun m c => <[columnKey (t_id t) (c_id c) := (t_id t, c_name c)]> m)
         (t_columns t) m)
    tables ∅.

(** The body of the loop over the relations up to the [continue]: the
    metadata to store if the relation is not skipped.  An absent entry is
    falsy and so is an empty table name; the column entries are objects. *)
Definition resolve (tableNameMap : gmap string string)
  (columnNameMap : gmap string (string * string)) (relation : Relation)
  : option ForeignKey :=
  match tableNameMap !! fromTableId relation,
        columnNameMap
          !! columnKey (fromTableId relation) (fromColumnId relation),
        tableNameMap !! toTableId relation,
        columnNameMap !! columnKey (toTableId relation) (toColumnId relation)
  with
  | Some sourceTableName, Some sourceColumnInfo,
    Some targetTableName, Some _ =>
      if (JS.truthy sourceTableName && JS.truthy targetTableName)%bool
      then Some (mkForeignKey sourceTableName (snd sourceColumnInfo))
      else None
  | _, _, _, _ => None
  end.

Definition foreignKeyMapFrom (tableNameMap : gmap string string)
  (columnNameMap : gmap string (string * string))
  (relations : list Relation) (m : gmap string ForeignKey)
  : gmap string ForeignKey :=
  fold_left
    (fun m relation =>
       match resolve tableNameMap columnNameMap relation with
       | Some fk =>
           <[columnKey (toTableId relation) (toColumnId relation) := fk]> m
       | None => m
       end)
    relations m.

Definition foreignKeyMapOf (tables : list Table) (relations : list Relation)
  : gmap string ForeignKey :=
  foreignKeyMapFrom (tableNameMapOf tables) (columnNameMapOf tables)
    relations ∅.

(** The [normalizedColumn] built for one column *)
Definition normalizeColumn (foreignKeyMap : gmap string ForeignKey)
  (t : Table) (c : Column) : NormalizedColumn :=
  mkNormalizedColumn (c_name c) (c_type c) (c_primaryKey c) (c_nullable c)
    (c_unique c)
    (foreignKeyMap !! columnKey (t_id t) (c_id c))
    (c_default c).

Definition normalizeColumns (foreignKeyMap : gmap string ForeignKey)
  (t : Table) : Obj.obj NormalizedColumn :=
  fold_left
    (fun columns c =>
       Obj.set (c_name c) (normalizeColumn foreignKeyMap t c) columns)
    (t_columns t) [].

Definition normalizeTable (foreignKeyMap : gmap string ForeignKey)
  (t : Table) : NormalizedTable :=
  mkNormalizedTable (t_name t) (normalizeColumns foreignKeyMap t).

Definition normalizeSchema (tables : list Table) (relations : list Relation)
  : NormalizedSchema :=
  let foreignKeyMap := foreignKeyMapOf tables relations in
  mkNormalizedSchema
    (fold_left
       (fun normalizedTables t =>
          Obj.set (t_name t) (normalizeTable foreignKeyMap t)
            normalizedTables)
       tables []).

End SchemaNormalizer.

(* ===================================================================== *)
(** ** Denormalizer (lib/schemaDenormalizer.ts) *)
(* ===================================================================== *)

Module SchemaDenormalizer.

Section WithIdentifiers.
(** [randomUUID n] is the identifier that the [n]-th call of
    [crypto.randomUUID()] returns during one run. *)
Variable randomUUID : nat -> string.

(** The inner loop of step 1, from the [n]-th identifier on: the columns,
    the name-to-id map, and the number of identifiers drawn so far *)
Fixpoint denormalizeColumns (n : nat) (entries : Obj.obj NormalizedColumn)
  (columnMap : gmap string string)
  : list Column * gmap string string * nat :=
  match entries with
  | [] => ([], columnMap, n)
  | (columnName, column) :: rest =>
      let columnId := randomUUID n in
      let newColumn :=
        mkColumn columnId (nc_name column) (nc_type column)
          (nc_primaryKey column) (nc_nullable column) (nc_unique column)
          (nc_default column) in
      let '(columns, columnMap', n') :=
        denormalizeColumns (S n) rest (<[columnName := columnId]> columnMap) in
      (newColumn :: columns, columnMap', n')
  end.

(** Step 1 *)
Fixpoint denormalizeTables (n : nat) (entries : Obj.obj NormalizedTable)
  (tableMap : gmap string (string * gmap string string))
  : list Table * gmap string (string * gmap string string) * nat :=
  match entries with
  | [] => ([], tableMap, n)
  | (tableName, t) :: rest =>
      let tableId := randomUUID n in
      let '(columns, columnMap, n1) :=
        denormalizeColumns (S n) (nt_columns t) ∅ in
      let '(tables, tableMap', n2) :=
        denormalizeTables n1 rest
          (<[tableName := (tableId, columnMap)]> tableMap) in
      (mkTable tableId (nt_name t) columns :: tables, tableMap', n2)
  end.

(** The endpoints of the relation that step 2 pushes for one column, if
    it pushes one: (fromTableId, fromColumnId, toTableId, toColumnId) *)
Definition endpointsOf
  (tableMap : gmap string (string * gmap string string))
  (fkTableInfo : string * gmap string string)
  (columnName : string) (column : NormalizedColumn)
  : option (string * string * string * string) :=
  match nc_foreignKey column with
  | None => None
  | Some fk =>
      match tableMap !! fk_table fk with
      | None => None
      | Some pkTableInfo =>
          match snd fkTableInfo !! columnName,
                snd pkTableInfo !! fk_column fk with
          | Some fkColumnId, Some pkColumnId =>
              if (JS.truthy fkColumnId && JS.truthy pkColumnId)%bool
              then Some (fst pkTableInfo, pkColumnId,
                         fst fkTableInfo, fkColumnId)
              else None
          | _, _ => None
          end
      end
  end.

(** The inner loop of step 2 *)
Fixpoint relationsOfColumns (n : nat)
  (tableMap : gmap string (string * gmap string string))
  (fkTableInfo : string * gmap string string)
  (entries : Obj.obj NormalizedColumn) : list Relation * nat :=
  match entries with
  | [] => ([], n)
  | (columnName, column) :: rest =>
      match endpointsOf tableMap fkTableInfo columnName column with
      | Some (fromT, fromC, toT, toC) =>
          let '(relations, n') :=
            relationsOfColumns (S n) tableMap fkTableInfo rest in
          (mkRelation (randomUUID n) fromT fromC toT toC :: relations, n')
      | None => relationsOfColumns n tableMap fkTableInfo rest
      end
  end.

(** Step 2 *)
Fixpoint relationsOfTables (n : nat)
  (tableMap : gmap string (string * gmap string string))
  (entries : Obj.obj NormalizedTable) : list Relation * nat :=
  match entries with
  | [] => ([], n)
  | (tableName, t) :: rest =>
      match tableMap !! tableName with
      | None => relationsOfTables n tableMap rest
      | Some fkTableInfo =>
          let '(relations, n1) :=
            relationsOfColumns n tableMap fkTableInfo (nt_columns t) in
          let '(more, n2) := relationsOfTables n1 tableMap rest in
          (relations ++ more, n2)
      end
  end.

Definition denormalizeSchema (schema : NormalizedSchema)
  : list Table * list Relation :=
  let entries := tables schema in
  let '(tables, tableMap, n) := denormalizeTables 0 entries ∅ in
  let '(relations, _) := relationsOfTables n tableMap entries in
  (tables, relations).

End WithIdentifiers.

End SchemaDenormalizer.

(* ===================================================================== *)
(** ** Generation guard (generatorValidation) *)
(* ===================================================================== *)

Module GeneratorValidation.

(** The set of primary-key column names of every table *)
Definition pkSet (table : NormalizedTable) : gset string :=
  fold_left
    (fun pks '(columnName, column) =>
       if nc_primaryKey column then pks ∪ {[columnName]} else pks)
    (nt_columns table) ∅.

Definition pkColumnsOf (schema : NormalizedSchema) : gmap string (gset string) :=
  fold_left
    (fun m '(tableName, table) => <[tableName := pkSet table]> m)
    (tables schema) ∅.

Definition msg_fk_on_pk (tableName columnName : string) : string :=
  "CRITICAL: Column '" +:+ columnName +:+ "' in table '" +:+ tableName
  +:+ "' is marked as PRIMARY KEY but has foreignKey metadata. "
  +:+ "Foreign keys can only exist on non-primary key columns.".

Definition msg_no_table (tableName columnName refTable : string) : string :=
  "FK ERROR: Column '" +:+ columnName +:+ "' in table '" +:+ tableName
  +:+ "' references non-existent table '" +:+ refTable +:+ "'".

Definition msg_no_column (tableName columnName refTable refColumn : string)
  : string :=
  "FK ERROR: Column '" +:+ columnName +:+ "' in table '" +:+ tableName
  +:+ "' references non-existent column '" +:+ refColumn
  +:+ "' in table '" +:+ refTable +:+ "'".

Definition msg_not_pk (tableName columnName refTable refColumn : string)
  : string :=
  "FK ERROR: Column '" +:+ columnName +:+ "' in table '" +:+ tableName
  +:+ "' references column '" +:+ refColumn +:+ "' in table '" +:+ refTable
  +:+ "', " +:+ "but '" +:+ refColumn
  +:+ "' is NOT a primary key. Foreign keys must reference primary key columns.".

(** Check #2 and #3 of the loop body, with its two [continue]s *)
Definition targetErrors (schema : NormalizedSchema)
  (pkColumns : gmap string (gset string))
  (tableName columnName : string) (fk : ForeignKey) : list string :=
  let refTable := fk_table fk in
  let refColumn := fk_column fk in
  match Obj.get (tables schema) refTable with
  | None => [msg_no_table tableName columnName refTable]
  | Some target =>
      match Obj.get (nt_columns target) refColumn with
      | None => [msg_no_column tableName columnName refTable refColumn]
      | Some _ =>
          match pkColumns !! refTable with
          | Some refPks =>
              if bool_decide (refColumn ∈ refPks) then []
              else [msg_not_pk tableName columnName refTable refColumn]
          | None => [msg_not_pk tableName columnName refTable refColumn]
          end
      end
  end.

(** What one iteration of the inner loop pushes onto [errors] *)
Definition columnErrors (schema : NormalizedSchema)
  (pkColumns : gmap string (gset string))
  (tableName columnName : string) (column : NormalizedColumn) : list string :=
  match nc_foreignKey column with
  | None => []
  | Some fk =>
      (if nc_primaryKey column then [msg_fk_on_pk tableName columnName]
       else [])
      ++ targetErrors schema pkColumns tableName columnName fk
  end.

Definition collectErrors (schema : NormalizedSchema) : list string :=
  let pkColumns := pkColumnsOf schema in
  flat_map
    (fun '(tableName, table) =>
       flat_map
         (fun '(columnName, column) =>
            columnErrors schema pkColumns tableName columnName column)
         (nt_columns table))
    (tables schema).

(** [errors.map((err, i) => `${i + 1}. ${err}`)], from index [i] on *)
Fixpoint numbered (i : nat) (errors : list string) : list string :=
  match errors with
  | [] => []
  | err :: rest => (JS.of_nat (i + 1) +:+ ". " +:+ err) :: numbered (S i) rest
  end.

Definition failureMessage (errors : list string) : string :=
  "Schema validation failed with " +:+ JS.of_nat (length errors)
  +:+ " error(s):" +:+ JS.nl +:+ JS.nl
  +:+ JS.join JS.nl (numbered 0 errors).

Definition validateForeignKeys (schema : NormalizedSchema) : outcome unit :=
  let errors := collectErrors schema in
  if Nat.ltb 0 (length errors) then Thrown (failureMessage errors)
  else Returned tt.

Definition validateSchemaForGeneration (schema : NormalizedSchema)
  : outcome unit :=
  validateForeignKeys schema.

End GeneratorValidation.

(* ===================================================================== *)
(** ** PostgreSQL generator (lib/sql/postgresGenerator.ts, lines 1-152) *)
(* ===================================================================== *)

(** Pieces that both revisions of the generator share verbatim. *)
Module SqlCommon.

Definition typeMap : Obj.obj string :=
  [("int", "INT"); ("varchar", "VARCHAR"); ("text", "TEXT");
   ("boolean", "BOOLEAN"); ("timestamp", "TIMESTAMP"); ("uuid", "UUID")].

Definition mapTypeToPostgres (schemaType : string) : string :=
  match Obj.get typeMap (JS.toLowerCase schemaType) with
  | Some t => t
  | None => JS.toUpperCase schemaType
  end.

Definition escapeSQLValue (value : string) : string :=
  let escaped := JS.replace_char "039"%char (JS.squote +:+ JS.squote) value in
  JS.squote +:+ escaped +:+ JS.squote.

Definition is_kind (k : DefaultKind) (d : option Default) : bool :=
  match d with
  | Some d => DefaultKind_eqb (d_kind d) k
  | None => false
  end.

(** The [parts] that [generateColumnDefinition] pushes before any
    [PRIMARY KEY] marker: name, type, default, UNIQUE, NOT NULL *)
Definition columnParts (column : NormalizedColumn) : list string :=
  [nc_name column]
  ++ (if is_kind k_autoincrement (nc_default column) then ["SERIAL"]
      else [mapTypeToPostgres (nc_type column)])
  ++ match nc_default column with
     | Some d =>
         match d_kind d with
         | k_uuid => ["DEFAULT gen_random_uuid()"]
         | k_now => ["DEFAULT now()"]
         | k_value =>
             match d_value d with
             | Some v => ["DEFAULT " +:+ escapeSQLValue v]
             | None => []
             end
         | k_autoincrement => []
         end
     | None => []
     end
  ++ (if nc_unique column then ["UNIQUE"] else [])
  ++ (if nc_nullable column then [] else ["NOT NULL"]).

(** Insertion-ordered [Set.add] *)
Definition set_add (x : string) (s : list string) : list string :=
  if existsb (String.eqb x) s then s else s ++ [x].

(** [deps] of one table: the tables its foreign keys name, first seen first *)
Definition depsOf (table : NormalizedTable) : list string :=
  fold_left
    (fun deps column =>
       match nc_foreignKey column with
       | Some fk => set_add (fk_table fk) deps
       | None => deps
       end)
    (Obj.values (nt_columns table)) [].

Definition dependenciesOf (schema : NormalizedSchema)
  : gmap string (list string) :=
  fold_left
    (fun m '(tableName, table) => <[tableName := depsOf table]> m)
    (tables schema) ∅.

(** The three mutable variables that [visit] closes over *)
Record VisitState : Type := mkVisitState {
  ordered : list string;
  visited : gset string;
  visiting : gset string
}.

(** The loop [for (const dep of deps) if (schema.tables[dep]) visit(dep)],
    with the recursive call as a parameter *)
Definition visitDeps (schema : NormalizedSchema)
  (visit : VisitState -> string -> option VisitState)
  (deps : list string) (st : VisitState) : option VisitState :=
  fold_left
    (fun acc dep =>
       match acc with
       | None => None
       | Some s =>
           if Obj.has (tables schema) dep then visit s dep else Some s
       end)
    deps (Some st).

Section Visit.
Variable schema : NormalizedSchema.
Variable dependencies : gmap string (list string).

(** [visit(tableName)]; [fuel] bounds the depth of the recursion *)
Fixpoint visit (fuel : nat) (st : VisitState) (tableName : string)
  : option VisitState :=
  match fuel with
  | O => None
  | S fuel' =>
      if bool_decide (tableName ∈ visiting st) then Some st
      else if bool_decide (tableName ∈ visited st) then Some st
      else
        let st1 := mkVisitState (ordered st) (visited st)
                     (visiting st ∪ {[tableName]}) in
        let deps := default [] (dependencies !! tableName) in
        match visitDeps schema (visit fuel') deps st1 with
        | None => None
        | Some st2 =>
            Some (mkVisitState (ordered st2 ++ [tableName])
                    (visited st2 ∪ {[tableName]})
                    (visiting st2 ∖ {[tableName]}))
        end
  end.

(** [for (const tableName of tables) visit(tableName)] *)
Definition visitAll (fuel : nat) (names : list string) (st : VisitState)
  : option VisitState :=
  fold_left
    (fun acc tableName =>
       match acc with
       | None => None
       | Some s => visit fuel s tableName
       end)
    names (Some st).

End Visit.

(** [orderTables(schema)].  The recursion of [visit] is never deeper than
    the number of tables plus one (lemma [orderTables_returns]). *)
Definition orderTables (schema : NormalizedSchema) : option (list string) :=
  let names := Obj.keys (tables schema) in
  let dependencies := dependenciesOf schema in
  match visitAll schema dependencies (S (length names)) names
          (mkVisitState [] ∅ ∅) with
  | Some st => Some (ordered st)
  | None => None
  end.

Definition fkConstraintsOf (table : NormalizedTable) : list string :=
  flat_map
    (fun column =>
       match nc_foreignKey column with
       | Some fk =>
           if negb (nc_primaryKey column)
           then ["  FOREIGN KEY (" +:+ nc_name column +:+ ") REFERENCES "
                 +:+ fk_table fk +:+ "(" +:+ fk_column fk +:+ ")"]
           else []
       | None => []
       end)
    (Obj.values (nt_columns table)).

(** The tail of [generateTableSQL], from the definitions to the text *)
Definition assemble (table : NormalizedTable) (allDefinitions : list string)
  : string :=
  JS.join JS.nl
    ["CREATE TABLE " +:+ nt_name table +:+ " (";
     JS.join ("," +:+ JS.nl) allDefinitions;
     ");"].

(** The loop of [generatePostgresSQL] over the ordered names *)
Definition statementsOf (schema : NormalizedSchema)
  (generateTableSQL : string -> NormalizedTable -> string)
  (orderedTables : list string) : list string :=
  flat_map
    (fun tableName =>
       match Obj.get (tables schema) tableName with
       | Some table => [generateTableSQL tableName table]
       | None => []
       end)
    orderedTables.

End SqlCommon.

Module PostgresGenerator.
Import SqlCommon.

Definition generateColumnDefinition (column : NormalizedColumn) : string :=
  JS.join " " (columnParts column).

Definition pkColumnsOf (table : NormalizedTable) : list NormalizedColumn :=
  filter (fun c => nc_primaryKey c) (Obj.values (nt_columns table)).

Definition isCompositePK (table : NormalizedTable) : bool :=
  Nat.ltb 1 (length (pkColumnsOf table)).

(** One iteration of the first loop of [generateTableSQL] *)
Definition columnDef (composite : bool) (column : NormalizedColumn) : string :=
  let def := generateColumnDefinition column in
  let def := if (negb composite && nc_primaryKey column)%bool
             then def +:+ " PRIMARY KEY" else def in
  "  " +:+ def.

Definition columnDefsOf (table : NormalizedTable) : list string :=
  map (columnDef (isCompositePK table)) (Obj.values (nt_columns table))
  ++ (if isCompositePK table
      then ["  PRIMARY KEY ("
            +:+ JS.join ", " (map nc_name (pkColumnsOf table)) +:+ ")"]
      else []).

Definition generateTableSQL (tableName : string) (table : NormalizedTable)
  : string :=
  assemble table (columnDefsOf table ++ fkConstraintsOf table).

Definition generatePostgresSQL (schema : NormalizedSchema) : outcome string :=
  match GeneratorValidation.validateSchemaForGeneration schema with
  | Thrown m => Thrown m
  | OutOfFuel => OutOfFuel
  | Returned _ =>
      match orderTables schema with
      | None => OutOfFuel
      | Some orderedTables =>
          Returned
            (JS.join (JS.nl +:+ JS.nl)
               (statementsOf schema generateTableSQL orderedTables))
      end
  end.

End PostgresGenerator.

(** ** PostgreSQL generator, the revision at lines 153-348 of the same file *)
Module PostgresGeneratorRev.
Import SqlCommon.

(** This revision marks the primary key inside the column definition. *)
Definition generateColumnDefinition (column : NormalizedColumn) : string :=
  JS.join " "
    (columnParts column
     ++ (if nc_primaryKey column then ["PRIMARY KEY"] else [])).

Definition columnDefsOf (table : NormalizedTable) : list string :=
  map (fun column => "  " +:+ generateColumnDefinition column)
    (Obj.values (nt_columns table)).

Definition generateTableSQL (tableName : string) (table : NormalizedTable)
  : string :=
  assemble table (columnDefsOf table ++ fkConstraintsOf table).

Definition generatePostgresSQL (schema : NormalizedSchema) : outcome string :=
  match GeneratorValidation.validateSchemaForGeneration schema with
  | Thrown m => Thrown m
  | OutOfFuel => OutOfFuel
  | Returned _ =>
      match orderTables schema with
      | None => OutOfFuel
      | Some orderedTables =>
          Returned
            (JS.join (JS.nl +:+ JS.nl)
               (statementsOf schema generateTableSQL orderedTables))
      end
  end.

End PostgresGeneratorRev.

(* ===================================================================== *)
(** ** Prisma generator *)
(* ===================================================================== *)

(** Pieces that both revisions of the generator share verbatim. *)
Module PrismaCommon.

Definition pascalWord (word : string) : string :=
  JS.toUpperCase (JS.charAt0 word) +:+ JS.toLowerCase (JS.slice_from 1 word).

Definition toPascalCase (name : string) : string :=
  JS.join EmptyString (map pascalWord (JS.split "_"%char name)).

Definition toCamelCase (name : string) : string :=
  let pascal := toPascalCase name in
  JS.toLowerCase (JS.charAt0 pascal) +:+ JS.slice_from 1 pascal.

Definition toBackRelationName (tableName : string) : string :=
  toCamelCase tableName.

Definition typeMap : Obj.obj string :=
  [("int", "Int"); ("varchar", "String"); ("text", "String");
   ("boolean", "Boolean"); ("timestamp", "DateTime"); ("uuid", "String")].

Definition mapTypeToPrisma (schemaType : string) : string :=
  match Obj.get typeMap (JS.toLowerCase schemaType) with
  | Some t => t
  | None => schemaType
  end.

Definition escapePrismaValue (value : string) : string :=
  let escaped :=
    JS.replace_char "034"%char (String "092"%char JS.dquote) value in
  JS.dquote +:+ escaped +:+ JS.dquote.

(** The [@default(...)] directive, if any *)
Definition defaultParts (column : NormalizedColumn) : list string :=
  match nc_default column with
  | Some d =>
      match d_kind d with
      | k_autoincrement => ["@default(autoincrement())"]
      | k_uuid => ["@default(uuid())"]
      | k_now => ["@default(now())"]
      | k_value =>
          match d_value d with
          | Some v => ["@default(" +:+ escapePrismaValue v +:+ ")"]
          | None => []
          end
      end
  | None => []
  end.

Definition mapPart (column : NormalizedColumn) : string :=
  "@map(" +:+ JS.dquote +:+ nc_name column +:+ JS.dquote +:+ ")".

Definition generateBackRelationField (tableName modelName : string) : string :=
  toBackRelationName tableName +:+ " " +:+ modelName +:+ "[]".

(** One step of [buildRelationMap]: table [tableName] has a foreign key
    into [referencedTable] *)
Definition noteReference (tableName referencedTable : string)
  (relationMap : gmap string (list string)) : gmap string (list string) :=
  let relationMap :=
    match relationMap !! referencedTable with
    | Some _ => relationMap
    | None => <[referencedTable := []]> relationMap
    end in
  let referencingTables := default [] (relationMap !! referencedTable) in
  if existsb (String.eqb tableName) referencingTables then relationMap
  else <[referencedTable := referencingTables ++ [tableName]]> relationMap.

Definition buildRelationMap (schema : NormalizedSchema)
  : gmap string (list string) :=
  fold_left
    (fun m '(tableName, table) =>
       fold_left
         (fun m column =>
            match nc_foreignKey column with
            | Some fk => noteReference tableName (fk_table fk) m
            | None => m
            end)
         (Obj.values (nt_columns table)) m)
    (tables schema) ∅.

(** [Array.prototype.sort()] on strings: ascending code-unit order *)
Fixpoint insert_sorted (x : string) (l : list string) : list string :=
  match l with
  | [] => [x]
  | y :: r => if String.leb x y then x :: l else y :: insert_sorted x r
  end.

Definition sort (l : list string) : list string :=
  fold_right insert_sorted [] l.

(** The body of [generatePrismaSchema] once [generateModel] is fixed *)
Definition generateWith
  (generateModel :
     string -> NormalizedTable -> gmap string (list string) -> string)
  (schema : NormalizedSchema) : outcome string :=
  match GeneratorValidation.validateSchemaForGeneration schema with
  | Thrown m => Thrown m
  | OutOfFuel => OutOfFuel
  | Returned _ =>
      let relationMap := buildRelationMap schema in
      let tableNames := sort (Obj.keys (tables schema)) in
      let models :=
        flat_map
          (fun tableName =>
             match Obj.get (tables schema) tableName with
             | Some table => [generateModel tableName table relationMap]
             | None => []
             end)
          tableNames in
      Returned (JS.join (JS.nl +:+ JS.nl) models)
  end.

End PrismaCommon.

(** *** The generator of unnamed/part_003 *)
Module PrismaGenerator.
Import PrismaCommon.

Definition toSingular (name : string) : string :=
  if Nat.leb (String.length name) 1 then name
  else if JS.endsWith name "ss" then name
  else if JS.endsWith name "ies" then JS.slice_drop_last 3 name +:+ "y"
  else if JS.endsWith name "ves" then JS.slice_drop_last 3 name +:+ "f"
  else if JS.endsWith name "ses" then JS.slice_drop_last 2 name
  else if JS.endsWith name "xes" then JS.slice_drop_last 2 name
  else if JS.endsWith name "ches" then JS.slice_drop_last 2 name
  else if JS.endsWith name "shes" then JS.slice_drop_last 2 name
  else if JS.endsWith name "s" then JS.slice_drop_last 1 name
  else name.

Definition toModelName (tableName : string) : string :=
  let words := JS.split "_"%char tableName in
  let singularWords := map toSingular words in
  let singularTableName := JS.join "_" singularWords in
  toPascalCase singularTableName.

Definition toRelationName (tableName : string) : string :=
  toCamelCase (toSingular tableName).

(** The [fieldName] computed at the top of [generateScalarField] *)
Definition scalarFieldName (column : NormalizedColumn) : string :=
  match nc_foreignKey column with
  | Some fk =>
      let targetModelName := toModelName (fk_table fk) in
      toCamelCase targetModelName +:+ "Id"
  | None => toCamelCase (nc_name column)
  end.

Definition generateScalarField (column : NormalizedColumn)
  (isCompositePK : bool) : string :=
  let fieldName := scalarFieldName column in
  let prismaType := mapTypeToPrisma (nc_type column) in
  let nullable := if nc_nullable column then "?" else EmptyString in
  JS.join " "
    ([fieldName; prismaType +:+ nullable]
     ++ (if (negb (String.eqb fieldName (nc_name column))
             || bool_decide (is_Some (nc_foreignKey column)))%bool
         then [mapPart column] else [])
     ++ (if (nc_primaryKey column && negb isCompositePK)%bool
         then ["@id"] else [])
     ++ (if nc_unique column then ["@unique"] else [])
     ++ defaultParts column).

Definition generateRelationField (column : NormalizedColumn)
  (referencedTableName : string) : string :=
  let fieldName := toRelationName referencedTableName in
  let modelName := toModelName referencedTableName in
  let scalarFieldName := toCamelCase modelName +:+ "Id" in
  fieldName +:+ " " +:+ modelName +:+ " @relation(fields: ["
  +:+ scalarFieldName +:+ "], references: [id])".

Definition generateModel (tableName : string) (table : NormalizedTable)
  (relationMap : gmap string (list string)) : string :=
  let modelName := toModelName tableName in
  let columns := Obj.values (nt_columns table) in
  let pkColumns := filter (fun c => nc_primaryKey c) columns in
  let isCompositePK := Nat.ltb 1 (length pkColumns) in
  let scalarFields :=
    map (fun column => "  " +:+ generateScalarField column isCompositePK)
      columns in
  let relationFields :=
    flat_map
      (fun column =>
         match nc_foreignKey column with
         | Some fk => ["  " +:+ generateRelationField column (fk_table fk)]
         | None => []
         end)
      columns in
  let referencingTables := default [] (relationMap !! tableName) in
  let backRelations :=
    map (fun refTableName =>
           "  " +:+ generateBackRelationField refTableName
                      (toModelName refTableName))
      referencingTables in
  JS.join JS.nl
    (["model " +:+ modelName +:+ " {"]
     ++ scalarFields ++ relationFields ++ backRelations
     ++ ["  @@map(" +:+ JS.dquote +:+ tableName +:+ JS.dquote +:+ ")"]
     ++ (if isCompositePK
         then ["  @@id(["
               +:+ JS.join ", " (map (fun c => toCamelCase (nc_name c))
                                   pkColumns)
               +:+ "])"]
         else [])
     ++ ["}"]).

Definition generatePrismaSchema : NormalizedSchema -> outcome string :=
  generateWith generateModel.

End PrismaGenerator.

(** *** The generator of lib/prisma/prismaGenerator.ts *)
Module PrismaGeneratorLib.
Import PrismaCommon.

Definition toSingular (name : string) : string :=
  if Nat.leb (String.length name) 1 then name
  else if JS.endsWith name "ies" then JS.slice_drop_last 3 name +:+ "y"
  else if JS.endsWith name "ves" then JS.slice_drop_last 3 name +:+ "f"
  else if JS.endsWith name "ses" then JS.slice_drop_last 2 name
  else if JS.endsWith name "xes" then JS.slice_drop_last 2 name
  else if JS.endsWith name "ches" then JS.slice_drop_last 2 name
  else if JS.endsWith name "shes" then JS.slice_drop_last 2 name
  else if JS.endsWith name "s" then JS.slice_drop_last 1 name
  else name.

Definition toModelName (tableName : string) : string :=
  let words := JS.split "_"%char tableName in
  let singularWords := map toSingular words in
  let singularTableName := JS.join "_" singularWords in
  toPascalCase singularTableName.

Definition toRelationName (tableName : string) : string :=
  toCamelCase (toSingular tableName).

Definition generateScalarField (column : NormalizedColumn) : string :=
  let fieldName := toCamelCase (nc_name column) in
  let prismaType := mapTypeToPrisma (nc_type column) in
  let nullable := if nc_nullable column then "?" else EmptyString in
  JS.join " "
    ([fieldName; prismaType +:+ nullable]
     ++ (if negb (String.eqb fieldName (nc_name column))
         then [mapPart column] else [])
     ++ (if nc_primaryKey column then ["@id"] else [])
     ++ (if nc_unique column then ["@unique"] else [])
     ++ defaultParts column).

Definition generateRelationField (column : NormalizedColumn)
  (referencedTableName referencedColumnName : string) : string :=
  let fieldName := toRelationName referencedTableName in
  let modelName := toModelName referencedTableName in
  let scalarFieldName := toCamelCase (nc_name column) in
  let referencedFieldName := toCamelCase referencedColumnName in
  fieldName +:+ " " +:+ modelName +:+ " @relation(fields: ["
  +:+ scalarFieldName +:+ "], references: [" +:+ referencedFieldName +:+ "])".

Definition generateModel (tableName : string) (table : NormalizedTable)
  (relationMap : gmap string (list string)) : string :=
  let modelName := toModelName tableName in
  let columns := Obj.values (nt_columns table) in
  let scalarFields :=
    map (fun column => "  " +:+ generateScalarField column) columns in
  let relationFields :=
    flat_map
      (fun column =>
         match nc_foreignKey column with
         | Some fk =>
             ["  " +:+ generateRelationField column (fk_table fk)
                         (fk_column fk)]
         | None => []
         end)
      columns in
  let referencingTables := default [] (relationMap !! tableName) in
  let backRelations :=
    map (fun refTableName =>
           "  " +:+ generateBackRelationField refTableName
                      (toModelName refTableName))
      referencingTables in
  JS.join JS.nl
    (["model " +:+ modelName +:+ " {"]
     ++ scalarFields ++ relationFields ++ backRelations
     ++ ["  @@map(" +:+ JS.dquote +:+ tableName +:+ JS.dquote +:+ ")"]
     ++ ["}"]).

Definition generatePrismaSchema : NormalizedSchema -> outcome string :=
  generateWith generateModel.

End PrismaGeneratorLib.


(* ===================================================================== *)
(** ** Model names: the suffix cascade *)
(* ===================================================================== *)

Module NamingSpec.
Import JS PrismaCommon.

(** [strip_suffix suffix s] is [Some p] exactly when [s] is [p] followed by
    [suffix] (lemma [strip_suffix_spec]). *)
Fixpoint strip_suffix (suffix s : string) : option string :=
  if String.eqb s suffix then Some EmptyString
  else match s with
       | EmptyString => None
       | String a r => option_map (String a) (strip_suffix suffix r)
       end.

(** The suffix rules in the words of the specification: a word ending in
    double-s is kept; [-ies] becomes [-y]; [-ves] becomes [-f]; [-ses],
    [-xes], [-ches], [-shes] lose their last two characters; another
    trailing [-s] is dropped; anything else is kept. *)
Definition cascade (word : string) : string :=
  match strip_suffix "ss" word with
  | Some _ => word
  | None =>
  match strip_suffix "ies" word with
  | Some p => p +:+ "y"
  | None =>
  match strip_suffix "ves" word with
  | Some p => p +:+ "f"
  | None =>
  match strip_suffix "ses" word with
  | Some p => p +:+ "s"
  | None =>
  match strip_suffix "xes" word with
  | Some p => p +:+ "x"
  | None =>
  match strip_suffix "ches" word with
  | Some p => p +:+ "ch"
  | None =>
  match strip_suffix "shes" word with
  | Some p => p +:+ "sh"
  | None =>
  match strip_suffix "s" word with
  | Some p => p
  | None => word
  end end end end end end end end.

(** The model name as the specification derives it: split on underscores,
    run the cascade on each word, capitalise, concatenate. *)
Definition claimed_modelName (tableName : string) : string :=
  join EmptyString
    (map (fun w => pascalWord (cascade w)) (split "_"%char tableName)).

(** The same with words of at most one character left alone. *)
Definition guarded_cascade (word : string) : string :=
  if Nat.leb (String.length word) 1 then word else cascade word.

Definition derived_modelName (tableName : string) : string :=
  join EmptyString
    (map (fun w => pascalWord (guarded_cascade w)) (split "_"%char tableName)).

End NamingSpec.

(* ===================================================================== *)
(** ** Validator (lib/schemaValidator.ts) *)
(* ===================================================================== *)

Module SchemaValidator.

Record ValidationError : Type := mkValidationError {
  code : string;
  message : string;
  table : option string;
  column : option string
}.

Record ValidationResult : Type := mkValidationResult {
  valid : bool;
  errors : list ValidationError
}.

Definition RESERVED_KEYWORDS : list string :=
  ["user"; "order"; "select"; "table"; "group"; "where"; "index"].

(** [!s || s.trim().length === 0] *)
Definition isBlank (s : string) : bool :=
  (negb (JS.truthy s) || Nat.eqb (String.length (JS.trim s)) 0)%bool.

(** A character of the class [[a-z0-9_]] *)
Definition is_word_char (a : ascii) : bool :=
  (JS.is_lower a || JS.is_digit a || Ascii.eqb a "_"%char)%bool.

Fixpoint all_chars (p : ascii -> bool) (s : string) : bool :=
  match s with
  | EmptyString => true
  | String a r => (p a && all_chars p r)%bool
  end.

(** [/^[a-z][a-z0-9_]*$|^_[a-z0-9_]+$/.test(name)] *)
Definition snakeCaseRegex (name : string) : bool :=
  match name with
  | EmptyString => false
  | String a r =>
      (JS.is_lower a && all_chars is_word_char r
       || Ascii.eqb a "_"%char && JS.truthy r && all_chars is_word_char r)%bool
  end.

Definition isSnakeCase (name : string) : bool :=
  if isBlank name then false
  else if negb (snakeCaseRegex name) then false
  else if JS.includes name "__" then false
  else true.

Definition isReservedKeyword (name : string) : bool :=
  existsb (String.eqb (JS.toLowerCase name)) RESERVED_KEYWORDS.

(** *** Table rules *)

Definition err_table_empty_name (tableName : string) : ValidationError :=
  mkValidationError "TABLE_EMPTY_NAME" "Table name cannot be empty"
    (Some tableName) None.

Definition err_table_not_snake_case (tableName name : string)
  : ValidationError :=
  mkValidationError "TABLE_NOT_SNAKE_CASE"
    ("Table name '" +:+ name
     +:+ "' must be in snake_case (lowercase letters, numbers, underscores only)")
    (Some tableName) None.

Definition err_table_reserved_keyword (tableName name : string)
  : ValidationError :=
  let suggestion := if JS.endsWith name "s" then name else name +:+ "s" in
  mkValidationError "TABLE_RESERVED_KEYWORD"
    ("Table name '" +:+ name +:+ "' is a reserved keyword. Use '"
     +:+ suggestion +:+ "' instead.")
    (Some tableName) None.

Definition err_table_duplicate (tableName name : string) : ValidationError :=
  mkValidationError "TABLE_DUPLICATE"
    ("Duplicate table name '" +:+ name +:+ "'") (Some tableName) None.

Definition err_table_no_columns (tableName name : string) : ValidationError :=
  mkValidationError "TABLE_NO_COLUMNS"
    ("Table '" +:+ name +:+ "' must have at least one column")
    (Some tableName) None.

(** What one iteration of the loop of [validateTables] pushes *)
Definition tableErrors (seenTableNames : gset string) (tableName : string)
  (t : NormalizedTable) : list ValidationError :=
  let name := nt_name t in
  (if isBlank name then [err_table_empty_name tableName] else [])
  ++ (if (JS.truthy name && negb (isSnakeCase name))%bool
      then [err_table_not_snake_case tableName name] else [])
  ++ (if (JS.truthy name && isReservedKeyword name)%bool
      then [err_table_reserved_keyword tableName name] else [])
  ++ (if (JS.truthy name
          && bool_decide (JS.toLowerCase name ∈ seenTableNames))%bool
      then [err_table_duplicate tableName name] else [])
  ++ (if Nat.eqb (length (Obj.keys (nt_columns t))) 0
      then [err_table_no_columns tableName name] else []).

(** and what it does to the set of names seen *)
Definition noteName (name : string) (seen : gset string) : gset string :=
  if JS.truthy name then seen ∪ {[JS.toLowerCase name]} else seen.

Fixpoint validateTablesFrom (seenTableNames : gset string)
  (entries : Obj.obj NormalizedTable) : list ValidationError :=
  match entries with
  | [] => []
  | (tableName, t) :: rest =>
      tableErrors seenTableNames tableName t
      ++ validateTablesFrom (noteName (nt_name t) seenTableNames) rest
  end.

Definition validateTables (schema : NormalizedSchema) : list ValidationError :=
  validateTablesFrom ∅ (tables schema).

(** *** Column rules *)

Definition err_column_empty_name (tableName columnName : string)
  : ValidationError :=
  mkValidationError "COLUMN_EMPTY_NAME" "Column name cannot be empty"
    (Some tableName) (Some columnName).

Definition err_column_not_snake_case (tableName columnName name : string)
  : ValidationError :=
  mkValidationError "COLUMN_NOT_SNAKE_CASE"
    ("Column name '" +:+ name
     +:+ "' must be in snake_case (lowercase letters, numbers, underscores only)")
    (Some tableName) (Some columnName).

Definition err_column_duplicate (tableName columnName name tname : string)
  : ValidationError :=
  mkValidationError "COLUMN_DUPLICATE"
    ("Duplicate column name '" +:+ name +:+ "' in table '" +:+ tname +:+ "'")
    (Some tableName) (Some columnName).

Definition err_column_no_type (tableName columnName name tname : string)
  : ValidationError :=
  mkValidationError "COLUMN_NO_TYPE"
    ("Column '" +:+ name +:+ "' in table '" +:+ tname
     +:+ "' must have a datatype")
    (Some tableName) (Some columnName).

Definition err_column_multiple_pk (tableName pkColumnName tname : string)
  : ValidationError :=
  mkValidationError "COLUMN_MULTIPLE_PK"
    ("Table '" +:+ tname
     +:+ "' has multiple primary keys. Only one primary key allowed per table.")
    (Some tableName) (Some pkColumnName).

(** What one iteration of the inner loop of [validateColumns] pushes *)
Definition columnErrors (tableName : string) (t : NormalizedTable)
  (seenColumnNames : gset string) (columnName : string)
  (c : NormalizedColumn) : list ValidationError :=
  let name := nc_name c in
  (if isBlank name then [err_column_empty_name tableName columnName] else [])
  ++ (if (JS.truthy name && negb (isSnakeCase name))%bool
      then [err_column_not_snake_case tableName columnName name] else [])
  ++ (if (JS.truthy name
          && bool_decide (JS.toLowerCase name ∈ seenColumnNames))%bool
      then [err_column_duplicate tableName columnName name (nt_name t)]
      else [])
  ++ (if isBlank (nc_type c)
      then [err_column_no_type tableName columnName name (nt_name t)]
      else []).

Fixpoint validateColumnsFrom (tableName : string) (t : NormalizedTable)
  (seenColumnNames : gset string) (entries : Obj.obj NormalizedColumn)
  : list ValidationError :=
  match entries with
  | [] => []
  | (columnName, c) :: rest =>
      columnErrors tableName t seenColumnNames columnName c
      ++ validateColumnsFrom tableName t
           (noteName (nc_name c) seenColumnNames) rest
  end.

(** [primaryKeys] once the inner loop is over *)
Definition primaryKeysOf (t : NormalizedTable) : list string :=
  flat_map (fun '(columnName, c) =>
              if nc_primaryKey c then [columnName] else [])
    (nt_columns t).

(** [for (let i = 1; i < primaryKeys.length; i++)]: every key but the
    first; nothing to do for a list of length at most one *)
Definition multiplePkErrors (tableName : string) (t : NormalizedTable)
  : list ValidationError :=
  map (fun pkColumnName =>
         err_column_multiple_pk tableName pkColumnName (nt_name t))
    (tl (primaryKeysOf t)).

Definition validateColumns (schema : NormalizedSchema)
  : list ValidationError :=
  flat_map
    (fun '(tableName, t) =>
       validateColumnsFrom tableName t ∅ (nt_columns t)
       ++ multiplePkErrors tableName t)
    (tables schema).

(** *** Foreign-key rules *)

Definition err_fk_table_not_found
  (tableName columnName name tname referencedTableName : string)
  : ValidationError :=
  mkValidationError "FK_TABLE_NOT_FOUND"
    ("Column '" +:+ name +:+ "' in table '" +:+ tname
     +:+ "' references non-existent table '" +:+ referencedTableName +:+ "'")
    (Some tableName) (Some columnName).

Definition err_fk_column_not_found
  (tableName columnName name tname referencedTableName
     referencedColumnName : string) : ValidationError :=
  mkValidationError "FK_COLUMN_NOT_FOUND"
    ("Column '" +:+ name +:+ "' in table '" +:+ tname
     +:+ "' references non-existent column '" +:+ referencedColumnName
     +:+ "' in table '" +:+ referencedTableName +:+ "'")
    (Some tableName) (Some columnName).

Definition err_fk_not_primary_key
  (tableName columnName name tname referencedTableName
     referencedColumnName : string) : ValidationError :=
  mkValidationError "FK_NOT_PRIMARY_KEY"
    ("Column '" +:+ name +:+ "' in table '" +:+ tname
     +:+ "' references column '" +:+ referencedColumnName +:+ "' in '"
     +:+ referencedTableName +:+ "', but '" +:+ referencedColumnName
     +:+ "' is not a primary key")
    (Some tableName) (Some columnName).

Definition err_fk_type_mismatch
  (tableName columnName name tname type referencedTableName
     referencedColumnName referencedType : string) : ValidationError :=
  mkValidationError "FK_TYPE_MISMATCH"
    ("Column '" +:+ name +:+ "' in table '" +:+ tname +:+ "' has type '"
     +:+ type +:+ "' but references '" +:+ referencedTableName +:+ "."
     +:+ referencedColumnName +:+ "' with type '" +:+ referencedType +:+ "'")
    (Some tableName) (Some columnName).

(** One iteration of the inner loop of [validateForeignKeys] *)
Definition foreignKeyErrors (schema : NormalizedSchema)
  (tableName : string) (t : NormalizedTable)
  (columnName : string) (c : NormalizedColumn) : list ValidationError :=
  match nc_foreignKey c with
  | None => []
  | Some fk =>
      let referencedTableName := fk_table fk in
      let referencedColumnName := fk_column fk in
      match Obj.get (tables schema) referencedTableName with
      | None =>
          [err_fk_table_not_found tableName columnName (nc_name c)
             (nt_name t) referencedTableName]
      | Some referencedTable =>
          match Obj.get (nt_columns referencedTable) referencedColumnName with
          | None =>
              [err_fk_column_not_found tableName columnName (nc_name c)
                 (nt_name t) referencedTableName referencedColumnName]
          | Some referencedColumn =>
              (if negb (nc_primaryKey referencedColumn)
               then [err_fk_not_primary_key tableName columnName (nc_name c)
                       (nt_name t) referencedTableName referencedColumnName]
               else [])
              ++ (if (JS.truthy (nc_type c)
                      && JS.truthy (nc_type referencedColumn)
                      && negb (String.eqb (nc_type c)
                                 (nc_type referencedColumn)))%bool
                  then [err_fk_type_mismatch tableName columnName (nc_name c)
                          (nt_name t) (nc_type c) referencedTableName
                          referencedColumnName (nc_type referencedColumn)]
                  else [])
          end
      end
  end.

Definition validateForeignKeys (schema : NormalizedSchema)
  : list ValidationError :=
  flat_map
    (fun '(tableName, t) =>
       flat_map
         (fun '(columnName, c) =>
            foreignKeyErrors schema tableName t columnName c)
         (nt_columns t))
    (tables schema).

(** *** Default-value rules *)

Definition err_multiple_autoincrement (tableName columnName tname : string)
  : ValidationError :=
  mkValidationError "COLUMN_MULTIPLE_AUTOINCREMENT"
    ("Table '" +:+ tname
     +:+ "' has multiple auto-increment columns. Only one auto-increment column allowed per table.")
    (Some tableName) (Some columnName).

Definition err_autoincrement_not_int
  (tableName columnName name tname type : string) : ValidationError :=
  mkValidationError "COLUMN_AUTOINCREMENT_NOT_INT"
    ("Column '" +:+ name +:+ "' in table '" +:+ tname
     +:+ "' has auto-increment default but type is '" +:+ type
     +:+ "'. Auto-increment requires int type.")
    (Some tableName) (Some columnName).

Definition err_autoincrement_not_pk (tableName columnName name tname : string)
  : ValidationError :=
  mkValidationError "COLUMN_AUTOINCREMENT_NOT_PK"
    ("Column '" +:+ name +:+ "' in table '" +:+ tname
     +:+ "' has auto-increment default but is not a primary key. Auto-increment requires primary key.")
    (Some tableName) (Some columnName).

Definition err_uuid_on_int (tableName columnName name tname : string)
  : ValidationError :=
  mkValidationError "COLUMN_UUID_ON_INT"
    ("Column '" +:+ name +:+ "' in table '" +:+ tname
     +:+ "' has UUID default but type is 'int'. UUID default requires uuid or varchar type.")
    (Some tableName) (Some columnName).

Definition err_now_not_timestamp
  (tableName columnName name tname type : string) : ValidationError :=
  mkValidationError "COLUMN_NOW_NOT_TIMESTAMP"
    ("Column '" +:+ name +:+ "' in table '" +:+ tname
     +:+ "' has now() default but type is '" +:+ type
     +:+ "'. now() default requires timestamp type.")
    (Some tableName) (Some columnName).

(** One iteration of the inner loop of [validateDefaults];
    [seenAutoincrement] is [autoincrementColumns.length > 0] *)
Definition defaultErrors (tableName : string) (t : NormalizedTable)
  (seenAutoincrement : bool) (columnName : string) (c : NormalizedColumn)
  : list ValidationError :=
  match nc_default c with
  | None => []
  | Some d =>
      match d_kind d with
      | k_autoincrement =>
          (if seenAutoincrement
           then [err_multiple_autoincrement tableName columnName (nt_name t)]
           else [])
          ++ (if negb (String.eqb (nc_type c) "int")
              then [err_autoincrement_not_int tableName columnName
                      (nc_name c) (nt_name t) (nc_type c)]
              else [])
          ++ (if negb (nc_primaryKey c)
              then [err_autoincrement_not_pk tableName columnName
                      (nc_name c) (nt_name t)]
              else [])
      | k_uuid =>
          if String.eqb (nc_type c) "int"
          then [err_uuid_on_int tableName columnName (nc_name c) (nt_name t)]
          else []
      | k_now =>
          if negb (String.eqb (nc_type c) "timestamp")
          then [err_now_not_timestamp tableName columnName (nc_name c)
                  (nt_name t) (nc_type c)]
          else []
      | k_value => []
      end
  end.

Definition isAutoincrement (c : NormalizedColumn) : bool :=
  match nc_default c with
  | Some d => DefaultKind_eqb (d_kind d) k_autoincrement
  | None => false
  end.

Fixpoint validateDefaultsFrom (tableName : string) (t : NormalizedTable)
  (seenAutoincrement : bool) (entries : Obj.obj NormalizedColumn)
  : list ValidationError :=
  match entries with
  | [] => []
  | (columnName, c) :: rest =>
      defaultErrors tableName t seenAutoincrement columnName c
      ++ validateDefaultsFrom tableName t
           (seenAutoincrement || isAutoincrement c)%bool rest
  end.

Definition validateDefaults (schema : NormalizedSchema)
  : list ValidationError :=
  flat_map
    (fun '(tableName, t) =>
       validateDefaultsFrom tableName t false (nt_columns t))
    (tables schema).

(** *** [validateSchema] *)

Definition validateSchema (schema : NormalizedSchema) : ValidationResult :=
  let errors :=
    validateTables schema ++ validateColumns schema
    ++ validateForeignKeys schema ++ validateDefaults schema in
  mkValidationResult (Nat.eqb (length errors) 0) errors.

End SchemaValidator.

(* ===================================================================== *)
(** ** Validator: what is to be shown *)
(* ===================================================================== *)

(** A loop that pushes [body st x] for every [x] and moves its state on
    with [step]; the loops of the validator are instances of it. *)
Fixpoint scan {S X E : Type} (body : S -> X -> list E) (step : S -> X -> S)
  (st : S) (l : list X) : list E :=
  match l with
  | [] => []
  | x :: rest => body st x ++ scan body step (step st x) rest
  end.

(** The rules of the validator, stated on the schema.  An entry of an
    object is "earlier" than another when it is enumerated before it. *)
Module ValidatorSpec.
Import SchemaValidator.

(** Every character is white space (so the empty string is blank). *)
Definition Blank (s : string) : Prop := all_chars JS.is_space s = true.

Definition Contains (s sub : string) : Prop :=
  exists p q, s = p +:+ sub +:+ q.

(** The identifier convention: a lower-case letter, or an underscore with
    at least one character after it, then lower-case letters, digits and
    underscores, and no two underscores in a row *)
Definition SnakeCase (name : string) : Prop :=
  exists a r,
    name = String a r
    /\ (JS.is_lower a = true \/ (a = "_"%char /\ r <> EmptyString))
    /\ all_chars is_word_char r = true
    /\ ~ Contains name "__".

Definition Reserved (name : string) : Prop :=
  In (JS.toLowerCase name) RESERVED_KEYWORDS.

(** [l] is [pre], then [x], then [post]. *)
Definition splitAt {A : Type} (l pre : list A) (x : A) (post : list A)
  : Prop :=
  l = pre ++ x :: post.

Definition kindOf (c : NormalizedColumn) : option DefaultKind :=
  option_map d_kind (nc_default c).

Inductive TableViolation (schema : NormalizedSchema)
  : ValidationError -> Prop :=
| v_table_empty_name tableName t :
    In (tableName, t) (tables schema) ->
    Blank (nt_name t) ->
    TableViolation schema (err_table_empty_name tableName)
| v_table_not_snake_case tableName t :
    In (tableName, t) (tables schema) ->
    nt_name t <> EmptyString ->
    ~ SnakeCase (nt_name t) ->
    TableViolation schema (err_table_not_snake_case tableName (nt_name t))
| v_table_reserved_keyword tableName t :
    In (tableName, t) (tables schema) ->
    Reserved (nt_name t) ->
    TableViolation schema (err_table_reserved_keyword tableName (nt_name t))
| v_table_duplicate pre tableName t post tableName' t' :
    splitAt (tables schema) pre (tableName, t) post ->
    In (tableName', t') pre ->
    nt_name t <> EmptyString ->
    JS.toLowerCase (nt_name t') = JS.toLowerCase (nt_name t) ->
    TableViolation schema (err_table_duplicate tableName (nt_name t))
| v_table_no_columns tableName t :
    In (tableName, t) (tables schema) ->
    nt_columns t = [] ->
    TableViolation schema (err_table_no_columns tableName (nt_name t)).

Inductive ColumnViolation (schema : NormalizedSchema)
  : ValidationError -> Prop :=
| v_column_empty_name tableName t columnName c :
    In (tableName, t) (tables schema) ->
    In (columnName, c) (nt_columns t) ->
    Blank (nc_name c) ->
    ColumnViolation schema (err_column_empty_name tableName columnName)
| v_column_not_snake_case tableName t columnName c :
    In (tableName, t) (tables schema) ->
    In (columnName, c) (nt_columns t) ->
    nc_name c <> EmptyString ->
    ~ SnakeCase (nc_name c) ->
    ColumnViolation schema
      (err_column_not_snake_case tableName columnName (nc_name c))
| v_column_duplicate tableName t pre columnName c post columnName' c' :
    In (tableName, t) (tables schema) ->
    splitAt (nt_columns t) pre (columnName, c) post ->
    In (columnName', c') pre ->
    nc_name c <> EmptyString ->
    JS.toLowerCase (nc_name c') = JS.toLowerCase (nc_name c) ->
    ColumnViolation schema
      (err_column_duplicate tableName columnName (nc_name c) (nt_name t))
| v_column_no_type tableName t columnName c :
    In (tableName, t) (tables schema) ->
    In (columnName, c) (nt_columns t) ->
    Blank (nc_type c) ->
    ColumnViolation schema
      (err_column_no_type tableName columnName (nc_name c) (nt_name t))
| v_column_multiple_pk tableName t pre columnName c post columnName' c' :
    In (tableName, t) (tables schema) ->
    splitAt (nt_columns t) pre (columnName, c) post ->
    In (columnName', c') pre ->
    nc_primaryKey c' = true ->
    nc_primaryKey c = true ->
    ColumnViolation schema
      (err_column_multiple_pk tableName columnName (nt_name t)).

Inductive ForeignKeyViolation (schema : NormalizedSchema)
  : ValidationError -> Prop :=
| v_fk_table_not_found tableName t columnName c fk :
    In (tableName, t) (tables schema) ->
    In (columnName, c) (nt_columns t) ->
    nc_foreignKey c = Some fk ->
    Obj.get (tables schema) (fk_table fk) = None ->
    ForeignKeyViolation schema
      (err_fk_table_not_found tableName columnName (nc_name c) (nt_name t)
         (fk_table fk))
| v_fk_column_not_found tableName t columnName c fk target :
    In (tableName, t) (tables schema) ->
    In (columnName, c) (nt_columns t) ->
    nc_foreignKey c = Some fk ->
    Obj.get (tables schema) (fk_table fk) = Some target ->
    Obj.get (nt_columns target) (fk_column fk) = None ->
    ForeignKeyViolation schema
      (err_fk_column_not_found tableName columnName (nc_name c) (nt_name t)
         (fk_table fk) (fk_column fk))
| v_fk_not_primary_key tableName t columnName c fk target rc :
    In (tableName, t) (tables schema) ->
    In (columnName, c) (nt_columns t) ->
    nc_foreignKey c = Some fk ->
    Obj.get (tables schema) (fk_table fk) = Some target ->
    Obj.get (nt_columns target) (fk_column fk) = Some rc ->
    nc_primaryKey rc = false ->
    ForeignKeyViolation schema
      (err_fk_not_primary_key tableName columnName (nc_name c) (nt_name t)
         (fk_table fk) (fk_column fk))
| v_fk_type_mismatch tableName t columnName c fk target rc :
    In (tableName, t) (tables schema) ->
    In (columnName, c) (nt_columns t) ->
    nc_foreignKey c = Some fk ->
    Obj.get (tables schema) (fk_table fk) = Some target ->
    Obj.get (nt_columns target) (fk_column fk) = Some rc ->
    nc_type c <> EmptyString ->
    nc_type rc <> EmptyString ->
    nc_type c <> nc_type rc ->
    ForeignKeyViolation schema
      (err_fk_type_mismatch tableName columnName (nc_name c) (nt_name t)
         (nc_type c) (fk_table fk) (fk_column fk) (nc_type rc)).

Inductive DefaultViolation (schema : NormalizedSchema)
  : ValidationError -> Prop :=
| v_multiple_autoincrement tableName t pre columnName c post
    columnName' c' :
    In (tableName, t) (tables schema) ->
    splitAt (nt_columns t) pre (columnName, c) post ->
    In (columnName', c') pre ->
    kindOf c' = Some k_autoincrement ->
    kindOf c = Some k_autoincrement ->
    DefaultViolation schema
      (err_multiple_autoincrement tableName columnName (nt_name t))
| v_autoincrement_not_int tableName t columnName c :
    In (tableName, t) (tables schema) ->
    In (columnName, c) (nt_columns t) ->
    kindOf c = Some k_autoincrement ->
    nc_type c <> "int" ->
    DefaultViolation schema
      (err_autoincrement_not_int tableName columnName (nc_name c)
         (nt_name t) (nc_type c))
| v_autoincrement_not_pk tableName t columnName c :
    In (tableName, t) (tables schema) ->
    In (columnName, c) (nt_columns t) ->
    kindOf c = Some k_autoincrement ->
    nc_primaryKey c = false ->
    DefaultViolation schema
      (err_autoincrement_not_pk tableName columnName (nc_name c) (nt_name t))
| v_uuid_on_int tableName t columnName c :
    In (tableName, t) (tables schema) ->
    In (columnName, c) (nt_columns t) ->
    kindOf c = Some k_uuid ->
    nc_type c = "int" ->
    DefaultViolation schema
      (err_uuid_on_int tableName columnName (nc_name c) (nt_name t))
| v_now_not_timestamp tableName t columnName c :
    In (tableName, t) (tables schema) ->
    In (columnName, c) (nt_columns t) ->
    kindOf c = Some k_now ->
    nc_type c <> "timestamp" ->
    DefaultViolation schema
      (err_now_not_timestamp tableName columnName (nc_name c) (nt_name t)
         (nc_type c)).

(** A rule of one of the four groups is violated, and [e] reports it. *)
Definition Violation (schema : NormalizedSchema) (e : ValidationError)
  : Prop :=
  TableViolation schema e \/ ColumnViolation schema e
  \/ ForeignKeyViolation schema e \/ DefaultViolation schema e.

End ValidatorSpec.

(** The same four groups with every rule read word for word, as a test on
    the schema: "non-empty" is "not the empty string", the identifier
    convention allows any name that starts with a lower-case letter or an
    underscore, and the types of the two ends of a foreign key are compared
    whatever they are. *)
Module ValidatorWords.
Import SchemaValidator.













End ValidatorWords.

(* ===================================================================== *)
(** ** Normalizer and denormalizer: what is to be shown *)
(* ===================================================================== *)

Module RoundTripSpec.

(** [x] is the last element of [l] with its key. *)
Definition lastWithKey {A : Type} (key : A -> string) (l : list A) (x : A)
  : Prop :=
  exists pre post,
    l = pre ++ x :: post /\ forall y, In y post -> key y <> key x.

(** What the editor shows of a column besides its identifier *)
Definition columnView (c : Column)
  : string * string * bool * bool * bool * option Default :=
  (c_name c, c_type c, c_primaryKey c, c_nullable c, c_unique c, c_default c).

Definition findTable (tables : list Table) (id : string) : option Table :=
  List.find (fun t => String.eqb (t_id t) id) tables.

Definition findColumn (t : Table) (id : string) : option Column :=
  List.find (fun c => String.eqb (c_id c) id) (t_columns t).

(** The endpoints of a relation by identifier: (from table, from column,
    to table, to column) *)
Definition endpointIds (r : Relation) : string * string * string * string :=
  (fromTableId r, fromColumnId r, toTableId r, toColumnId r).

(** and by name; [None] when an endpoint does not resolve *)
Definition namesOfIds (tables : list Table)
  (ids : string * string * string * string)
  : option (string * string * string * string) :=
  let '(fromT, fromC, toT, toC) := ids in
  match findTable tables fromT, findTable tables toT with
  | Some source, Some target =>
      match findColumn source fromC, findColumn target toC with
      | Some sc, Some tc =>
          Some (t_name source, c_name sc, t_name target, c_name tc)
      | _, _ => None
      end
  | _, _ => None
  end.

Definition endpointNames (tables : list Table) (r : Relation)
  : option (string * string * string * string) :=
  namesOfIds tables (endpointIds r).

Definition edges (tables : list Table) (relations : list Relation)
  : list (string * string * string * string) :=
  flat_map
    (fun r => match endpointNames tables r with
              | Some q => [q]
              | None => []
              end)
    relations.


(** An editor graph as the editor keeps it *)
Record wf_graph (tables : list Table) (relations : list Relation) : Prop :=
  mk_wf_graph {
  wf_table_ids : NoDup (map t_id tables);
  wf_table_ids_plain :
    forall t, In t tables -> JS.has_char ":"%char (t_id t) = false;
  wf_column_ids : forall t, In t tables -> NoDup (map c_id (t_columns t));
  wf_table_names : NoDup (map t_name tables);
  wf_table_names_nonempty : forall t, In t tables -> t_name t <> EmptyString;
  wf_column_names :
    forall t, In t tables -> NoDup (map c_name (t_columns t));
  wf_no_orphans :
    forall r, In r relations -> endpointNames tables r <> None;
  wf_targets :
    NoDup (map (fun r => (toTableId r, toColumnId r)) relations)
}.

(** The identifiers drawn in one run are distinct and not empty. *)
Definition fresh_ids (randomUUID : nat -> string) : Prop :=
  (forall n m, randomUUID n = randomUUID m -> n = m)
  /\ (forall n, randomUUID n <> EmptyString).


(** What a canonical column shows besides its foreign key *)
Definition normalizedView (c : NormalizedColumn)
  : string * string * bool * bool * bool * option Default :=
  (nc_name c, nc_type c, nc_primaryKey c, nc_nullable c, nc_unique c,
   nc_default c).

(** All identifiers of a list of tables, in the order they were drawn *)
Definition allIds (tables : list Table) : list string :=
  flat_map (fun t => t_id t :: map c_id (t_columns t)) tables.

(** Table [t'] was built by step 1 of the denormalizer from the entry [e],
    and [tableMap] records its identifiers. *)
Definition builtFrom (tableMap : gmap string (string * gmap string string))
  (e : string * NormalizedTable) (t' : Table) : Prop :=
  t_name t' = nt_name (snd e)
  /\ Forall2 (fun ce c' => columnView c' = normalizedView (snd ce))
       (nt_columns (snd e)) (t_columns t')
  /\ exists columnMap,
       tableMap !! fst e = Some (t_id t', columnMap)
       /\ (forall k, ~ In k (Obj.keys (nt_columns (snd e))) ->
                     columnMap !! k = None)
       /\ (NoDup (Obj.keys (nt_columns (snd e))) ->
           Forall2 (fun ce c' => columnMap !! fst ce = Some (c_id c'))
             (nt_columns (snd e)) (t_columns t')).

(** Every table and column is stored under its own name. *)
Definition keyed_by_name (schema : NormalizedSchema) : Prop :=
  forall tableName t,
    In (tableName, t) (tables schema) ->
    nt_name t = tableName
    /\ forall columnName c,
         In (columnName, c) (nt_columns t) -> nc_name c = columnName.

End RoundTripSpec.

(* ===================================================================== *)
(** ** Generation guard: what is to be shown *)
(* ===================================================================== *)

Module GuardSpec.
Import GeneratorValidation.

(** [Broken schema line]: some column of the schema breaks one of the three
    foreign-key rules, and [line] is the report of that breach.  The third
    rule (the target column exists and is a primary key) has one report
    for a missing column and one for a column that is not a key. *)
Inductive Broken (schema : NormalizedSchema) : string -> Prop :=
| broken_fk_on_primary_key tableName t columnName c fk :
    In (tableName, t) (tables schema) ->
    In (columnName, c) (nt_columns t) ->
    nc_foreignKey c = Some fk ->
    nc_primaryKey c = true ->
    Broken schema (msg_fk_on_pk tableName columnName)
| broken_target_table_missing tableName t columnName c fk :
    In (tableName, t) (tables schema) ->
    In (columnName, c) (nt_columns t) ->
    nc_foreignKey c = Some fk ->
    Obj.get (tables schema) (fk_table fk) = None ->
    Broken schema (msg_no_table tableName columnName (fk_table fk))
| broken_target_column_missing tableName t columnName c fk target :
    In (tableName, t) (tables schema) ->
    In (columnName, c) (nt_columns t) ->
    nc_foreignKey c = Some fk ->
    Obj.get (tables schema) (fk_table fk) = Some target ->
    Obj.get (nt_columns target) (fk_column fk) = None ->
    Broken schema
      (msg_no_column tableName columnName (fk_table fk) (fk_column fk))
| broken_target_not_primary_key tableName t columnName c fk target rc :
    In (tableName, t) (tables schema) ->
    In (columnName, c) (nt_columns t) ->
    nc_foreignKey c = Some fk ->
    Obj.get (tables schema) (fk_table fk) = Some target ->
    Obj.get (nt_columns target) (fk_column fk) = Some rc ->
    nc_primaryKey rc = false ->
    Broken schema
      (msg_not_pk tableName columnName (fk_table fk) (fk_column fk)).


End GuardSpec.

(* ===================================================================== *)
(** ** Table order: what is to be shown *)
(* ===================================================================== *)

Module OrderSpec.
Import SqlCommon.

Definition keySet (schema : NormalizedSchema) : gset string :=
  list_to_set (Obj.keys (tables schema)).




(** The edges that [visit] follows: entries of the [dependencies] map that
    name an existing table *)
Definition follows (schema : NormalizedSchema)
  (dependencies : gmap string (list string)) (a b : string) : Prop :=
  In b (default [] (dependencies !! a)) /\ b ∈ keySet schema.

(** A list built by appending each element after everything it points to *)
Inductive Topo (R : string -> string -> Prop) : list string -> Prop :=
| Topo_nil : Topo R []
| Topo_snoc (l : list string) (a : string) :
    Topo R l -> (forall b, R a b -> In b l) -> Topo R (l ++ [a]).

(** What holds of the three variables between any two steps of the search *)
Record Inv (schema : NormalizedSchema) (st : VisitState) : Prop := mkInv {
  inv_nodup : NoDup (ordered st);
  inv_visited : forall x, x ∈ visited st <-> In x (ordered st);
  inv_keys : forall x, x ∈ visited st -> x ∈ keySet schema;
  inv_disjoint : forall x, x ∈ visiting st -> x ∉ visited st
}.

End OrderSpec.

(* ===================================================================== *)
(** ** Concrete schemas used in examples *)
(* ===================================================================== *)

Module Examples.


(** Scenario A.  The flags that the scenario leaves open are parameters. *)
Definition users (idNullable idUnique emailNullable : bool)
  : NormalizedTable :=
  mkNormalizedTable "users"
    [("id", mkNormalizedColumn "id" "uuid" true idNullable idUnique None
              (Some (mkDefault k_uuid None)));
     ("email", mkNormalizedColumn "email" "varchar" false emailNullable true
                 None None)].

Definition posts (idNullable idUnique fkNullable fkUnique
                  titleNullable titleUnique : bool) : NormalizedTable :=
  mkNormalizedTable "posts"
    [("id", mkNormalizedColumn "id" "int" true idNullable idUnique None
              (Some (mkDefault k_autoincrement None)));
     ("user_id", mkNormalizedColumn "user_id" "int" false fkNullable fkUnique
                   (Some (mkForeignKey "users" "id")) None);
     ("title", mkNormalizedColumn "title" "varchar" false titleNullable
                 titleUnique None None)].

(** [postsFirst] chooses the enumeration order of the two tables. *)
Definition scenarioA (postsFirst : bool) (u : NormalizedTable)
  (p : NormalizedTable) : NormalizedSchema :=
  mkNormalizedSchema
    (if postsFirst then [("posts", p); ("users", u)]
     else [("users", u); ("posts", p)]).

(** A table whose primary key spans two columns *)
Definition order_lines : NormalizedTable :=
  mkNormalizedTable "order_lines"
    [("order_id", mkNormalizedColumn "order_id" "int" true false false
                    None None);
     ("line_no", mkNormalizedColumn "line_no" "int" true false false
                   None None);
     ("note", mkNormalizedColumn "note" "text" false true false None None)].

(** Two tables that reference each other *)
Definition cyclic : NormalizedSchema :=
  mkNormalizedSchema
    [("a", mkNormalizedTable "a"
             [("id", mkNormalizedColumn "id" "int" true false false None None);
              ("b_id", mkNormalizedColumn "b_id" "int" false false false
                         (Some (mkForeignKey "b" "id")) None)]);
     ("b", mkNormalizedTable "b"
             [("id", mkNormalizedColumn "id" "int" true false false None None);
              ("a_id", mkNormalizedColumn "a_id" "int" false false false
                         (Some (mkForeignKey "a" "id")) None)])].



(** Two relations into the same column *)
Definition twoSources : list Table * list Relation :=
  ([mkTable "t1" "users"
      [mkColumn "c1" "id" "int" true false false None];
    mkTable "t2" "accounts"
      [mkColumn "c2" "id" "int" true false false None];
    mkTable "t3" "posts"
      [mkColumn "c3" "owner_id" "int" false false false None]],
   [mkRelation "r1" "t1" "c1" "t3" "c3";
    mkRelation "r2" "t2" "c2" "t3" "c3"]).




(** A well-formed graph *)
Definition blog : list Table * list Relation :=
  ([mkTable "t1" "users"
      [mkColumn "c1" "id" "int" true false false None;
       mkColumn "c2" "email" "varchar" false false true None];
    mkTable "t2" "posts"
      [mkColumn "c3" "id" "int" true false false
         (Some (mkDefault k_autoincrement None));
       mkColumn "c4" "user_id" "int" false false false None]],
   [mkRelation "r1" "t1" "c1" "t2" "c4"]).

(** An identifier supply: [u], [uu], [uuu], ... *)
Fixpoint idOf (n : nat) : string :=
  match n with
  | O => "u"
  | S k => String "u"%char (idOf k)
  end.






End Examples.

(* ===================================================================== *)
(** ** Editor store (store/schemaStore.ts) *)
(* ===================================================================== *)

Module SchemaStore.

(** The data of the store; the functions below are its actions, each the
    state that [set] leaves. *)
Record State : Type := mkState {
  s_tables : list Table;
  s_relations : list Relation;
  s_isNormalized : bool
}.

Definition initial : State := mkState [] [] false.

(** [Partial<Column>]: a key that is present is a [Some].  The key
    [default] may be present with the value [undefined]. *)
Record ColumnData : Type := mkColumnData {
  cd_id : option string;
  cd_name : option string;
  cd_type : option string;
  cd_primaryKey : option bool;
  cd_nullable : option bool;
  cd_unique : option bool;
  cd_default : option (option Default)
}.

(** [Partial<Omit<Relation, 'id'>>] *)
Record RelationData : Type := mkRelationData {
  rd_fromTableId : option string;
  rd_fromColumnId : option string;
  rd_toTableId : option string;
  rd_toColumnId : option string
}.

(** [{ ...column, ...data }] *)
Definition spreadColumn (column : Column) (data : ColumnData) : Column :=
  mkColumn
    (default (c_id column) (cd_id data))
    (default (c_name column) (cd_name data))
    (default (c_type column) (cd_type data))
    (default (c_primaryKey column) (cd_primaryKey data))
    (default (c_nullable column) (cd_nullable data))
    (default (c_unique column) (cd_unique data))
    (default (c_default column) (cd_default data)).

(** [{ ...rel, ...updates }] *)
Definition spreadRelation (rel : Relation) (updates : RelationData)
  : Relation :=
  mkRelation (r_id rel)
    (default (fromTableId rel) (rd_fromTableId updates))
    (default (fromColumnId rel) (rd_fromColumnId updates))
    (default (toTableId rel) (rd_toTableId updates))
    (default (toColumnId rel) (rd_toColumnId updates)).

(** [id] is the identifier that [crypto.randomUUID()] returns. *)
Definition addTable (id : string) (state : State) : State :=
  let newTable := mkTable id "new_table" [] in
  mkState (s_tables state ++ [newTable]) (s_relations state) false.

Definition updateTableName (id name : string) (state : State) : State :=
  mkState
    (map (fun table =>
            if String.eqb (t_id table) id
            then mkTable (t_id table) name (t_columns table)
            else table)
       (s_tables state))
    (s_relations state) false.

Definition deleteTable (id : string) (state : State) : State :=
  mkState
    (List.filter (fun table => negb (String.eqb (t_id table) id))
       (s_tables state))
    (List.filter
       (fun rel =>
          (negb (String.eqb (fromTableId rel) id)
           && negb (String.eqb (toTableId rel) id))%bool)
       (s_relations state))
    false.

Definition addColumn (id : string) (tableId : string) (state : State)
  : State :=
  let newColumn :=
    mkColumn id "column_name" "varchar" false false false None in
  mkState
    (map (fun table =>
            if String.eqb (t_id table) tableId
            then mkTable (t_id table) (t_name table)
                   (t_columns table ++ [newColumn])
            else table)
       (s_tables state))
    (s_relations state) false.

Definition updateColumn (tableId columnId : string) (data : ColumnData)
  (state : State) : State :=
  mkState
    (map (fun table =>
            if String.eqb (t_id table) tableId
            then mkTable (t_id table) (t_name table)
                   (map (fun column =>
                           if String.eqb (c_id column) columnId
                           then spreadColumn column data
                           else column)
                      (t_columns table))
            else table)
       (s_tables state))
    (s_relations state) false.

Definition deleteColumn (tableId columnId : string) (state : State)
  : State :=
  mkState
    (map (fun table =>
            if String.eqb (t_id table) tableId
            then mkTable (t_id table) (t_name table)
                   (List.filter
                      (fun column => negb (String.eqb (c_id column) columnId))
                      (t_columns table))
            else table)
       (s_tables state))
    (List.filter
       (fun rel =>
          (negb (String.eqb (fromTableId rel) tableId
                 && String.eqb (fromColumnId rel) columnId)
           && negb (String.eqb (toTableId rel) tableId
                    && String.eqb (toColumnId rel) columnId))%bool)
       (s_relations state))
    false.

(** [relation] is the argument without its [id] field. *)
Definition addRelation (id : string)
  (relation : string * string * string * string) (state : State) : State :=
  let '(fromT, fromC, toT, toC) := relation in
  let newRelation := mkRelation id fromT fromC toT toC in
  mkState (s_tables state) (s_relations state ++ [newRelation]) false.

Definition updateRelation (relationId : string) (updates : RelationData)
  (state : State) : State :=
  mkState (s_tables state)
    (map (fun rel =>
            if String.eqb (r_id rel) relationId
            then spreadRelation rel updates else rel)
       (s_relations state))
    false.

Definition removeRelation (relationId : string) (state : State) : State :=
  mkState (s_tables state)
    (List.filter (fun rel => negb (String.eqb (r_id rel) relationId))
       (s_relations state))
    false.

Definition getNormalizedSchema (state : State) : NormalizedSchema :=
  SchemaNormalizer.normalizeSchema (s_tables state) (s_relations state).

Definition loadSchema (tables : list Table) (relations : list Relation)
  (state : State) : State :=
  mkState tables relations false.

Definition setNormalized (value : bool) (state : State) : State :=
  mkState (s_tables state) (s_relations state) value.

End SchemaStore.

(** What the actions of the store are shown to keep *)
Module StoreSpec.
Import SchemaStore RoundTripSpec.

(** Both ends of every relation are columns of tables of the store. *)
Definition resolved (state : State) : Prop :=
  forall r, In r (s_relations state) ->
            endpointNames (s_tables state) r <> None.

(** Tables have identifiers of their own, and so have the columns of a
    table. *)
Definition distinct_ids (state : State) : Prop :=
  NoDup (map t_id (s_tables state))
  /\ forall t, In t (s_tables state) -> NoDup (map c_id (t_columns t)).

(** No table has the identifier and no relation mentions it. *)
Definition unused_table_id (id : string) (state : State) : Prop :=
  (forall t, In t (s_tables state) -> t_id t <> id)
  /\ forall r, In r (s_relations state) ->
               fromTableId r <> id /\ toTableId r <> id.

(** No column of a table [tableId] has the identifier and no relation
    mentions that column. *)
Definition unused_column_id (tableId id : string) (state : State) : Prop :=
  (forall t c, In t (s_tables state) -> t_id t = tableId ->
               In c (t_columns t) -> c_id c <> id)
  /\ forall r, In r (s_relations state) ->
               ~ (fromTableId r = tableId /\ fromColumnId r = id)
               /\ ~ (toTableId r = tableId /\ toColumnId r = id).

End StoreSpec.

Module StoreExamples.
Import SchemaStore.

(** The store holding the blog graph, checked *)
Definition blogState : State :=
  mkState (fst Examples.blog) (snd Examples.blog) true.

(** An update of the name only *)
Definition rename (name : string) : ColumnData :=
  mkColumnData None (Some name) None None None None None.

End StoreExamples.

(* ===================================================================== *)
(** ** How the stages fit together: what is to be shown *)
(* ===================================================================== *)

Module PipelineSpec.

(** No primary-key column carries a foreign key. *)
Definition keys_apart (schema : NormalizedSchema) : Prop :=
  forall tableName t columnName c,
    In (tableName, t) (tables schema) ->
    In (columnName, c) (nt_columns t) ->
    nc_primaryKey c = true -> nc_foreignKey c = None.


(** The canonical schema of the blog graph *)
Definition blogSchema : NormalizedSchema :=
  SchemaNormalizer.normalizeSchema (fst Examples.blog) (snd Examples.blog).

End PipelineSpec.

(* ===================================================================== *)
(** ** Column row of the editor (components/ColumnRow.tsx) *)
(* ===================================================================== *)

Module ColumnRow.
Import SchemaStore.

Definition DATATYPES : list string :=
  ["int"; "varchar"; "text"; "boolean"; "timestamp"; "uuid"].

(** [column.default?.kind === kind] *)
Definition kindIs (kind : DefaultKind) (column : Column) : bool :=
  match c_default column with
  | Some d => DefaultKind_eqb (d_kind d) kind
  | None => false
  end.

(** [Partial<Column>] with no key *)
Definition noData : ColumnData :=
  mkColumnData None None None None None None None.

(** The fields that [handleToggle] takes *)
Inductive Toggle : Type := primaryKey | nullable | unique.

Section Row.
(** The props and the store as the row is rendered *)
Variable tables : list Table.
Variable tableId : string.
Variable column : Column.

Definition otherColumns : list Column :=
  match List.find (fun t => String.eqb (t_id t) tableId) tables with
  | Some currentTable =>
      List.filter (fun c => negb (String.eqb (c_id c) (c_id column)))
        (t_columns currentTable)
  | None => []
  end.

Definition hasOtherAutoincrement : bool :=
  existsb (kindIs k_autoincrement) otherColumns.

Definition canUseAutoincrement : bool :=
  (String.eqb (c_type column) "int" && c_primaryKey column
   && negb hasOtherAutoincrement)%bool.

Definition canUseUUID : bool :=
  ((String.eqb (c_type column) "uuid"
    || String.eqb (c_type column) "varchar")
   && c_primaryKey column)%bool.

Definition canUseNow : bool := String.eqb (c_type column) "timestamp".

Definition hasAutoincrement : bool := kindIs k_autoincrement column.
Definition hasUUID : bool := kindIs k_uuid column.
Definition hasNow : bool := kindIs k_now column.
Definition hasCustom : bool := kindIs k_value column.

(** The [updates] that each handler passes to [updateColumn] *)
Definition nameChangeUpdates (value : string) : ColumnData :=
  mkColumnData None (Some value) None None None None None.

Definition typeChangeUpdates (newType : string) : ColumnData :=
  let cleared :=
    match c_default column with
    | Some d =>
        if (negb (String.eqb newType "int")
            && DefaultKind_eqb (d_kind d) k_autoincrement)%bool then true
        else if (negb (String.eqb newType "timestamp")
                 && DefaultKind_eqb (d_kind d) k_now)%bool then true
        else if (negb (String.eqb newType "uuid")
                 && negb (String.eqb newType "varchar")
                 && DefaultKind_eqb (d_kind d) k_uuid)%bool then true
        else false
    | None => false
    end in
  mkColumnData None None (Some newType) None None None
    (if cleared then Some None else None).

Definition toggleUpdates (field : Toggle) : ColumnData :=
  let cleared :=
    match field, c_default column with
    | primaryKey, Some d =>
        (c_primaryKey column
         && (DefaultKind_eqb (d_kind d) k_autoincrement
             || DefaultKind_eqb (d_kind d) k_uuid))%bool
    | _, _ => false
    end in
  let defaultKey := if cleared then Some None else None in
  match field with
  | primaryKey =>
      mkColumnData None None None (Some (negb (c_primaryKey column)))
        None None defaultKey
  | nullable =>
      mkColumnData None None None None (Some (negb (c_nullable column)))
        None defaultKey
  | unique =>
      mkColumnData None None None None None
        (Some (negb (c_unique column))) defaultKey
  end.

(** [kind] is [None] for [null]; [value || ''] is the value, or the empty
    string when there is none. *)
Definition defaultChangeUpdates (kind : option DefaultKind)
  (value : option string) : ColumnData :=
  match kind with
  | None => mkColumnData None None None None None None (Some None)
  | Some k_value =>
      mkColumnData None None None None None None
        (Some (Some (mkDefault k_value
                       (Some (match value with
                              | Some v => v
                              | None => EmptyString
                              end)))))
  | Some k =>
      mkColumnData None None None None None None
        (Some (Some (mkDefault k None)))
  end.

Definition handleNameChange (value : string) : State -> State :=
  updateColumn tableId (c_id column) (nameChangeUpdates value).

Definition handleTypeChange (newType : string) : State -> State :=
  updateColumn tableId (c_id column) (typeChangeUpdates newType).

Definition handleToggle (field : Toggle) : State -> State :=
  updateColumn tableId (c_id column) (toggleUpdates field).

Definition handleDefaultChange (kind : option DefaultKind)
  (value : option string) : State -> State :=
  updateColumn tableId (c_id column) (defaultChangeUpdates kind value).

Definition handleDelete : State -> State :=
  deleteColumn tableId (c_id column).

(** The controls of the advanced panel: the updates that [onChange]
    passes on when the control is used with the given value, and [None]
    for a control that is disabled *)
Definition autoincrementBox (checked : bool) : option ColumnData :=
  if (negb canUseAutoincrement || hasUUID)%bool then None
  else Some (defaultChangeUpdates
               (if checked then Some k_autoincrement else None) None).

Definition uuidBox (checked : bool) : option ColumnData :=
  if (negb canUseUUID || hasAutoincrement)%bool then None
  else Some (defaultChangeUpdates
               (if checked then Some k_uuid else None) None).

Definition nowBox (checked : bool) : option ColumnData :=
  if negb canUseNow then None
  else Some (defaultChangeUpdates
               (if checked then Some k_now else None) None).

Definition customInput (value : string) : option ColumnData :=
  Some (if JS.truthy (JS.trim value)
        then defaultChangeUpdates (Some k_value) (Some value)
        else defaultChangeUpdates None None).

Definition clearCustom : option ColumnData :=
  if hasCustom then Some (defaultChangeUpdates None None) else None.

End Row.

End ColumnRow.

(* ===================================================================== *)
(** ** Export panel (ExportPanel, in components/ColumnRow.tsx) *)
(* ===================================================================== *)

Module ExportPanel.
Import SchemaStore.

Inductive ExportType : Type := sql | prisma.

(** What [copyToClipboard] does before it touches the clipboard: it
    shows one of two toasts and returns, or it calls a generator, whose
    exception, if any, leaves [copyToClipboard]. *)
Inductive Attempt : Type :=
| NormalizeFirst
| FixErrors (description : string)
| Output (text : outcome string).

Definition canExport (state : State) : bool :=
  if negb (s_isNormalized state) then false
  else
    let normalized :=
      SchemaNormalizer.normalizeSchema (s_tables state) (s_relations state) in
    let validation := SchemaValidator.validateSchema normalized in
    SchemaValidator.valid validation.

Definition copyToClipboard (type : ExportType) (state : State) : Attempt :=
  if negb (s_isNormalized state) then NormalizeFirst
  else
    let normalized :=
      SchemaNormalizer.normalizeSchema (s_tables state) (s_relations state) in
    let validation := SchemaValidator.validateSchema normalized in
    if negb (SchemaValidator.valid validation)
    then
      FixErrors
        (match SchemaValidator.errors validation with
         | firstError :: _ =>
             if JS.truthy (SchemaValidator.message firstError)
             then SchemaValidator.message firstError
             else "Please fix validation errors first."
         | [] => "Please fix validation errors first."
         end)
    else
      Output
        (match type with
         | sql => PostgresGenerator.generatePostgresSQL normalized
         | prisma => PrismaGenerator.generatePrismaSchema normalized
         end).

End ExportPanel.

(** What the column rows are shown to keep *)
Module RowSpec.
Import SchemaStore.

(** The default of the column fits its type and its primary-key flag, as
    the row offers it. *)
Definition compatible (c : Column) : Prop :=
  match c_default c with
  | Some d =>
      match d_kind d with
      | k_autoincrement => c_type c = "int" /\ c_primaryKey c = true
      | k_uuid =>
          (c_type c = "uuid" \/ c_type c = "varchar")
          /\ c_primaryKey c = true
      | k_now => c_type c = "timestamp"
      | k_value => True
      end
  | None => True
  end.

Definition all_compatible (state : State) : Prop :=
  forall t c, In t (s_tables state) -> In c (t_columns t) -> compatible c.

(** No table has two auto-increment columns. *)
Definition single_autoincrement (state : State) : Prop :=
  forall t c c',
    In t (s_tables state) -> In c (t_columns t) -> In c' (t_columns t) ->
    ColumnRow.kindIs k_autoincrement c = true ->
    ColumnRow.kindIs k_autoincrement c' = true ->
    c_id c = c_id c'.

(** What the editor keeps of its store between two events *)
Definition editor_invariant (state : State) : Prop :=
  StoreSpec.distinct_ids state /\ all_compatible state
  /\ single_autoincrement state.

(** The row of [column] in table [tableId], rendered from [state] *)
Definition rendered (state : State) (tableId : string) (column : Column)
  : Prop :=
  exists t, In t (s_tables state) /\ t_id t = tableId
            /\ In column (t_columns t).

(** The updates that the row of [column] can pass to [updateColumn] *)
Inductive row_updates (tables : list Table) (tableId : string)
  (column : Column) : ColumnData -> Prop :=
| ru_name value :
    row_updates tables tableId column (ColumnRow.nameChangeUpdates value)
| ru_type newType :
    row_updates tables tableId column
      (ColumnRow.typeChangeUpdates column newType)
| ru_toggle field :
    row_updates tables tableId column (ColumnRow.toggleUpdates column field)
| ru_autoincrement checked data :
    ColumnRow.autoincrementBox tables tableId column checked = Some data ->
    row_updates tables tableId column data
| ru_uuid checked data :
    ColumnRow.uuidBox column checked = Some data ->
    row_updates tables tableId column data
| ru_now checked data :
    ColumnRow.nowBox column checked = Some data ->
    row_updates tables tableId column data
| ru_custom value data :
    ColumnRow.customInput value = Some data ->
    row_updates tables tableId column data
| ru_clear data :
    ColumnRow.clearCustom column = Some data ->
    row_updates tables tableId column data.

(** One event of the editor: a button of the canvas, of a table or of a
    column row, a relation drawn, changed or removed, a check of the
    schema, a new project.  An identifier drawn for a table or a column is
    one that is not in use there.  Loading a saved project is not among
    them. *)
Inductive event (state : State) : State -> Prop :=
| ev_addTable id :
    (forall t, In t (s_tables state) -> t_id t <> id) ->
    event state (addTable id state)
| ev_updateTableName id name :
    event state (updateTableName id name state)
| ev_deleteTable id :
    event state (deleteTable id state)
| ev_addColumn id tableId :
    (forall t c, In t (s_tables state) -> t_id t = tableId ->
                 In c (t_columns t) -> c_id c <> id) ->
    event state (addColumn id tableId state)
| ev_row tableId column data :
    rendered state tableId column ->
    row_updates (s_tables state) tableId column data ->
    event state (updateColumn tableId (c_id column) data state)
| ev_deleteColumn tableId column :
    event state (ColumnRow.handleDelete tableId column state)
| ev_addRelation id relation :
    event state (addRelation id relation state)
| ev_updateRelation relationId updates :
    event state (updateRelation relationId updates state)
| ev_removeRelation relationId :
    event state (removeRelation relationId state)
| ev_setNormalized value :
    event state (setNormalized value state)
| ev_newProject :
    event state (loadSchema [] [] state).

(** The states that the editor reaches from the empty store *)
Inductive reachable : State -> Prop :=
| reach_initial : reachable initial
| reach_event state state' :
    reachable state -> event state state' -> reachable state'.

End RowSpec.

Module RowExamples.
Import SchemaStore.

(** The column that [addColumn] makes *)
Definition freshColumn : Column :=
  mkColumn "c" "column_name" "varchar" false false false None.

(** One table with one column, as two clicks leave the empty store *)
Definition oneColumn : State := addColumn "c" "t" (addTable "t" initial).

(** and after its column was made the primary key *)
Definition keyed : State :=
  ColumnRow.handleToggle "t" freshColumn ColumnRow.primaryKey oneColumn.

(** Two tables, the key of the first related to the key of the second,
    checked *)
Definition keyToKey : State :=
  mkState
    [mkTable "t1" "users"
       [mkColumn "c1" "id" "int" true false false None];
     mkTable "t2" "profiles"
       [mkColumn "c2" "id" "int" true false false None]]
    [mkRelation "r1" "t1" "c1" "t2" "c2"]
    true.

End RowExamples.

(* ===================================================================== *)
(** ** The generated SQL: what is to be shown *)
(* ===================================================================== *)

Module SqlSpec.
Import SqlCommon.

(** The body of a string literal of standard SQL, read up to the quote
    that closes it: two quotes in a row stand for one quote of the value,
    a quote on its own closes the literal.  The result is the value and
    the text that follows the literal; there is none if the literal is
    not closed. *)
Fixpoint readBody (s : string) : option (string * string) :=
  match s with
  | EmptyString => None
  | String a r =>
      if Ascii.eqb a "039"%char
      then match r with
           | String b r' =>
               if Ascii.eqb b "039"%char
               then match readBody r' with
                    | Some (v, rest) => Some (String "039"%char v, rest)
                    | None => None
                    end
               else Some (EmptyString, r)
           | EmptyString => Some (EmptyString, EmptyString)
           end
      else match readBody r with
           | Some (v, rest) => Some (String a v, rest)
           | None => None
           end
  end.

(** A string literal at the head of [s] *)
Definition readLiteral (s : string) : option (string * string) :=
  match s with
  | String a r => if Ascii.eqb a "039"%char then readBody r else None
  | EmptyString => None
  end.

(** No table has more than one primary-key column. *)
Definition single_keys (schema : NormalizedSchema) : Prop :=
  forall tableName t,
    In (tableName, t) (tables schema) ->
    length (PostgresGenerator.pkColumnsOf t) <= 1.

(** The clause that [generateTableSQL] writes for a foreign key *)
Definition referenceClause (column : NormalizedColumn) (fk : ForeignKey)
  : string :=
  "FOREIGN KEY (" +:+ nc_name column +:+ ") REFERENCES "
  +:+ fk_table fk +:+ "(" +:+ fk_column fk +:+ ")".

(** The first line of the statement of a table *)
Definition createLine (t : NormalizedTable) : string :=
  "CREATE TABLE " +:+ nt_name t +:+ " (".

(** The table [posts] of the blog schema, and the SQL of that schema *)
Definition blogPosts : NormalizedTable :=
  Eval vm_compute in
    match Obj.get (tables PipelineSpec.blogSchema) "posts" with
    | Some t => t
    | None => mkNormalizedTable EmptyString []
    end.

Definition blogSql : string :=
  Eval vm_compute in
    match PostgresGenerator.generatePostgresSQL PipelineSpec.blogSchema with
    | Returned text => text
    | _ => EmptyString
    end.

End SqlSpec.

(* ===================================================================== *)
(** ** Back relations of the Prisma models: what is to be shown *)
(* ===================================================================== *)

Module RelationMapSpec.

(** Table [source] has a column whose foreign key names table [target]. *)
Definition referencing (schema : NormalizedSchema) (target source : string)
  : Prop :=
  exists table column fk,
    In (source, table) (tables schema)
    /\ In column (Obj.values (nt_columns table))
    /\ nc_foreignKey column = Some fk
    /\ fk_table fk = target.

(** The foreign keys of a schema in the order [buildRelationMap] meets
    them: (referencing table, referenced table) *)
Definition referencesOf (schema : NormalizedSchema)
  : list (string * string) :=
  flat_map
    (fun '(tableName, table) =>
       flat_map
         (fun column =>
            match nc_foreignKey column with
            | Some fk => [(tableName, fk_table fk)]
            | None => []
            end)
         (Obj.values (nt_columns table)))
    (tables schema).

(** The Prisma text of the blog schema *)
Definition blogPrisma : string :=
  Eval vm_compute in
    match PrismaGenerator.generatePrismaSchema PipelineSpec.blogSchema with
    | Returned text => text
    | _ => EmptyString
    end.

End RelationMapSpec.

(* ===================================================================== *)
(** ** Editor page (app/editor/page.tsx) *)
(* ===================================================================== *)

Module Editor.
Import SchemaStore.

(** [s.split(sep)] for a separator of two characters *)
Fixpoint split2 (c1 c2 : ascii) (s : string) : list string :=
  match s with
  | EmptyString => [EmptyString]
  | String a r =>
      match r with
      | String b r' =>
          if (Ascii.eqb a c1 && Ascii.eqb b c2)%bool
          then EmptyString :: split2 c1 c2 r'
          else match split2 c1 c2 r with
               | w :: ws => String a w :: ws
               | [] => [String a EmptyString]
               end
      | EmptyString => [String a EmptyString]
      end
  end.

(** [handleId] of a column row (ColumnRow): the identifier of its two
    connection handles *)
Definition handleId (tableId : string) (column : Column) : string :=
  tableId +:+ "::" +:+ c_id column.

(** The [value] of the option that the relation panel offers for a
    column *)
Definition optionValue (table : Table) (column : Column) : string :=
  t_id table +:+ ":: " +:+ c_id column.

(** The two handles of a [Connection]; each is a string or [null]. *)
Record Connection : Type := mkConnection {
  sourceHandle : option string;
  targetHandle : option string
}.

(** [!handle] *)
Definition missing (handle : option string) : bool :=
  match handle with
  | Some h => negb (JS.truthy h)
  | None => true
  end.

(** [const [tableId, columnId] = handle.split('::')]: an element that the
    array does not have is [undefined]. *)
Definition destructure (handle : string) : option string * option string :=
  let parts := split2 ":"%char ":"%char handle in
  (nth_error parts 0, nth_error parts 1).

(** [x.id === id] for an [id] that may be [undefined] *)
Definition is_id (id : option string) (x : string) : bool :=
  match id with
  | Some i => String.eqb x i
  | None => false
  end.

Definition isValidConnection (tables : list Table) (connection : Connection)
  : bool :=
  if (missing (sourceHandle connection)
      || missing (targetHandle connection))%bool
  then false
  else
    let '(sourceTableId, sourceColumnId) :=
      destructure (default EmptyString (sourceHandle connection)) in
    let sourceTable :=
      List.find (fun t => is_id sourceTableId (t_id t)) tables in
    let sourceColumn :=
      match sourceTable with
      | Some t => List.find (fun c => is_id sourceColumnId (c_id c))
                    (t_columns t)
      | None => None
      end in
    match sourceColumn with
    | Some c => c_primaryKey c
    | None => false
    end.

(** [handleConnect]: the store it leaves and the title of the toast it
    shows.  [id] is the identifier drawn for the relation.  There is no
    result when a relation with an [undefined] end would be stored, which
    the type of the store leaves no room for; the handles of the column
    rows never lead there. *)
Definition handleConnect (id : string) (connection : Connection)
  (state : State) : option (State * string) :=
  if (missing (sourceHandle connection)
      || missing (targetHandle connection))%bool
  then Some (state, "Invalid connection: missing handles")
  else
    let '(sourceTableId, sourceColumnId) :=
      destructure (default EmptyString (sourceHandle connection)) in
    let '(targetTableId, targetColumnId) :=
      destructure (default EmptyString (targetHandle connection)) in
    match List.find (fun t => is_id sourceTableId (t_id t)) (s_tables state)
    with
    | None => Some (state, "Source table not found")
    | Some sourceTable =>
        match List.find (fun c => is_id sourceColumnId (c_id c))
                (t_columns sourceTable) with
        | None => Some (state, "Source column not found")
        | Some sourceColumn =>
            if negb (c_primaryKey sourceColumn)
            then Some (state,
                       "Connection rejected: Source column must be a Primary Key")
            else
              match sourceTableId, sourceColumnId,
                    targetTableId, targetColumnId with
              | Some fromT, Some fromC, Some toT, Some toC =>
                  Some (addRelation id (fromT, fromC, toT, toC) state,
                        "Relationship created successfully")
              | _, _, _, _ => None
              end
        end
    end.

(** [handleUpdateTargetColumn], for the edge that is selected, if any; no
    result in the same case as above *)
Definition handleUpdateTargetColumn (selectedEdgeId : option string)
  (newTargetColumnId : string) (state : State) : option State :=
  if missing selectedEdgeId then Some state
  else
    let edgeId := default EmptyString selectedEdgeId in
    match List.find (fun r => String.eqb (r_id r) edgeId) (s_relations state)
    with
    | None => Some state
    | Some _ =>
        let '(targetTableId, targetColumnId) :=
          destructure newTargetColumnId in
        match targetTableId, targetColumnId with
        | Some toT, Some toC =>
            Some (updateRelation edgeId
                    (mkRelationData None None (Some toT) (Some toC)) state)
        | _, _ => None
        end
    end.

Definition handleDeleteSelectedEdge (selectedEdgeId : option string)
  (state : State) : State :=
  if missing selectedEdgeId then state
  else removeRelation (default EmptyString selectedEdgeId) state.

(** [handleEdgesDelete], given the identifiers of the edges *)
Definition handleEdgesDelete (edgesToDelete : list string) (state : State)
  : State :=
  fold_left (fun state id => removeRelation id state) edgesToDelete state.

(** [handleTestNormalization]: the store it leaves *)
Definition handleTestNormalization (state : State) : State :=
  let normalized := getNormalizedSchema state in
  let validationResult := SchemaValidator.validateSchema normalized in
  if SchemaValidator.valid validationResult
  then setNormalized true state
  else state.

Definition handleNewProject (state : State) : State :=
  loadSchema [] [] state.

(** The store once the project whose saved schema is [schema] has been
    fetched: emptied first, then loaded with the editor graph of the
    schema *)
Definition loadProject (randomUUID : nat -> string)
  (schema : NormalizedSchema) (state : State) : State :=
  let state := loadSchema [] [] state in
  let '(loadedTables, loadedRelations) :=
    SchemaDenormalizer.denormalizeSchema randomUUID schema in
  loadSchema loadedTables loadedRelations state.

End Editor.

(** What the editor page is shown to do *)
Module EditorSpec.
Import SchemaStore Editor.

(** An identifier with no colon and no space in it, as the identifiers
    that [crypto.randomUUID()] returns are *)
Definition plain (id : string) : Prop :=
  JS.has_char ":"%char id = false /\ JS.has_char " "%char id = false.

Definition plain_ids (tables : list Table) : Prop :=
  forall t, In t tables ->
    plain (t_id t) /\ forall c, In c (t_columns t) -> plain (c_id c).

(** Tables with identifiers and names of their own, the names not empty,
    and in each table columns with identifiers and names of their own *)
Definition tidy (tables : list Table) : Prop :=
  RoundTripSpec.wf_graph tables [].

(** One use of the editor: a button of the canvas, of a table or of a
    column row, a relation drawn, retargeted or deleted, a check of the
    schema, a new project, a saved project loaded *)
Inductive action (state : State) : State -> Prop :=
| act_addTable id : action state (addTable id state)
| act_tableName id name : action state (updateTableName id name state)
| act_deleteTable id : action state (deleteTable id state)
| act_addColumn id tableId : action state (addColumn id tableId state)
| act_row tableId columnId data :
    action state (updateColumn tableId columnId data state)
| act_deleteColumn tableId column :
    action state (ColumnRow.handleDelete tableId column state)
| act_connect id connection state' title :
    handleConnect id connection state = Some (state', title) ->
    action state state'
| act_retarget selectedEdgeId value state' :
    handleUpdateTargetColumn selectedEdgeId value state = Some state' ->
    action state state'
| act_deleteSelectedEdge selectedEdgeId :
    action state (handleDeleteSelectedEdge selectedEdgeId state)
| act_deleteEdges edgesToDelete :
    action state (handleEdgesDelete edgesToDelete state)
| act_check : action state (handleTestNormalization state)
| act_newProject : action state (handleNewProject state)
| act_loadProject randomUUID schema :
    action state (loadProject randomUUID schema state).

(** The states that the editor page reaches from the empty store *)
Inductive reached : State -> Prop :=
| reached_initial : reached initial
| reached_action state state' :
    reached state -> action state state' -> reached state'.

(** The blog graph with nothing related yet *)
Definition unrelated : State :=
  mkState (fst Examples.blog) [] false.

(** The empty store, checked *)
Definition emptyChecked : State := handleTestNormalization initial.

End EditorSpec.

(* ===================================================================== *)
(** ** Loading a saved schema: what is to be shown *)
(* ===================================================================== *)

Module LoadSpec.
Import RoundTripSpec.

(** A schema as the editor saves it: each key once, every table and
    column under its own name, no table without a name *)
Definition saved (schema : NormalizedSchema) : Prop :=
  wf_schema schema /\ keyed_by_name schema
  /\ forall tableName, In tableName (Obj.keys (tables schema)) ->
                       tableName <> EmptyString.

(** Identifiers as [crypto.randomUUID()] draws them: distinct, not empty
    and without a colon *)
Definition uuids (randomUUID : nat -> string) : Prop :=
  fresh_ids randomUUID
  /\ forall n, JS.has_char ":"%char (randomUUID n) = false.

(** The foreign key of a column names a column of the schema. *)
Definition targetExists (schema : NormalizedSchema) (fk : ForeignKey) : bool :=
  match Obj.get (tables schema) (fk_table fk) with
  | Some target => Obj.has (nt_columns target) (fk_column fk)
  | None => false
  end.



(** A saved schema with a foreign key that names no table *)
Definition dangling : NormalizedSchema :=
  mkNormalizedSchema
    [("posts",
      mkNormalizedTable "posts"
        [("id", mkNormalizedColumn "id" "int" true false false None None);
         ("user_id", mkNormalizedColumn "user_id" "int" false false false
                       (Some (mkForeignKey "users" "id")) None)])].

End LoadSpec.

(* ===================================================================== *)
(** ** Positions of the tables on the canvas *)
(* ===================================================================== *)

(** The last block of [normalizeSchema] (unnamed/part_002) and step 3 of
    [denormalizeSchema] (lib/schemaDenormalizer.ts).  A position is a
    pair of numbers that both pass on as it is. *)
Module Positions.




Section WithPosition.
Variable Position : Type.





End WithPosition.


End Positions.
(* ===================================================================== *)
(** ** Facts about the string primitives *)
(* ===================================================================== *)

Module JSFacts.
Import JS.

Lemma append_nil_r (s : string) : s +:+ EmptyString = s.
Proof. induction s as [|a s IH]; simpl; [reflexivity | now rewrite IH]. Qed.

Lemma append_assoc (a b c : string) : (a +:+ b) +:+ c = a +:+ (b +:+ c).
Proof. induction a as [|x a IH]; simpl; [reflexivity | now rewrite IH]. Qed.

Lemma length_append (a b : string) :
  String.length (a +:+ b) = String.length a + String.length b.
Proof. induction a as [|x a IH]; simpl; [reflexivity | now rewrite IH]. Qed.

Lemma substring_all (s : string) : substring 0 (String.length s) s = s.
Proof. induction s as [|a s IH]; simpl; [reflexivity | now rewrite IH]. Qed.

Lemma substring_prefix (p q : string) :
  substring 0 (String.length p) (p +:+ q) = p.
Proof.
  induction p as [|a p IH]; simpl.
  - destruct q; reflexivity.
  - now rewrite IH.
Qed.

Lemma substring_suffix (p q : string) :
  substring (String.length p) (String.length q) (p +:+ q) = q.
Proof.
  induction p as [|a p IH]; simpl; [apply substring_all | exact IH].
Qed.

Lemma substring_split (k : nat) (s : string) :
  k <= String.length s ->
  s = substring 0 k s +:+ substring k (String.length s - k) s.
Proof.
  revert k; induction s as [|a s IH]; intros k Hk; simpl in *.
  - destruct k; reflexivity.
  - destruct k as [|k]; simpl.
    + now rewrite substring_all.
    + f_equal. apply IH. lia.
Qed.

(** [endsWith] holds exactly when the suffix can be split off. *)
Lemma endsWith_true (s suffix : string) :
  endsWith s suffix = true <-> exists p, s = p +:+ suffix.
Proof.
  unfold endsWith. split.
  - destruct (Nat.leb_spec (String.length suffix) (String.length s)) as [Hle|];
      [|discriminate].
    intros H%String.eqb_eq.
    exists (substring 0 (String.length s - String.length suffix) s).
    pose proof (substring_split (String.length s - String.length suffix) s
                  ltac:(lia)) as Hs.
    replace (String.length s - (String.length s - String.length suffix))
      with (String.length suffix) in Hs by lia.
    rewrite H in Hs. exact Hs.
  - intros [p ->]. rewrite length_append.
    destruct (Nat.leb_spec (String.length suffix)
                (String.length p + String.length suffix)); [|lia].
    replace (String.length p + String.length suffix - String.length suffix)
      with (String.length p) by lia.
    rewrite substring_suffix. apply String.eqb_refl.
Qed.

Lemma slice_drop_last_app (p q : string) :
  slice_drop_last (String.length q) (p +:+ q) = p.
Proof.
  unfold slice_drop_last. rewrite length_append.
  replace (String.length p + String.length q - String.length q)
    with (String.length p) by lia.
  apply substring_prefix.
Qed.

Lemma append_inj_r (p p' q : string) : p +:+ q = p' +:+ q -> p = p'.
Proof.
  intros H.
  rewrite <- (slice_drop_last_app p q), <- (slice_drop_last_app p' q).
  now rewrite H.
Qed.

Lemma has_char_append (c : ascii) (a b : string) :
  has_char c (a +:+ b) = (has_char c a || has_char c b)%bool.
Proof.
  induction a as [|x a IH]; simpl; [reflexivity|].
  rewrite IH. now rewrite orb_assoc.
Qed.

Lemma has_char_substring (c : ascii) (s : string) (n m : nat) :
  has_char c s = false -> has_char c (substring n m s) = false.
Proof.
  revert n m; induction s as [|a s IH]; intros n m H; simpl in *.
  - destruct n, m; reflexivity.
  - apply orb_false_iff in H as [Ha Hs].
    destruct n as [|n].
    + destruct m as [|m]; simpl; [reflexivity|].
      rewrite Ha. simpl. now apply IH.
    + now apply IH.
Qed.

Lemma split_nonempty (c : ascii) (s : string) : split c s <> [].
Proof.
  induction s as [|a s IH]; simpl; [discriminate|].
  destruct (Ascii.eqb a c); [discriminate|].
  destruct (split c s); discriminate.
Qed.

Lemma split_no_sep (c : ascii) (s : string) :
  Forall (fun w => has_char c w = false) (split c s).
Proof.
  induction s as [|a s IH]; simpl.
  - constructor; [reflexivity | constructor].
  - destruct (Ascii.eqb a c) eqn:E.
    + constructor; [reflexivity | exact IH].
    + destruct (split c s) as [|w ws].
      * constructor; [simpl; now rewrite E | constructor].
      * inversion IH; subst. constructor; [|assumption].
        simpl. rewrite E. assumption.
Qed.

Lemma split_no_occurrence (c : ascii) (w : string) :
  has_char c w = false -> split c w = [w].
Proof.
  induction w as [|a w IH]; simpl; [reflexivity|].
  intros [Ha Hw]%orb_false_iff. rewrite Ha, (IH Hw). reflexivity.
Qed.

Lemma split_append_sep (c : ascii) (w rest : string) :
  has_char c w = false ->
  split c (w +:+ String c rest) = w :: split c rest.
Proof.
  induction w as [|a w IH]; simpl.
  - intros _. now rewrite Ascii.eqb_refl.
  - intros [Ha Hw]%orb_false_iff. rewrite Ha, (IH Hw). reflexivity.
Qed.

(** Splitting undoes joining when no word contains the separator. *)
Lemma split_join (c : ascii) (ws : list string) :
  ws <> [] ->
  Forall (fun w => has_char c w = false) ws ->
  split c (join (String c EmptyString) ws) = ws.
Proof.
  induction ws as [|w ws IH]; [congruence|].
  intros _ Hall. inversion Hall as [|? ? Hw Hws]; subst.
  destruct ws as [|w' ws].
  - simpl. now apply split_no_occurrence.
  - change (join (String c EmptyString) (w :: w' :: ws))
      with (w +:+ String c EmptyString
              +:+ join (String c EmptyString) (w' :: ws)).
    change (String c EmptyString +:+ join (String c EmptyString) (w' :: ws))
      with (String c (join (String c EmptyString) (w' :: ws))).
    rewrite split_append_sep by assumption.
    f_equal. apply IH; [discriminate | assumption].
Qed.

End JSFacts.


(* ===================================================================== *)
(** ** Facts about model names *)
(* ===================================================================== *)

Module NamingFacts.
Import JS JSFacts PrismaCommon NamingSpec.

Lemma strip_suffix_unfold (suffix s : string) :
  strip_suffix suffix s =
  if String.eqb s suffix then Some EmptyString
  else match s with
       | EmptyString => None
       | String a r => option_map (String a) (strip_suffix suffix r)
       end.
Proof. destruct s; reflexivity. Qed.

Lemma strip_suffix_app (suffix p : string) :
  strip_suffix suffix (p +:+ suffix) = Some p.
Proof.
  induction p as [|a p IH].
  - simpl. rewrite strip_suffix_unfold, String.eqb_refl. reflexivity.
  - change (String a p +:+ suffix) with (String a (p +:+ suffix)).
    rewrite strip_suffix_unfold.
    destruct (String.eqb_spec (String a (p +:+ suffix)) suffix) as [E|_].
    + apply (f_equal String.length) in E. simpl in E.
      rewrite length_append in E. lia.
    + rewrite IH. reflexivity.
Qed.

Lemma strip_suffix_spec (suffix s p : string) :
  strip_suffix suffix s = Some p <-> s = p +:+ suffix.
Proof.
  split; [|intros ->; apply strip_suffix_app].
  revert p; induction s as [|a s IH]; intros p; rewrite strip_suffix_unfold.
  - destruct (String.eqb_spec EmptyString suffix) as [<-|]; [|discriminate].
    intros [= <-]. reflexivity.
  - destruct (String.eqb_spec (String a s) suffix) as [<-|_].
    + intros [= <-]. reflexivity.
    + destruct (strip_suffix suffix s) as [p'|] eqn:E; [|discriminate].
      intros [= <-]. simpl. f_equal. now apply IH.
Qed.

Lemma strip_suffix_endsWith (suffix s : string) :
  strip_suffix suffix s =
  if endsWith s suffix
  then Some (slice_drop_last (String.length suffix) s) else None.
Proof.
  destruct (endsWith s suffix) eqn:E.
  - apply endsWith_true in E as [p ->].
    rewrite slice_drop_last_app. apply strip_suffix_app.
  - destruct (strip_suffix suffix s) as [p|] eqn:Hp; [|reflexivity].
    apply strip_suffix_spec in Hp.
    assert (endsWith s suffix = true) by (apply endsWith_true; eauto).
    congruence.
Qed.

(** Dropping fewer characters than the suffix has keeps its head. *)
Lemma slice_keep (p keep dropped : string) (k : nat) :
  k = String.length dropped ->
  slice_drop_last k (p +:+ keep +:+ dropped) = p +:+ keep.
Proof.
  intros ->. rewrite <- append_assoc. apply slice_drop_last_app.
Qed.

Lemma toSingular_guarded_cascade (word : string) :
  PrismaGenerator.toSingular word = guarded_cascade word.
Proof.
  unfold PrismaGenerator.toSingular, guarded_cascade, cascade.
  destruct (Nat.leb (String.length word) 1); [reflexivity|].
  rewrite !strip_suffix_endsWith.
  destruct (endsWith word "ss"); [reflexivity|].
  destruct (endsWith word "ies"); [reflexivity|].
  destruct (endsWith word "ves"); [reflexivity|].
  destruct (endsWith word "ses") eqn:E1.
  { apply endsWith_true in E1 as [p ->].
    rewrite (slice_drop_last_app p "ses").
    exact (slice_keep p "s" "es" 2 eq_refl). }
  destruct (endsWith word "xes") eqn:E2.
  { apply endsWith_true in E2 as [p ->].
    rewrite (slice_drop_last_app p "xes").
    exact (slice_keep p "x" "es" 2 eq_refl). }
  destruct (endsWith word "ches") eqn:E3.
  { apply endsWith_true in E3 as [p ->].
    rewrite (slice_drop_last_app p "ches").
    exact (slice_keep p "ch" "es" 2 eq_refl). }
  destruct (endsWith word "shes") eqn:E4.
  { apply endsWith_true in E4 as [p ->].
    rewrite (slice_drop_last_app p "shes").
    exact (slice_keep p "sh" "es" 2 eq_refl). }
  destruct (endsWith word "s"); reflexivity.
Qed.

(** Singularising never introduces an underscore. *)
Lemma toSingular_no_underscore (word : string) :
  has_char "_"%char word = false ->
  has_char "_"%char (PrismaGenerator.toSingular word) = false.
Proof.
  intros H. unfold PrismaGenerator.toSingular, slice_drop_last.
  repeat match goal with
         | |- context [if ?b then _ else _] => destruct b
         end;
    rewrite ?has_char_append, ?has_char_substring by assumption;
    auto.
Qed.

Lemma toModelName_words (tableName : string) :
  PrismaGenerator.toModelName tableName =
  join EmptyString
    (map (fun w => pascalWord (PrismaGenerator.toSingular w))
       (split "_"%char tableName)).
Proof.
  unfold PrismaGenerator.toModelName, toPascalCase.
  rewrite split_join.
  - now rewrite map_map.
  - pose proof (split_nonempty "_"%char tableName).
    destruct (split "_"%char tableName); [congruence | discriminate].
  - pose proof (split_no_sep "_"%char tableName) as Hall.
    induction Hall; constructor; auto using toSingular_no_underscore.
Qed.

End NamingFacts.

(* ===================================================================== *)
(** ** Facts about dictionaries *)
(* ===================================================================== *)

Module ObjFacts.

Lemma has_iff {V : Type} (o : Obj.obj V) (k : string) :
  Obj.has o k = true <-> In k (Obj.keys o).
Proof.
  unfold Obj.has. induction o as [|[k' v] o IH]; simpl.
  - split; [discriminate | tauto].
  - destruct (String.eqb_spec k' k) as [->|Hne].
    + split; auto.
    + rewrite IH. split; [auto | intros [?|?]; [congruence | assumption]].
Qed.

Lemma get_Some_In {V : Type} (o : Obj.obj V) (k : string) (v : V) :
  Obj.get o k = Some v -> In (k, v) o.
Proof.
  induction o as [|[k' v'] o IH]; simpl; [discriminate|].
  destruct (String.eqb_spec k' k) as [->|_].
  - intros [= ->]. now left.
  - intros H. right. now apply IH.
Qed.

Lemma get_None {V : Type} (o : Obj.obj V) (k : string) :
  Obj.get o k = None <-> ~ In k (Obj.keys o).
Proof.
  rewrite <- has_iff. unfold Obj.has.
  destruct (Obj.get o k); split; intros H; congruence.
Qed.

Lemma get_In {V : Type} (o : Obj.obj V) (k : string) (v : V) :
  NoDup (Obj.keys o) -> In (k, v) o -> Obj.get o k = Some v.
Proof.
  induction o as [|[k' v'] o IH]; simpl; [tauto|].
  intros Hnd Hin. apply NoDup_cons in Hnd as [Hk Hnd]. rewrite list_elem_of_In in Hk.
  destruct Hin as [[= -> ->]|Hin].
  - now rewrite String.eqb_refl.
  - destruct (String.eqb_spec k' k) as [->|_]; [|now apply IH].
    exfalso. apply Hk. change k with (fst (k, v)). now apply in_map.
Qed.

Lemma In_keys {V : Type} (o : Obj.obj V) (k : string) :
  In k (Obj.keys o) <-> exists v, In (k, v) o.
Proof.
  unfold Obj.keys. rewrite in_map_iff. split.
  - intros [[k' v] [<- H]]. eauto.
  - intros [v H]. exists (k, v). auto.
Qed.

Lemma In_values {V : Type} (o : Obj.obj V) (v : V) :
  In v (Obj.values o) <-> exists k, In (k, v) o.
Proof.
  unfold Obj.values. rewrite in_map_iff. split.
  - intros [[k v'] [<- H]]. eauto.
  - intros [k H]. exists (k, v). auto.
Qed.

(** Filling a [Map] from the entries of an object: the entry of a key that
    occurs once is what [get] returns afterwards. *)
Lemma fold_insert_other {V W : Type} (f : V -> W) (o : Obj.obj V)
  (m : gmap string W) (k : string) :
  ~ In k (Obj.keys o) ->
  fold_left (fun m '(k', v) => <[k' := f v]> m) o m !! k = m !! k.
Proof.
  revert m; induction o as [|[k' v] o IH]; intros m Hk; simpl in *;
    [reflexivity|].
  rewrite IH by tauto. apply lookup_insert_ne. tauto.
Qed.

Lemma fold_insert_lookup {V W : Type} (f : V -> W) (o : Obj.obj V)
  (m : gmap string W) (k : string) (v : V) :
  NoDup (Obj.keys o) -> In (k, v) o ->
  fold_left (fun m '(k', v) => <[k' := f v]> m) o m !! k = Some (f v).
Proof.
  revert m; induction o as [|[k' v'] o IH]; intros m Hnd Hin; simpl in *;
    [tauto|].
  apply NoDup_cons in Hnd as [Hk Hnd]. rewrite list_elem_of_In in Hk.
  destruct Hin as [[= -> ->]|Hin].
  - rewrite fold_insert_other by assumption. apply lookup_insert_eq.
  - now apply IH.
Qed.

Lemma fold_insert_None {V W : Type} (f : V -> W) (o : Obj.obj V) (k : string) :
  ~ In k (Obj.keys o) ->
  fold_left (fun m '(k', v) => <[k' := f v]> m) o (∅ : gmap string W) !! k
  = None.
Proof. intros H. rewrite fold_insert_other by assumption. apply lookup_empty. Qed.


End ObjFacts.

(* ===================================================================== *)
(** ** Facts about the table order *)
(* ===================================================================== *)

Module OrderFacts.
Import SqlCommon OrderSpec ObjFacts.

Lemma elem_keySet (schema : NormalizedSchema) (x : string) :
  x ∈ keySet schema <-> In x (Obj.keys (tables schema)).
Proof. unfold keySet. rewrite elem_of_list_to_set. apply list_elem_of_In. Qed.

Lemma keySet_size (schema : NormalizedSchema) :
  size (keySet schema) <= length (Obj.keys (tables schema)).
Proof.
  unfold keySet. induction (Obj.keys (tables schema)) as [|k l IH].
  - rewrite list_to_set_nil, size_empty. simpl. lia.
  - rewrite list_to_set_cons, size_union_alt, size_singleton.
    assert (size (list_to_set l ∖ {[k]} : gset string)
            <= size (list_to_set l : gset string))
      by (apply subseteq_size; set_solver).
    simpl. lia.
Qed.

Lemma visitDeps_None (schema : NormalizedSchema)
  (rec : VisitState -> string -> option VisitState) (deps : list string) :
  fold_left
    (fun acc dep =>
       match acc with
       | None => None
       | Some s => if Obj.has (tables schema) dep then rec s dep else Some s
       end) deps None = None.
Proof. induction deps; simpl; auto. Qed.

Lemma visitDeps_cons (schema : NormalizedSchema)
  (rec : VisitState -> string -> option VisitState)
  (dep : string) (deps : list string) (st : VisitState) :
  visitDeps schema rec (dep :: deps) st =
  match (if Obj.has (tables schema) dep then rec st dep else Some st) with
  | Some s => visitDeps schema rec deps s
  | None => None
  end.
Proof.
  unfold visitDeps. simpl.
  destruct (if Obj.has (tables schema) dep then rec st dep else Some st);
    [reflexivity | apply visitDeps_None].
Qed.

Section Search.
Variable schema : NormalizedSchema.
Variable dependencies : gmap string (list string).

#[local] Abbreviation K := (keySet schema).
#[local] Abbreviation edge := (follows schema dependencies).

(** *** The search returns *)

Lemma visitDeps_total (rec : VisitState -> string -> option VisitState)
  (V : gset string) :
  (forall s d, d ∈ K -> visiting s = V ->
               exists s', rec s d = Some s' /\ visiting s' = V) ->
  forall deps s, visiting s = V ->
    exists s', visitDeps schema rec deps s = Some s' /\ visiting s' = V.
Proof.
  intros Hrec deps; induction deps as [|d deps IH]; intros s Hs.
  - exists s. split; [reflexivity | assumption].
  - rewrite visitDeps_cons.
    destruct (Obj.has (tables schema) d) eqn:Hd.
    + apply has_iff, elem_keySet in Hd.
      destruct (Hrec s d Hd Hs) as (s' & -> & Hs'). now apply IH.
    + now apply IH.
Qed.

Lemma visit_total (fuel : nat) :
  forall st name,
    name ∈ K -> visiting st ⊆ K -> size (K ∖ visiting st) < fuel ->
    exists st', visit schema dependencies fuel st name = Some st'
                /\ visiting st' = visiting st.
Proof.
  induction fuel as [|fuel IH]; intros st name Hname Hsub Hsize; [lia|].
  simpl. case_bool_decide as Hving; [eauto|].
  case_bool_decide as Hved; [eauto|].
  set (st1 := mkVisitState _ _ _).
  destruct (visitDeps_total (visit schema dependencies fuel) (visiting st1))
    with (deps := default [] (dependencies !! name)) (s := st1)
    as (st2 & -> & Hst2); [|reflexivity|].
  - intros s d Hd Hs. rewrite <- Hs. apply IH; [assumption | |].
    + rewrite Hs. subst st1; simpl. set_solver.
    + rewrite Hs. subst st1; simpl.
      assert (size (K ∖ (visiting st ∪ {[name]})) < size (K ∖ visiting st)).
      { apply subset_size. split; [set_solver|].
        intros Hsub'. specialize (Hsub' name). set_solver. }
      lia.
  - eexists; split; [reflexivity|]. simpl. rewrite Hst2. subst st1; simpl.
    set_solver.
Qed.

(** *** What the search leaves behind *)

Lemma Inv_initial : Inv schema (mkVisitState [] ∅ ∅).
Proof.
  constructor; simpl.
  - constructor.
  - intros x. split; [set_solver | tauto].
  - set_solver.
  - set_solver.
Qed.

Lemma visitDeps_spec (rec : VisitState -> string -> option VisitState)
  (V : gset string) :
  (forall s d s',
     rec s d = Some s' -> d ∈ K -> Inv schema s -> visiting s = V ->
     Inv schema s' /\ visiting s' = V /\ visited s ⊆ visited s'
     /\ (d ∈ V \/ d ∈ visited s')
     /\ ((forall a, ~ tc edge a a) -> Topo edge (ordered s) ->
         (forall v, v ∈ V -> tc edge v d) ->
         Topo edge (ordered s') /\ d ∈ visited s')) ->
  forall deps s s',
    visitDeps schema rec deps s = Some s' -> Inv schema s -> visiting s = V ->
    Inv schema s' /\ visiting s' = V /\ visited s ⊆ visited s'
    /\ (forall d, In d deps -> d ∈ K -> d ∈ V \/ d ∈ visited s')
    /\ ((forall a, ~ tc edge a a) -> Topo edge (ordered s) ->
        (forall d, In d deps -> d ∈ K -> forall v, v ∈ V -> tc edge v d) ->
        Topo edge (ordered s')
        /\ (forall d, In d deps -> d ∈ K -> d ∈ visited s')).
Proof.
  intros Hrec deps; induction deps as [|d deps IH]; intros s s' Hrun Hinv HV.
  - injection Hrun as <-.
    split; [assumption|]. split; [assumption|]. split; [reflexivity|].
    split; [intros d []|].
    intros Hno Htopo Hpath. split; [assumption | intros d []].
  - rewrite visitDeps_cons in Hrun.
    destruct (Obj.has (tables schema) d) eqn:Hd.
    + destruct (rec s d) as [s1|] eqn:Hs1; [|discriminate].
      apply has_iff, elem_keySet in Hd.
      destruct (Hrec s d s1 Hs1 Hd Hinv HV)
        as (Hinv1 & HV1 & Hmono1 & Hd1 & Hacyc1).
      destruct (IH s1 s' Hrun Hinv1 HV1)
        as (Hinv' & HV' & Hmono' & Hds & Hacyc').
      split; [assumption|]. split; [assumption|].
      split; [set_solver|]. split.
      * intros d' [<-|Hin] Hk; [|auto].
        destruct Hd1; [now left | right; set_solver].
      * intros Hno Htopo Hpath.
        destruct Hacyc1 as [Htopo1 Hdv]; [assumption | assumption | |].
        { intros v Hv. apply Hpath; simpl; auto. }
        destruct Hacyc' as [Htopo' Hdsv]; [assumption | assumption | |].
        { intros d' Hin Hk v Hv. apply Hpath; simpl; auto. }
        split; [assumption|].
        intros d' [<-|Hin] Hk; [set_solver | auto].
    + assert (Hnk : d ∉ K).
      { rewrite elem_keySet, <- has_iff. congruence. }
      destruct (IH s s' Hrun Hinv HV) as (Hinv' & HV' & Hmono' & Hds & Hacyc').
      split; [assumption|]. split; [assumption|]. split; [assumption|].
      split.
      * intros d' [<-|Hin] Hk; [contradiction | auto].
      * intros Hno Htopo Hpath.
        destruct Hacyc' as [Htopo' Hdsv]; [assumption | assumption | |].
        { intros d' Hin Hk v Hv. apply Hpath; simpl; auto. }
        split; [assumption|].
        intros d' [<-|Hin] Hk; [contradiction | auto].
Qed.

Lemma visit_spec (fuel : nat) :
  forall st name st',
    visit schema dependencies fuel st name = Some st' ->
    name ∈ K -> Inv schema st ->
    Inv schema st' /\ visiting st' = visiting st
    /\ visited st ⊆ visited st'
    /\ (name ∈ visiting st \/ name ∈ visited st')
    /\ ((forall a, ~ tc edge a a) -> Topo edge (ordered st) ->
        (forall v, v ∈ visiting st -> tc edge v name) ->
        Topo edge (ordered st') /\ name ∈ visited st').
Proof.
  induction fuel as [|fuel IH]; intros st name st' Hrun Hname Hinv;
    [discriminate|].
  simpl in Hrun. case_bool_decide as Hving.
  { injection Hrun as <-.
    split; [assumption|]. split; [reflexivity|]. split; [reflexivity|].
    split; [now left|].
    intros Hno Htopo Hpath. exfalso. exact (Hno name (Hpath name Hving)). }
  case_bool_decide as Hved.
  { injection Hrun as <-.
    split; [assumption|]. split; [reflexivity|]. split; [reflexivity|].
    split; [now right|].
    intros Hno Htopo Hpath. split; assumption. }
  set (st1 := mkVisitState (ordered st) (visited st)
                (visiting st ∪ {[name]})) in Hrun.
  destruct (visitDeps schema (visit schema dependencies fuel)
              (default [] (dependencies !! name)) st1) as [st2|] eqn:Hloop;
    [|discriminate].
  injection Hrun as <-.
  assert (Hinv1 : Inv schema st1).
  { destruct Hinv as [Hnd Hvis Hkeys Hdis]. constructor; simpl; auto.
    intros x Hx. apply elem_of_union in Hx as [Hx|Hx]; [auto|].
    apply elem_of_singleton in Hx as ->. assumption. }
  destruct (visitDeps_spec (visit schema dependencies fuel) (visiting st1))
    with (deps := default [] (dependencies !! name)) (s := st1) (s' := st2)
    as (Hinv2 & HV2 & Hmono2 & Hds & Hacyc2);
    [|assumption|assumption|reflexivity|].
  { intros s d s' Hs Hd Hinvs HVs. rewrite <- HVs. now apply IH. }
  simpl in HV2, Hmono2.
  destruct Hinv2 as [Hnd2 Hvis2 Hkeys2 Hdis2].
  assert (Hfresh : name ∉ visited st2).
  { apply Hdis2. rewrite HV2. set_solver. }
  split.
  { constructor; simpl.
    - apply NoDup_app. split; [assumption|]. split.
      + intros x Hx [->|Hnil]%list_elem_of_In; [|inversion Hnil].
        apply Hfresh, Hvis2. now apply list_elem_of_In.
      + apply NoDup_singleton.
    - intros x. rewrite in_app_iff, elem_of_union, elem_of_singleton, Hvis2.
      simpl. intuition.
    - intros x [Hx|Hx]%elem_of_union; [auto|].
      apply elem_of_singleton in Hx as ->. assumption.
    - intros x [Hx Hne]%elem_of_difference [Hx'|Hx']%elem_of_union;
        [exact (Hdis2 x Hx Hx') | contradiction]. }
  split; [simpl; rewrite HV2; set_solver|].
  split; [simpl; set_solver|].
  split; [right; simpl; set_solver|].
  intros Hno Htopo Hpath.
  destruct Hacyc2 as [Htopo2 Hdsv]; [assumption | assumption | |].
  { intros d Hin Hk v [Hv|Hv]%elem_of_union.
    - eapply tc_r; [apply Hpath; assumption|]. split; assumption.
    - apply elem_of_singleton in Hv as ->. apply tc_once. split; assumption. }
  split; [|simpl; set_solver].
  simpl. apply Topo_snoc; [assumption|].
  intros b [Hin Hk]. apply Hvis2. auto.
Qed.

Lemma visitAll_total (fuel : nat) (names : list string) :
  size K < fuel ->
  (forall n, In n names -> n ∈ K) ->
  forall st, visiting st = ∅ ->
    exists st', visitAll schema dependencies fuel names st = Some st'
                /\ visiting st' = ∅.
Proof.
  intros Hfuel. unfold visitAll.
  induction names as [|n names IH]; intros Hnames st Hst; simpl.
  - eauto.
  - destruct (visit_total fuel st n) as (s1 & -> & Hs1).
    + apply Hnames. now left.
    + rewrite Hst. set_solver.
    + rewrite Hst.
      assert (size (K ∖ ∅) <= size K) by (apply subseteq_size; set_solver).
      lia.
    + apply IH; [intros; apply Hnames; now right | congruence].
Qed.

Lemma visitAll_None (fuel : nat) (names : list string) :
  fold_left
    (fun acc tableName =>
       match acc with
       | None => None
       | Some s => visit schema dependencies fuel s tableName
       end) names None = None.
Proof. induction names; simpl; auto. Qed.

Lemma visitAll_spec (fuel : nat) (names : list string) :
  (forall n, In n names -> n ∈ K) ->
  forall st st',
    visitAll schema dependencies fuel names st = Some st' ->
    Inv schema st -> visiting st = ∅ ->
    Inv schema st' /\ visiting st' = ∅ /\ visited st ⊆ visited st'
    /\ (forall n, In n names -> n ∈ visited st')
    /\ ((forall a, ~ tc edge a a) -> Topo edge (ordered st) ->
        Topo edge (ordered st')).
Proof.
  unfold visitAll.
  induction names as [|n names IH]; intros Hnames st st' Hrun Hinv Hst;
    simpl in Hrun.
  - injection Hrun as <-.
    split; [assumption|]. split; [assumption|]. split; [reflexivity|].
    split; [intros n []|]. auto.
  - destruct (visit schema dependencies fuel st n) as [s1|] eqn:Hs1;
      [|rewrite visitAll_None in Hrun; discriminate].
    destruct (visit_spec fuel st n s1 Hs1) as (Hinv1 & HV1 & Hmono1 & Hn1 & Hacyc1);
      [apply Hnames; now left | assumption |].
    destruct (IH (fun x Hx => Hnames x (or_intror Hx)) s1 st' Hrun Hinv1)
      as (Hinv' & HV' & Hmono' & Hall & Hacyc'); [congruence|].
    split; [assumption|]. split; [assumption|]. split; [set_solver|].
    split.
    + intros x [<-|Hx]; [|auto].
      destruct Hn1 as [Hn1|Hn1]; [rewrite Hst in Hn1; set_solver|set_solver].
    + intros Hno Htopo. apply Hacyc'; [assumption|].
      apply Hacyc1; [assumption | assumption |].
      intros v Hv. rewrite Hst in Hv. set_solver.
Qed.

End Search.

(** [orderTables] returns *)
Lemma orderTables_returns (schema : NormalizedSchema) :
  exists order, orderTables schema = Some order.
Proof.
  unfold orderTables.
  destruct (visitAll_total schema (dependenciesOf schema)
              (S (length (Obj.keys (tables schema))))
              (Obj.keys (tables schema)))
    with (st := mkVisitState [] ∅ ∅) as (st' & -> & _).
  - pose proof (keySet_size schema). lia.
  - intros n Hn. now apply elem_keySet.
  - reflexivity.
  - eauto.
Qed.

(** and what it returns has every key once, after everything it follows
    if nothing follows itself. *)
Lemma orderTables_spec (schema : NormalizedSchema) (order : list string) :
  orderTables schema = Some order ->
  NoDup order
  /\ (forall x, In x order <-> In x (Obj.keys (tables schema)))
  /\ ((forall a, ~ tc (follows schema (dependenciesOf schema)) a a) ->
      Topo (follows schema (dependenciesOf schema)) order).
Proof.
  unfold orderTables.
  destruct (visitAll schema (dependenciesOf schema) _ _ _) as [st'|] eqn:Hrun;
    [|discriminate].
  intros [= <-].
  destruct (visitAll_spec schema (dependenciesOf schema) _ _
              (fun n Hn => proj2 (elem_keySet schema n) Hn)
              _ _ Hrun (Inv_initial schema) eq_refl)
    as ([Hnd Hvis Hkeys Hdis] & _ & _ & Hall & Htopo).
  split; [assumption|]. split.
  - intros x. split.
    + intros Hx. apply elem_keySet, Hkeys, Hvis, Hx.
    + intros Hx. apply Hvis, Hall, Hx.
  - intros Hno. apply Htopo; [assumption | constructor].
Qed.









End OrderFacts.

(* ===================================================================== *)
(** ** Facts about the generation guard *)
(* ===================================================================== *)

Module GuardFacts.
Import GeneratorValidation GuardSpec ObjFacts.

Lemma pkSet_fold (columns : Obj.obj NormalizedColumn) (acc : gset string)
  (x : string) :
  x ∈ fold_left
        (fun pks '(columnName, column) =>
           if nc_primaryKey column then pks ∪ {[columnName]} else pks)
        columns acc
  <-> x ∈ acc \/ exists c, In (x, c) columns /\ nc_primaryKey c = true.
Proof.
  revert acc; induction columns as [|[k c] columns IH]; intros acc; simpl.
  - split; [auto | intros [?|(? & [] & _)]; assumption].
  - rewrite IH. split.
    + intros [Hacc|(c' & Hin & Hpk)].
      * destruct (nc_primaryKey c) eqn:Hpk; [|auto].
        apply elem_of_union in Hacc as [?|Hx%elem_of_singleton]; [auto|].
        subst x. right. exists c. auto.
      * right. exists c'. auto.
    + intros [Hacc|(c' & [[= -> ->]|Hin] & Hpk)].
      * left. destruct (nc_primaryKey c); set_solver.
      * left. rewrite Hpk. set_solver.
      * right. exists c'. auto.
Qed.

Lemma pkSet_spec (t : NormalizedTable) (x : string) :
  NoDup (Obj.keys (nt_columns t)) ->
  x ∈ pkSet t
  <-> exists c, Obj.get (nt_columns t) x = Some c /\ nc_primaryKey c = true.
Proof.
  intros Hnd. unfold pkSet. rewrite pkSet_fold. split.
  - intros [Hx|(c & Hin & Hpk)]; [set_solver|].
    exists c. split; [now apply get_In | assumption].
  - intros (c & Hget & Hpk). right. exists c.
    split; [now apply get_Some_In | assumption].
Qed.

Lemma pkColumnsOf_lookup (schema : NormalizedSchema) (a : string) :
  NoDup (Obj.keys (tables schema)) ->
  pkColumnsOf schema !! a = pkSet <$> Obj.get (tables schema) a.
Proof.
  intros Hnd. unfold pkColumnsOf.
  destruct (Obj.get (tables schema) a) as [t|] eqn:Hget; simpl.
  - apply (fold_insert_lookup pkSet); [assumption|]. now apply get_Some_In.
  - apply (fold_insert_None pkSet). now apply get_None.
Qed.

Lemma wf_table_of (schema : NormalizedSchema) (k : string)
  (t : NormalizedTable) :
  wf_schema schema -> Obj.get (tables schema) k = Some t -> wf_table t.
Proof.
  intros [_ Hall] Hget. rewrite List.Forall_forall in Hall. apply Hall.
  apply In_values. exists k. now apply get_Some_In.
Qed.

(** The reports about the target of one foreign key *)
Lemma targetErrors_spec (schema : NormalizedSchema)
  (tableName columnName : string) (fk : ForeignKey) (line : string) :
  wf_schema schema ->
  In line (targetErrors schema (pkColumnsOf schema) tableName columnName fk)
  <-> (Obj.get (tables schema) (fk_table fk) = None
       /\ line = msg_no_table tableName columnName (fk_table fk))
      \/ (exists target,
            Obj.get (tables schema) (fk_table fk) = Some target
            /\ Obj.get (nt_columns target) (fk_column fk) = None
            /\ line = msg_no_column tableName columnName (fk_table fk)
                        (fk_column fk))
      \/ (exists target rc,
            Obj.get (tables schema) (fk_table fk) = Some target
            /\ Obj.get (nt_columns target) (fk_column fk) = Some rc
            /\ nc_primaryKey rc = false
            /\ line = msg_not_pk tableName columnName (fk_table fk)
                        (fk_column fk)).
Proof.
  intros Hwf. unfold targetErrors.
  rewrite pkColumnsOf_lookup by apply Hwf.
  destruct (Obj.get (tables schema) (fk_table fk)) as [target|] eqn:Ht; simpl.
  - pose proof (wf_table_of schema _ _ Hwf Ht) as Hwt.
    destruct (Obj.get (nt_columns target) (fk_column fk)) as [rc|] eqn:Hc.
    + case_bool_decide as Hpk.
      * apply pkSet_spec in Hpk as (rc' & Hrc' & Hpk); [|assumption].
        assert (rc' = rc) as -> by congruence.
        split; [intros []|].
        intros [[Hn _]|[(tg & Hs & Hn & _)|(tg & rc0 & Hs & Hr & Hp & _)]];
          congruence.
      * assert (Hrc : nc_primaryKey rc = false).
        { destruct (nc_primaryKey rc) eqn:E; [|reflexivity].
          exfalso. apply Hpk. apply pkSet_spec; eauto. }
        split.
        -- intros [<-|[]]. right. right. exists target, rc. auto.
        -- intros [[Hn _]|[(tg & Hs & Hn & _)|(tg & rc0 & _ & _ & _ & ->)]];
             [congruence | congruence | now left].
    + split.
      * intros [<-|[]]. right. left. exists target. auto.
      * intros [[Hn _]|[(tg & _ & _ & ->)|(tg & rc0 & Hs & Hr & _)]];
          [congruence | now left | congruence].
  - split.
    + intros [<-|[]]. left. auto.
    + intros [[_ ->]|[(tg & Hs & _)|(tg & rc0 & Hs & _)]];
        [now left | congruence | congruence].
Qed.

(** The guard reports exactly the breaches of its three rules. *)
Lemma collectErrors_spec (schema : NormalizedSchema) (line : string) :
  wf_schema schema ->
  In line (collectErrors schema) <-> Broken schema line.
Proof.
  intros Hwf. unfold collectErrors. rewrite in_flat_map. split.
  - intros ([tableName t] & Ht & Hin).
    apply in_flat_map in Hin as ([columnName c] & Hc & Hin).
    unfold columnErrors in Hin.
    destruct (nc_foreignKey c) as [fk|] eqn:Hfk; [|destruct Hin].
    apply in_app_iff in Hin as [Hin|Hin].
    + destruct (nc_primaryKey c) eqn:Hpk; [|destruct Hin].
      destruct Hin as [<-|[]]. eapply broken_fk_on_primary_key; eauto.
    + apply (targetErrors_spec _ _ _ _ _ Hwf) in Hin
        as [[Hnone ->]|[(target & Hsome & Hnone & ->)
                       |(target & rc & Hsome & Hrc & Hpk & ->)]].
      * eapply broken_target_table_missing; eauto.
      * eapply broken_target_column_missing; eauto.
      * eapply broken_target_not_primary_key; eauto.
  - intros Hbroken.
    destruct Hbroken
      as [tableName t columnName c fk Ht Hc Hfk Hpk
         |tableName t columnName c fk Ht Hc Hfk Hnone
         |tableName t columnName c fk target Ht Hc Hfk Hsome Hnone
         |tableName t columnName c fk target rc Ht Hc Hfk Hsome Hrc Hpk];
      exists (tableName, t); (split; [assumption|]);
      apply in_flat_map; exists (columnName, c); (split; [assumption|]);
      unfold columnErrors; rewrite Hfk; apply in_app_iff.
    + left. rewrite Hpk. now left.
    + right. apply targetErrors_spec; auto.
    + right. apply targetErrors_spec; [assumption|]. right. left. eauto.
    + right. apply targetErrors_spec; [assumption|]. right. right.
      exists target, rc. auto.
Qed.


Lemma numbered_length (errors : list string) (start : nat) :
  length (numbered start errors) = length errors.
Proof.
  revert start; induction errors as [|e errors IH]; intros start; simpl;
    [reflexivity | now rewrite IH].
Qed.

Lemma validate_thrown (schema : NormalizedSchema) :
  collectErrors schema <> [] ->
  validateSchemaForGeneration schema
  = Thrown (failureMessage (collectErrors schema)).
Proof.
  intros H. unfold validateSchemaForGeneration, validateForeignKeys.
  destruct (collectErrors schema); [congruence | reflexivity].
Qed.

Lemma validate_returned (schema : NormalizedSchema) :
  collectErrors schema = [] ->
  validateSchemaForGeneration schema = Returned tt.
Proof.
  intros H. unfold validateSchemaForGeneration, validateForeignKeys.
  now rewrite H.
Qed.

End GuardFacts.

(* ===================================================================== *)
(** ** Facts about lists *)
(* ===================================================================== *)

Module ListFacts.

Lemma Forall2_In_l {A B : Type} (R : A -> B -> Prop) (l : list A)
  (l' : list B) (x : A) :
  Forall2 R l l' -> In x l -> exists y, In y l' /\ R x y.
Proof.
  induction 1 as [|a b l l' Hab _ IH]; intros Hin; [destruct Hin|].
  destruct Hin as [<-|Hin].
  - exists b. simpl. auto.
  - destruct (IH Hin) as (y & Hy & Hxy). exists y. simpl. auto.
Qed.

Lemma Forall2_In_r {A B : Type} (R : A -> B -> Prop) (l : list A)
  (l' : list B) (y : B) :
  Forall2 R l l' -> In y l' -> exists x, In x l /\ R x y.
Proof.
  induction 1 as [|a b l l' Hab _ IH]; intros Hin; [destruct Hin|].
  destruct Hin as [<-|Hin].
  - exists a. simpl. auto.
  - destruct (IH Hin) as (x & Hx & Hxy). exists x. simpl. auto.
Qed.

Lemma Forall2_and {A B : Type} (R R' : A -> B -> Prop) (l : list A)
  (l' : list B) :
  Forall2 R l l' -> Forall2 R' l l' -> Forall2 (fun x y => R x y /\ R' x y) l l'.
Proof.
  induction 1; intros H'; inversion H'; subst; constructor; auto.
Qed.

Lemma Forall2_map_eq {A B C : Type} (f : A -> C) (g : B -> C) (l : list A)
  (l' : list B) :
  Forall2 (fun x y => g y = f x) l l' -> map g l' = map f l.
Proof. induction 1; simpl; congruence. Qed.

(** Looking an element up by an identifier that occurs once *)
Lemma find_by_id {A : Type} (id : A -> string) (l : list A) (x : A) :
  NoDup (map id l) -> In x l ->
  List.find (fun y => String.eqb (id y) (id x)) l = Some x.
Proof.
  induction l as [|a l IH]; intros Hnd Hin; [destruct Hin|].
  simpl in *. apply NoDup_cons in Hnd as [Ha Hnd].
  rewrite list_elem_of_In in Ha.
  destruct Hin as [->|Hin].
  - now rewrite String.eqb_refl.
  - destruct (String.eqb_spec (id a) (id x)) as [E|_]; [|now apply IH].
    exfalso. apply Ha. rewrite E. now apply in_map.
Qed.

Lemma find_id_Some {A : Type} (id : A -> string) (l : list A) (k : string)
  (x : A) :
  List.find (fun y => String.eqb (id y) k) l = Some x ->
  In x l /\ id x = k.
Proof.
  intros H. apply find_some in H as [Hin Heq].
  split; [assumption | now apply String.eqb_eq].
Qed.

Lemma find_id_None {A : Type} (id : A -> string) (l : list A) (k : string) :
  List.find (fun y => String.eqb (id y) k) l = None ->
  forall x, In x l -> id x <> k.
Proof.
  intros H x Hx E. apply (find_none _ _ H) in Hx.
  rewrite E, String.eqb_refl in Hx. discriminate.
Qed.

Lemma NoDup_map_inj {A B : Type} (f : A -> B) (l : list A) (x y : A) :
  NoDup (map f l) -> In x l -> In y l -> f x = f y -> x = y.
Proof.
  induction l as [|a l IH]; intros Hnd Hx Hy E; [destruct Hx|].
  simpl in *. apply NoDup_cons in Hnd as [Ha Hnd].
  rewrite list_elem_of_In in Ha.
  destruct Hx as [->|Hx], Hy as [->|Hy]; auto.
  - exfalso. apply Ha. rewrite E. now apply in_map.
  - exfalso. apply Ha. rewrite <- E. now apply in_map.
Qed.


End ListFacts.

(* ===================================================================== *)
(** ** Facts about maps filled in a loop *)
(* ===================================================================== *)

Module FillFacts.

Section Fill.
Context {A V : Type}.
Variable key : A -> string.
Variable val : A -> option V.

Lemma fill_app (l1 l2 : list A) (m : gmap string V) :
  fill key val (l1 ++ l2) m = fill key val l2 (fill key val l1 m).
Proof. apply fold_left_app. Qed.

Lemma fill_cons (x : A) (l : list A) (m : gmap string V) :
  fill key val (x :: l) m =
  fill key val l
    (match val x with Some v => <[key x := v]> m | None => m end).
Proof. reflexivity. Qed.

Lemma fill_absent (l : list A) (m : gmap string V) (k : string) :
  (forall x, In x l -> key x = k -> val x = None) ->
  fill key val l m !! k = m !! k.
Proof.
  revert m; induction l as [|x l IH]; intros m H; [reflexivity|].
  rewrite fill_cons, IH by (intros; apply H; simpl; auto).
  destruct (val x) as [v|] eqn:E; [|reflexivity].
  apply lookup_insert_ne. intros Hk.
  specialize (H x (or_introl eq_refl) Hk). congruence.
Qed.

(** The last store under a key is what a later [get] returns. *)
Lemma fill_last (pre post : list A) (x : A) (v : V) (m : gmap string V) :
  val x = Some v ->
  (forall y, In y post -> key y = key x -> val y = None) ->
  fill key val (pre ++ x :: post) m !! key x = Some v.
Proof.
  intros Hx Hpost. rewrite fill_app, fill_cons, Hx.
  rewrite fill_absent by assumption. apply lookup_insert_eq.
Qed.

Lemma fill_inv (l : list A) (m : gmap string V) (k : string) (v : V) :
  fill key val l m !! k = Some v ->
  m !! k = Some v \/ exists x, In x l /\ key x = k /\ val x = Some v.
Proof.
  revert m; induction l as [|x l IH]; intros m H; [auto|].
  rewrite fill_cons in H.
  apply IH in H as [H|(y & Hy & Hk & Hv)].
  - destruct (val x) as [v'|] eqn:E; [|auto].
    destruct (decide (key x = k)) as [Hk|Hk].
    + rewrite <- Hk, lookup_insert_eq in H. injection H as ->.
      right. exists x. simpl. auto.
    + rewrite lookup_insert_ne in H by assumption. auto.
  - right. exists y. simpl. auto.
Qed.

Lemma fill_agree (l : list A) (m : gmap string V) (k : string) (v : V) :
  (forall y v', In y l -> key y = k -> val y = Some v' -> v' = v) ->
  m !! k = Some v \/ (exists x, In x l /\ key x = k /\ val x = Some v) ->
  fill key val l m !! k = Some v.
Proof.
  revert m; induction l as [|x l IH]; intros m Hall Hsome.
  - destruct Hsome as [H|(x & [] & _)]. exact H.
  - rewrite fill_cons. apply IH; [intros; eapply Hall; simpl; eauto|].
    destruct Hsome as [Hm|(y & [<-|Hy] & Hk & Hv)].
    + left. destruct (val x) as [v'|] eqn:E; [|assumption].
      destruct (decide (key x = k)) as [Hk|Hk].
      * rewrite (Hall x v' (or_introl eq_refl) Hk E), <- Hk.
        apply lookup_insert_eq.
      * now rewrite lookup_insert_ne.
    + left. rewrite Hv, <- Hk. apply lookup_insert_eq.
    + right. exists y. auto.
Qed.

Lemma fill_None (l : list A) (k : string) :
  fill key val l ∅ !! k = None <->
  forall x, In x l -> key x = k -> val x = None.
Proof.
  split.
  - intros H x Hx Hk. destruct (val x) as [v|] eqn:E; [|reflexivity].
    exfalso.
    destruct (in_split _ _ Hx) as (pre & post & ->).
    clear Hx. revert pre H.
    induction post as [|y post IH] using rev_ind; intros pre H.
    + rewrite fill_app, fill_cons, E in H. simpl in H.
      rewrite <- Hk, lookup_insert_eq in H. discriminate.
    + destruct (val y) as [w|] eqn:Ey; [destruct (decide (key y = k))|].
      * rewrite app_comm_cons, app_assoc, fill_app, fill_cons, Ey in H.
        simpl in H. subst k. rewrite e, lookup_insert_eq in H. discriminate.
      * apply (IH pre).
        rewrite app_comm_cons, app_assoc, fill_app, fill_cons, Ey in H.
        simpl in H. now rewrite lookup_insert_ne in H.
      * apply (IH pre).
        rewrite app_comm_cons, app_assoc, fill_app, fill_cons, Ey in H.
        exact H.
  - intros H. rewrite fill_absent by assumption. apply lookup_empty.
Qed.

End Fill.

(** A loop nested in a loop is a loop over the pairs. *)
Lemma fill_nested {A B V : Type} (inner : A -> list B)
  (key : A -> B -> string) (val : A -> B -> option V)
  (l : list A) (m : gmap string V) :
  fold_left (fun m a => fill (key a) (val a) (inner a) m) l m =
  fill (fun p => key (fst p) (snd p)) (fun p => val (fst p) (snd p))
    (flat_map (fun a => map (pair a) (inner a)) l) m.
Proof.
  revert m; induction l as [|a l IH]; intros m; simpl; [reflexivity|].
  rewrite IH, fill_app. f_equal.
  generalize (inner a) m. clear.
  intros bs; induction bs as [|b bs IH]; intros m; [reflexivity|].
  cbn [map]. rewrite !fill_cons. cbn [fst snd]. apply IH.
Qed.

End FillFacts.

(* ===================================================================== *)
(** ** Facts about assignment to a dictionary *)
(* ===================================================================== *)

Module SetFacts.
Import ObjFacts.

Section Set_.
Context {V : Type}.

Lemma get_replace (k k' : string) (v : V) (o : Obj.obj V) :
  Obj.has o k = true ->
  Obj.get (Obj.replace k v o) k' =
  if String.eqb k k' then Some v else Obj.get o k'.
Proof.
  unfold Obj.has. induction o as [|[k0 v0] o IH]; simpl; [discriminate|].
  destruct (String.eqb_spec k0 k) as [->|Hne]; simpl.
  - intros _. destruct (String.eqb_spec k k'); reflexivity.
  - intros H. destruct (String.eqb_spec k0 k') as [->|Hne'].
    + destruct (String.eqb_spec k k'); [congruence | reflexivity].
    + now apply IH.
Qed.

Lemma get_insert_index (n : N) (k k' : string) (v : V) (o : Obj.obj V) :
  Obj.has o k = false ->
  Obj.get (Obj.insert_index n k v o) k' =
  if String.eqb k k' then Some v else Obj.get o k'.
Proof.
  unfold Obj.has. induction o as [|[k0 v0] o IH]; simpl; [reflexivity|].
  destruct (String.eqb_spec k0 k) as [->|Hne]; [discriminate|].
  intros H.
  destruct (Obj.array_index k0) as [n'|]; [destruct (N.ltb n n')|];
    simpl; try reflexivity.
  destruct (String.eqb_spec k0 k') as [->|Hne'].
  - destruct (String.eqb_spec k k'); [congruence | reflexivity].
  - now apply IH.
Qed.

Lemma get_app_fresh (k k' : string) (v : V) (o : Obj.obj V) :
  Obj.has o k = false ->
  Obj.get (o ++ [(k, v)]) k' =
  if String.eqb k k' then Some v else Obj.get o k'.
Proof.
  unfold Obj.has. induction o as [|[k0 v0] o IH]; simpl; [reflexivity|].
  destruct (String.eqb_spec k0 k) as [->|Hne]; [discriminate|].
  intros H. destruct (String.eqb_spec k0 k') as [->|Hne'].
  - destruct (String.eqb_spec k k'); [congruence | reflexivity].
  - now apply IH.
Qed.

(** Reading after writing *)
Lemma get_set (k k' : string) (v : V) (o : Obj.obj V) :
  Obj.get (Obj.set k v o) k' =
  if String.eqb k k' then Some v else Obj.get o k'.
Proof.
  unfold Obj.set. destruct (Obj.has o k) eqn:H.
  - now apply get_replace.
  - destruct (Obj.array_index k); [now apply get_insert_index|].
    now apply get_app_fresh.
Qed.

Lemma insert_index_perm (n : N) (k : string) (v : V) (o : Obj.obj V) :
  Permutation (Obj.insert_index n k v o) ((k, v) :: o).
Proof.
  induction o as [|[k0 v0] o IH]; simpl; [reflexivity|].
  destruct (Obj.array_index k0) as [n'|]; [destruct (N.ltb n n')|];
    try reflexivity.
  rewrite IH. apply perm_swap.
Qed.


End Set_.

Section FoldSet.
Context {A V : Type}.
Variable key : A -> string.
Variable val : A -> V.

Lemma fold_set_get_other (l : list A) (o : Obj.obj V) (k : string) :
  (forall y, In y l -> key y <> k) ->
  Obj.get (fold_left (fun o y => Obj.set (key y) (val y) o) l o) k
  = Obj.get o k.
Proof.
  revert o; induction l as [|x l IH]; intros o H; simpl; [reflexivity|].
  rewrite IH by (intros; apply H; simpl; auto).
  rewrite get_set.
  destruct (String.eqb_spec (key x) k) as [E|_]; [|reflexivity].
  exfalso. apply (H x); simpl; auto.
Qed.

(** The last assignment to a key is what is read afterwards. *)
Lemma fold_set_get_last (l : list A) (o : Obj.obj V) (x : A) :
  RoundTripSpec.lastWithKey key l x ->
  Obj.get (fold_left (fun o y => Obj.set (key y) (val y) o) l o) (key x)
  = Some (val x).
Proof.
  intros (pre & post & -> & Hpost).
  rewrite fold_left_app. simpl.
  rewrite fold_set_get_other by assumption.
  rewrite get_set. now rewrite String.eqb_refl.
Qed.


End FoldSet.

End SetFacts.

(* ===================================================================== *)
(** ** Facts about the normalizer *)
(* ===================================================================== *)

Module NormalizerFacts.
Import JS JSFacts SchemaNormalizer RoundTripSpec ObjFacts ListFacts FillFacts
  SetFacts.

(** A table identifier without a colon can be read back from a key. *)
Lemma columnKey_inj (tableId columnId tableId' columnId' : string) :
  has_char ":"%char tableId = false ->
  has_char ":"%char tableId' = false ->
  columnKey tableId columnId = columnKey tableId' columnId' ->
  tableId = tableId' /\ columnId = columnId'.
Proof.
  unfold columnKey.
  revert tableId'; induction tableId as [|a tid IH]; intros [|a' tid'];
    simpl; intros H H' E.
  - injection E as ->. auto.
  - injection E as <- _. simpl in H'. discriminate.
  - injection E as -> _. simpl in H. discriminate.
  - injection E as -> E.
    apply orb_false_iff in H as [_ H]. apply orb_false_iff in H' as [_ H'].
    destruct (IH tid' H H' E) as [-> ->]. auto.
Qed.

(** The three maps as instances of [fill] *)
Lemma tableNameMapOf_fill (tables : list Table) :
  tableNameMapOf tables
  = fill t_id (fun t => Some (t_name t)) tables ∅.
Proof. reflexivity. Qed.

Lemma columnNameMapOf_fill (tables : list Table) :
  columnNameMapOf tables
  = fill (fun p => columnKey (t_id (fst p)) (c_id (snd p)))
      (fun p => Some (t_id (fst p), c_name (snd p)))
      (flat_map (fun t => map (pair t) (t_columns t)) tables) ∅.
Proof.
  unfold columnNameMapOf.
  apply (fill_nested t_columns
           (fun t c => columnKey (t_id t) (c_id c))
           (fun t c => Some (t_id t, c_name c))).
Qed.

Lemma foreignKeyMapOf_fill (tables : list Table) (relations : list Relation) :
  foreignKeyMapOf tables relations
  = fill (fun r => columnKey (toTableId r) (toColumnId r))
      (resolve (tableNameMapOf tables) (columnNameMapOf tables))
      relations ∅.
Proof. reflexivity. Qed.

(** A relation that is not skipped points at a table of the graph. *)
Lemma resolve_target_table (tables : list Table) (r : Relation)
  (fk : ForeignKey) :
  resolve (tableNameMapOf tables) (columnNameMapOf tables) r = Some fk ->
  exists t, In t tables /\ t_id t = toTableId r.
Proof.
  unfold resolve. intros H.
  destruct (tableNameMapOf tables !! fromTableId r); [|discriminate].
  destruct (columnNameMapOf tables !! _); [|discriminate].
  destruct (tableNameMapOf tables !! toTableId r) as [name|] eqn:E;
    [|discriminate].
  rewrite tableNameMapOf_fill in E.
  apply fill_inv in E as [E|(t & Ht & Hk & _)]; [|eauto].
  rewrite lookup_empty in E. discriminate.
Qed.

(** The metadata is made of the names that the two maps hold for the
    source end of the relation. *)
Lemma resolve_source (tables : list Table) (r : Relation) (fk : ForeignKey) :
  resolve (tableNameMapOf tables) (columnNameMapOf tables) r = Some fk ->
  tableNameMapOf tables !! fromTableId r = Some (fk_table fk)
  /\ exists info,
       columnNameMapOf tables
         !! columnKey (fromTableId r) (fromColumnId r) = Some info
       /\ snd info = fk_column fk.
Proof.
  unfold resolve. intros H.
  destruct (tableNameMapOf tables !! fromTableId r) as [s|]; [|discriminate].
  destruct (columnNameMapOf tables !! _) as [info|]; [|discriminate].
  destruct (tableNameMapOf tables !! toTableId r); [|discriminate].
  destruct (columnNameMapOf tables !! _); [|discriminate].
  destruct (truthy s && truthy _)%bool; [|discriminate].
  injection H as <-. simpl. eauto.
Qed.

(** The entry of the foreign-key map for a column is the metadata of the
    last relation into that column that is not skipped. *)
Lemma foreignKeyMap_last (tables : list Table) (pre post : list Relation)
  (r : Relation) (t : Table) (c : Column) (fk : ForeignKey) :
  (forall t', In t' tables -> has_char ":"%char (t_id t') = false) ->
  In t tables ->
  resolve (tableNameMapOf tables) (columnNameMapOf tables) r = Some fk ->
  toTableId r = t_id t -> toColumnId r = c_id c ->
  (forall r', In r' post ->
     resolve (tableNameMapOf tables) (columnNameMapOf tables) r' <> None ->
     ~ (toTableId r' = t_id t /\ toColumnId r' = c_id c)) ->
  foreignKeyMapOf tables (pre ++ r :: post)
    !! columnKey (t_id t) (c_id c) = Some fk.
Proof.
  intros Hplain Ht Hr HtoT HtoC Hpost.
  rewrite foreignKeyMapOf_fill, <- HtoT, <- HtoC.
  apply (fill_last (fun r => columnKey (toTableId r) (toColumnId r))).
  - assumption.
  - intros r' Hr' Hkey.
    destruct (resolve _ _ r') as [fk'|] eqn:E; [|reflexivity].
    exfalso. apply (Hpost r' Hr'); [congruence|].
    destruct (resolve_target_table tables r' fk' E) as (t' & Ht' & Hid).
    rewrite HtoT, HtoC in Hkey.
    apply columnKey_inj in Hkey; [assumption| |auto].
    rewrite <- Hid. auto.
Qed.

(** What [normalizeSchema] stores under the name of the last table, and
    of its last column, with that name *)
Lemma normalizeSchema_get (ts : list Table) (relations : list Relation)
  (t : Table) (c : Column) :
  lastWithKey t_name ts t ->
  lastWithKey c_name (t_columns t) c ->
  let fkMap := foreignKeyMapOf ts relations in
  Obj.get (tables (normalizeSchema ts relations)) (t_name t)
  = Some (normalizeTable fkMap t)
  /\ Obj.get (nt_columns (normalizeTable fkMap t)) (c_name c)
     = Some (normalizeColumn fkMap t c).
Proof.
  intros Ht Hc fkMap. split.
  - apply (fold_set_get_last t_name (normalizeTable fkMap)). assumption.
  - apply (fold_set_get_last c_name (normalizeColumn fkMap t)). assumption.
Qed.

(** *** The canonical schema of a well-formed graph *)

Section Graph.
Variable ts : list Table.
Variable relations : list Relation.
Hypothesis Hg : wf_graph ts relations.

#[local] Abbreviation fkMap := (foreignKeyMapOf ts relations).
#[local] Abbreviation N := (normalizeSchema ts relations).

Lemma tableNameMap_find (id : string) :
  tableNameMapOf ts !! id = t_name <$> findTable ts id.
Proof.
  rewrite tableNameMapOf_fill. unfold findTable.
  destruct (List.find _ ts) as [t|] eqn:E; simpl.
  - apply find_id_Some in E as [Ht Hid].
    apply fill_agree.
    + intros y v' Hy Hk [= <-]. f_equal.
      apply (NoDup_map_inj t_id ts); [apply Hg | assumption | assumption |].
      congruence.
    + right. exists t. auto.
  - rewrite fill_absent; [apply lookup_empty|].
    intros x Hx Hk. exfalso. exact (find_id_None _ _ _ E x Hx Hk).
Qed.

Lemma columnNameMap_find (s : Table) (cid : string) :
  In s ts ->
  columnNameMapOf ts !! columnKey (t_id s) cid
  = (fun c => (t_id s, c_name c)) <$> findColumn s cid.
Proof.
  intros Hs. rewrite columnNameMapOf_fill. unfold findColumn.
  assert (Hsame : forall p,
            In p (flat_map (fun t => map (pair t) (t_columns t)) ts) ->
            columnKey (t_id (fst p)) (c_id (snd p)) = columnKey (t_id s) cid ->
            fst p = s /\ In (snd p) (t_columns s) /\ c_id (snd p) = cid).
  { intros [t c] Hp Hk. simpl in *.
    apply in_flat_map in Hp as (t0 & Ht0 & Hp).
    apply in_map_iff in Hp as (c0 & [= -> ->] & Hc).
    apply columnKey_inj in Hk as [Hid ->]; try (apply Hg; assumption).
    assert (t = s) as ->
      by (apply (NoDup_map_inj t_id ts); [apply Hg | | |]; assumption).
    auto. }
  destruct (List.find _ (t_columns s)) as [c|] eqn:E; simpl.
  - apply find_id_Some in E as [Hc Hid].
    apply fill_agree.
    + intros p v' Hp Hk [= <-].
      destruct (Hsame p Hp Hk) as (-> & Hc' & Hid').
      do 2 f_equal.
      apply (NoDup_map_inj c_id (t_columns s));
        [now apply Hg | assumption | assumption | congruence].
    + right. exists (s, c). simpl. split; [|split; [congruence | reflexivity]].
      apply in_flat_map. exists s. split; [assumption|]. now apply in_map.
  - rewrite fill_absent; [apply lookup_empty|].
    intros p Hp Hk. exfalso.
    destruct (Hsame p Hp Hk) as (_ & Hc' & Hid').
    exact (find_id_None _ _ _ E _ Hc' Hid').
Qed.

Lemma truthy_name (t : Table) : In t ts -> truthy (t_name t) = true.
Proof.
  intros Ht. pose proof (wf_table_names_nonempty _ _ Hg t Ht).
  destruct (t_name t); [congruence | reflexivity].
Qed.

(** A relation is kept exactly when its endpoints resolve, and the
    metadata kept is the pair of source names. *)
Lemma resolve_find (r : Relation) :
  resolve (tableNameMapOf ts) (columnNameMapOf ts) r
  = match endpointNames ts r with
    | Some (T, C, _, _) => Some (mkForeignKey T C)
    | None => None
    end.
Proof.
  unfold resolve, endpointNames, namesOfIds, endpointIds.
  rewrite !tableNameMap_find. unfold findTable.
  destruct (List.find (fun t => String.eqb (t_id t) (fromTableId r)) ts)
    as [s|] eqn:Es; simpl; [|reflexivity].
  pose proof (find_id_Some _ _ _ _ Es) as [Hs Hsid].
  rewrite <- Hsid. rewrite (columnNameMap_find s _ Hs).
  destruct (findColumn s (fromColumnId r)) as [sc|] eqn:Esc; simpl.
  - destruct (List.find (fun t => String.eqb (t_id t) (toTableId r)) ts)
      as [t|] eqn:Et; simpl; [|reflexivity].
    pose proof (find_id_Some _ _ _ _ Et) as [Ht Htid].
    rewrite <- Htid. rewrite (columnNameMap_find t _ Ht).
    destruct (findColumn t (toColumnId r)) as [tc|]; simpl; [|reflexivity].
    now rewrite (truthy_name s Hs), (truthy_name t Ht).
  - destruct (List.find (fun t => String.eqb (t_id t) (toTableId r)) ts);
      reflexivity.
Qed.









End Graph.

End NormalizerFacts.

(* ===================================================================== *)
(** ** Facts about the denormalizer *)
(* ===================================================================== *)

Module DenormalizerFacts.
Import JS SchemaDenormalizer RoundTripSpec ObjFacts ListFacts.

Lemma allIds_tables (ts : list Table) :
  NoDup (allIds ts) -> NoDup (map t_id ts).
Proof.
  unfold allIds. induction ts as [|t ts IH]; simpl; intros H; [constructor|].
  apply NoDup_cons in H as [Ht H]. apply NoDup_app in H as (_ & _ & H).
  apply NoDup_cons. split; [|now apply IH].
  intros Hin. apply Ht. rewrite list_elem_of_In in *.
  apply in_app_iff. right. apply in_flat_map.
  apply in_map_iff in Hin as (t' & E & Hin). exists t'. simpl. auto.
Qed.

Lemma allIds_columns (ts : list Table) (t : Table) :
  NoDup (allIds ts) -> In t ts -> NoDup (map c_id (t_columns t)).
Proof.
  unfold allIds. induction ts as [|a ts IH]; simpl; intros H Hin;
    [destruct Hin|].
  apply NoDup_cons in H as [_ H]. apply NoDup_app in H as (Ha & _ & H).
  destruct Hin as [->|Hin]; [assumption | now apply IH].
Qed.

Section WithIds.
Variable uuid : nat -> string.
Hypothesis fresh : fresh_ids uuid.

Lemma NoDup_uuid (n len : nat) : NoDup (map uuid (seq n len)).
Proof.
  apply NoDup_ListNoDup, Finite.Injective_map_NoDup.
  - intros a b. apply fresh.
  - apply seq_NoDup.
Qed.

(** *** Step 1 *)

Lemma denormalizeColumns_spec (entries : Obj.obj NormalizedColumn) :
  forall n cm cols cm' n',
    denormalizeColumns uuid n entries cm = (cols, cm', n') ->
    n' = n + length entries
    /\ map c_id cols = map uuid (seq n (length entries))
    /\ Forall2 (fun ce c' => columnView c' = normalizedView (snd ce))
         entries cols
    /\ (forall k, ~ In k (Obj.keys entries) -> cm' !! k = cm !! k)
    /\ (NoDup (Obj.keys entries) ->
        Forall2 (fun ce c' => cm' !! fst ce = Some (c_id c')) entries cols).
Proof.
  induction entries as [|[cn nc] rest IH]; intros n cm cols cm' n' H;
    simpl in H.
  - injection H as <- <- <-. simpl.
    split; [lia|]. split; [reflexivity|]. split; [constructor|].
    split; [reflexivity | constructor].
  - destruct (denormalizeColumns uuid (S n) rest (<[cn := uuid n]> cm))
      as [[cols0 cm0] n0] eqn:E.
    injection H as <- <- <-.
    destruct (IH _ _ _ _ _ E) as (Hn & Hids & Hview & Hother & Hmap).
    simpl. split; [lia|]. split; [now rewrite Hids|].
    split; [constructor; [reflexivity | assumption]|]. split.
    + intros k Hk. rewrite Hother by tauto.
      apply lookup_insert_ne. tauto.
    + intros Hnd. apply NoDup_cons in Hnd as [Hcn Hnd].
      rewrite list_elem_of_In in Hcn.
      constructor; [|now apply Hmap].
      simpl. rewrite Hother by assumption. apply lookup_insert_eq.
Qed.

Lemma denormalizeTables_spec (E : Obj.obj NormalizedTable) :
  forall n tm ts' tm' n',
    denormalizeTables uuid n E tm = (ts', tm', n') ->
    n <= n'
    /\ allIds ts' = map uuid (seq n (n' - n))
    /\ (forall k, ~ In k (Obj.keys E) -> tm' !! k = tm !! k)
    /\ (NoDup (Obj.keys E) -> Forall2 (builtFrom tm') E ts').
Proof.
  induction E as [|[tn nt] rest IH]; intros n tm ts' tm' n' H; simpl in H.
  - injection H as <- <- <-. rewrite Nat.sub_diag. simpl.
    split; [lia|]. split; [reflexivity|]. split; [reflexivity | constructor].
  - destruct (denormalizeColumns uuid (S n) (nt_columns nt) ∅)
      as [[cols cm] n1] eqn:Ec.
    destruct (denormalizeTables uuid n1 rest (<[tn := (uuid n, cm)]> tm))
      as [[ts0 tm0] n2] eqn:Et.
    injection H as <- <- <-.
    destruct (denormalizeColumns_spec _ _ _ _ _ _ Ec)
      as (Hn1 & Hcids & Hview & Hcother & Hcmap).
    destruct (IH _ _ _ _ _ Et) as (Hle & Hids & Hother & Hbuilt).
    split; [lia|]. split; [|split].
    + unfold allIds in *. simpl. rewrite Hids, Hcids.
      replace (n2 - n) with (S (length (nt_columns nt) + (n2 - n1))) by lia.
      simpl. f_equal. rewrite seq_app, map_app. f_equal.
      replace (S n + length (nt_columns nt)) with n1 by lia. reflexivity.
    + intros k Hk. simpl in Hk. rewrite Hother by tauto.
      apply lookup_insert_ne. tauto.
    + intros Hnd. simpl in Hnd. apply NoDup_cons in Hnd as [Htn Hnd].
      rewrite list_elem_of_In in Htn.
      constructor; [|now apply Hbuilt].
      split; [reflexivity|]. split; [exact Hview|].
      exists cm. simpl. split.
      * rewrite Hother by assumption. apply lookup_insert_eq.
      * split; [|exact Hcmap].
        intros k Hk. rewrite Hcother by assumption. apply lookup_empty.
Qed.

(** *** Step 2 *)

Lemma relationsOfColumns_ids (entries : Obj.obj NormalizedColumn) :
  forall n tm info rs n',
    relationsOfColumns uuid n tm info entries = (rs, n') ->
    map endpointIds rs =
    flat_map (fun '(cn, nc) =>
                match endpointsOf tm info cn nc with
                | Some ids => [ids]
                | None => []
                end) entries.
Proof.
  induction entries as [|[cn nc] rest IH]; intros n tm info rs n' H;
    simpl in H.
  - injection H as <- <-. reflexivity.
  - simpl. destruct (endpointsOf tm info cn nc) as [[[[a b] c] d]|].
    + destruct (relationsOfColumns uuid (S n) tm info rest)
        as [rs0 n0] eqn:E.
      injection H as <- <-. simpl. f_equal. eapply IH. exact E.
    + simpl. eapply IH. exact H.
Qed.

Lemma relationsOfTables_ids (E : Obj.obj NormalizedTable) :
  forall n tm rs n',
    relationsOfTables uuid n tm E = (rs, n') ->
    map endpointIds rs =
    flat_map (fun '(tn, nt) =>
                match tm !! tn with
                | Some info =>
                    flat_map (fun '(cn, nc) =>
                                match endpointsOf tm info cn nc with
                                | Some ids => [ids]
                                | None => []
                                end) (nt_columns nt)
                | None => []
                end) E.
Proof.
  induction E as [|[tn nt] rest IH]; intros n tm rs n' H; simpl in H.
  - injection H as <- <-. reflexivity.
  - simpl. destruct (tm !! tn) as [info|].
    + destruct (relationsOfColumns uuid n tm info (nt_columns nt))
        as [rs1 n1] eqn:E1.
      destruct (relationsOfTables uuid n1 tm rest) as [rs2 n2] eqn:E2.
      injection H as <- <-. rewrite map_app. f_equal.
      * eapply relationsOfColumns_ids. exact E1.
      * eapply IH. exact E2.
    + simpl. eapply IH. exact H.
Qed.

End WithIds.


(** *** What the two steps build from a well-formed schema *)

Section Built.
Variable uuid : nat -> string.
Hypothesis fresh : fresh_ids uuid.
Variable schema : NormalizedSchema.
Hypothesis Hwf : wf_schema schema.
Hypothesis Hnames : keyed_by_name schema.
Variable ts' : list Table.
Variable tm : gmap string (string * gmap string string).
Variable n : nat.
Hypothesis Hrun : denormalizeTables uuid 0 (tables schema) ∅ = (ts', tm, n).

Lemma built_ids : NoDup (allIds ts').
Proof.
  destruct (denormalizeTables_spec uuid _ _ _ _ _ _ Hrun) as (_ & -> & _).
  now apply NoDup_uuid.
Qed.

Lemma built_all : Forall2 (builtFrom tm) (tables schema) ts'.
Proof.
  destruct (denormalizeTables_spec uuid _ _ _ _ _ _ Hrun) as (_ & _ & _ & H).
  apply H, Hwf.
Qed.

Lemma built_absent (k : string) :
  ~ In k (Obj.keys (tables schema)) -> tm !! k = None.
Proof.
  destruct (denormalizeTables_spec uuid _ _ _ _ _ _ Hrun) as (_ & _ & H & _).
  intros Hk. rewrite H by assumption. apply lookup_empty.
Qed.

Lemma wf_entry (tn : string) (nt : NormalizedTable) :
  In (tn, nt) (tables schema) -> NoDup (Obj.keys (nt_columns nt)).
Proof.
  intros Hin. destruct Hwf as [_ Hall].
  rewrite List.Forall_forall in Hall. apply (Hall nt).
  apply In_values. eauto.
Qed.

Lemma built_lookup (tn : string) (nt : NormalizedTable) :
  In (tn, nt) (tables schema) ->
  exists t' cm,
    In t' ts' /\ t_name t' = tn /\ tm !! tn = Some (t_id t', cm)
    /\ map columnView (t_columns t')
       = map (fun ce => normalizedView (snd ce)) (nt_columns nt)
    /\ (forall k, ~ In k (Obj.keys (nt_columns nt)) -> cm !! k = None)
    /\ (forall cn nc,
          In (cn, nc) (nt_columns nt) ->
          exists c', In c' (t_columns t') /\ c_name c' = cn
                     /\ cm !! cn = Some (c_id c')).
Proof.
  intros Hin.
  destruct (Forall2_In_l _ _ _ _ built_all Hin)
    as (t' & Ht' & Hname & Hview & cm & Hcm & Hnone & Hmap).
  simpl in *. destruct (Hnames tn nt Hin) as [Hkey Hckey].
  exists t', cm. split; [assumption|]. split; [congruence|].
  split; [assumption|]. split; [now apply Forall2_map_eq|].
  split; [assumption|].
  intros cn nc Hc.
  specialize (Hmap (wf_entry tn nt Hin)).
  destruct (Forall2_In_l _ _ _ _ (Forall2_and _ _ _ _ Hview Hmap) Hc)
    as (c' & Hc' & Hv & Hid).
  simpl in *. exists c'. split; [assumption|]. split; [|assumption].
  rewrite <- (Hckey cn nc Hc).
  unfold columnView, normalizedView in Hv. congruence.
Qed.

Lemma built_truthy (t' : Table) (c' : Column) :
  In t' ts' -> In c' (t_columns t') -> truthy (c_id c') = true.
Proof.
  intros Ht' Hc'.
  assert (Hin : In (c_id c') (allIds ts')).
  { unfold allIds. apply in_flat_map. exists t'. split; [assumption|].
    right. now apply in_map. }
  destruct (denormalizeTables_spec uuid _ _ _ _ _ _ Hrun) as (_ & E & _).
  rewrite E in Hin. apply in_map_iff in Hin as (k & Hk & _).
  destruct fresh as [_ Hne]. specialize (Hne k). rewrite Hk in Hne.
  destruct (c_id c'); [congruence | reflexivity].
Qed.

(** The relation pushed for a foreign key whose target exists *)
Lemma endpoints_resolved (tn cn : string) (nt target : NormalizedTable)
  (nc ncT : NormalizedColumn) (fk : ForeignKey) :
  In (tn, nt) (tables schema) ->
  In (cn, nc) (nt_columns nt) ->
  nc_foreignKey nc = Some fk ->
  In (fk_table fk, target) (tables schema) ->
  In (fk_column fk, ncT) (nt_columns target) ->
  exists info ids,
    tm !! tn = Some info
    /\ endpointsOf tm info cn nc = Some ids
    /\ namesOfIds ts' ids = Some (fk_table fk, fk_column fk, tn, cn).
Proof.
  intros Hnt Hnc Hfk Htarget HncT.
  destruct (built_lookup tn nt Hnt)
    as (t0 & cm0 & Ht0 & Hname0 & Htm0 & _ & _ & Hcols0).
  destruct (Hcols0 cn nc Hnc) as (c0 & Hc0 & Hcname & Hcm).
  destruct (built_lookup _ target Htarget)
    as (tT & cmT & HtT & HnameT & HtmT & _ & _ & HcolsT).
  destruct (HcolsT _ ncT HncT) as (cT & HcT & HcTname & HcmT).
  exists (t_id t0, cm0), (t_id tT, c_id cT, t_id t0, c_id c0).
  split; [assumption|]. split.
  - unfold endpointsOf. rewrite Hfk, HtmT. simpl. rewrite Hcm, HcmT.
    rewrite (built_truthy t0 c0), (built_truthy tT cT) by assumption.
    reflexivity.
  - pose proof built_ids as Hnd. unfold namesOfIds, findTable, findColumn.
    rewrite (find_by_id t_id ts' tT), (find_by_id t_id ts' t0)
      by (try apply allIds_tables; assumption).
    rewrite (find_by_id c_id (t_columns tT) cT),
      (find_by_id c_id (t_columns t0) c0)
      by (try (eapply allIds_columns; eassumption); assumption).
    congruence.
Qed.


End Built.

End DenormalizerFacts.

(* ===================================================================== *)
(** ** Facts about the checks on names *)
(* ===================================================================== *)

Module NameFacts.
Import JS JSFacts SchemaValidator ValidatorSpec.

Lemma drop_spaces_nil (s : string) :
  drop_spaces s = EmptyString <-> all_chars is_space s = true.
Proof.
  induction s as [|a s IH]; simpl; [tauto|].
  destruct (is_space a); simpl; [exact IH|].
  split; discriminate.
Qed.

Lemma drop_spaces_head (s : string) (a : ascii) (r : string) :
  drop_spaces s = String a r -> is_space a = false.
Proof.
  induction s as [|b s IH]; simpl; [discriminate|].
  destruct (is_space b) eqn:E; [exact IH|].
  intros [= <- _]. exact E.
Qed.

Lemma drop_spaces_last (x : string) (a : ascii) :
  is_space a = false ->
  drop_spaces (x +:+ String a EmptyString) <> EmptyString.
Proof.
  intros Ha. induction x as [|b x IH]; simpl.
  - rewrite Ha. discriminate.
  - destruct (is_space b); [exact IH | discriminate].
Qed.

Lemma str_rev_nil (s : string) : str_rev s = EmptyString -> s = EmptyString.
Proof.
  destruct s as [|a s]; [reflexivity|]. simpl.
  destruct (str_rev s); discriminate.
Qed.

Lemma trim_nil (s : string) :
  trim s = EmptyString <-> all_chars is_space s = true.
Proof.
  unfold trim. split.
  - intros H. apply str_rev_nil in H.
    destruct (drop_spaces s) as [|a r] eqn:E; [now apply drop_spaces_nil|].
    exfalso. simpl in H.
    exact (drop_spaces_last _ a (drop_spaces_head _ _ _ E) H).
  - intros H. apply drop_spaces_nil in H. rewrite H. reflexivity.
Qed.

Lemma isBlank_spec (s : string) : isBlank s = true <-> Blank s.
Proof.
  unfold isBlank, Blank. destruct s as [|a s]; [simpl; tauto|].
  cbn [truthy negb orb]. rewrite Nat.eqb_eq, <- trim_nil.
  destruct (trim (String a s)); simpl; split; congruence.
Qed.

Lemma prefix_spec (sub s : string) :
  String.prefix sub s = true <-> exists q, s = sub +:+ q.
Proof.
  revert s; induction sub as [|a sub IH]; intros s; simpl.
  - split; [eauto | intros _; destruct s; reflexivity].
  - destruct s as [|b s]; [split; [discriminate | intros [q [=]]]|].
    cbn [String.prefix]. destruct (Ascii.ascii_dec a b) as [->|Hne].
    + rewrite IH. split; intros [q E]; exists q; congruence.
    + split; [discriminate | intros [q [= E _]]; congruence].
Qed.

Lemma includes_unfold (s sub : string) :
  includes s sub =
  if String.prefix sub s then true
  else match s with
       | EmptyString => false
       | String _ r => includes r sub
       end.
Proof. destruct s; reflexivity. Qed.

Lemma includes_spec (s sub : string) :
  includes s sub = true <-> Contains s sub.
Proof.
  unfold Contains. split.
  - induction s as [|a s IH]; rewrite includes_unfold;
      destruct (String.prefix sub _) eqn:E.
    + intros _. apply prefix_spec in E as [q ->]. exists EmptyString, q.
      reflexivity.
    + discriminate.
    + intros _. apply prefix_spec in E as [q ->]. exists EmptyString, q.
      reflexivity.
    + intros H. destruct (IH H) as (p & q & ->).
      exists (String a p), q. reflexivity.
  - intros (p & q & ->). induction p as [|a p IH]; rewrite includes_unfold.
    + simpl. rewrite (proj2 (prefix_spec sub (sub +:+ q))) by eauto.
      reflexivity.
    + destruct (String.prefix sub _); [reflexivity | exact IH].
Qed.

Lemma lower_not_space (a : ascii) : is_lower a = true -> is_space a = false.
Proof.
  destruct a as [[] [] [] [] [] [] [] []]; vm_compute; congruence.
Qed.

Lemma isSnakeCase_spec (name : string) :
  isSnakeCase name = true <-> SnakeCase name.
Proof.
  unfold isSnakeCase, SnakeCase. split.
  - destruct (isBlank name); [discriminate|].
    destruct (snakeCaseRegex name) eqn:Hre; [|discriminate].
    destruct (includes name "__") eqn:Hinc; [discriminate|].
    intros _. destruct name as [|a r]; [discriminate|].
    exists a, r. split; [reflexivity|]. simpl in Hre.
    assert (Hno : ~ Contains (String a r) "__").
    { intros H. apply includes_spec in H. congruence. }
    apply orb_true_iff in Hre as [H|H].
    + apply andb_true_iff in H as [Ha Hr]. auto.
    + apply andb_true_iff in H as [H Hr].
      apply andb_true_iff in H as [Ha Ht].
      apply Ascii.eqb_eq in Ha. split; [|auto].
      right. split; [assumption|]. intros ->. discriminate.
  - intros (a & r & -> & Hhead & Hr & Hno).
    assert (Hblank : isBlank (String a r) = false).
    { destruct (isBlank (String a r)) eqn:E; [|reflexivity].
      apply isBlank_spec in E. unfold Blank in E. simpl in E.
      apply andb_true_iff in E as [E _].
      destruct Hhead as [Ha|[-> _]];
        [rewrite (lower_not_space a Ha) in E|]; discriminate. }
    assert (Hre : snakeCaseRegex (String a r) = true).
    { cbn [snakeCaseRegex]. rewrite Hr, !andb_true_r.
      destruct Hhead as [->|[-> Hne]]; [reflexivity|].
      destruct r; [congruence | reflexivity]. }
    assert (Hinc : includes (String a r) "__" = false).
    { destruct (includes (String a r) "__") eqn:E; [|reflexivity].
      exfalso. apply Hno. now apply includes_spec. }
    rewrite Hblank, Hre, Hinc. reflexivity.
Qed.

Lemma isReservedKeyword_spec (name : string) :
  isReservedKeyword name = true <-> Reserved name.
Proof.
  unfold isReservedKeyword, Reserved. rewrite existsb_exists. split.
  - intros (x & Hx & ->%String.eqb_eq). assumption.
  - intros H. exists (toLowerCase name). split; [assumption|].
    apply String.eqb_refl.
Qed.

Lemma reserved_not_empty (name : string) :
  Reserved name -> name <> EmptyString.
Proof.
  intros H ->. vm_compute in H. intuition discriminate.
Qed.

Lemma truthy_spec (s : string) : truthy s = true <-> s <> EmptyString.
Proof. destruct s; simpl; split; congruence. Qed.

Lemma toLowerCase_nil (s : string) :
  toLowerCase s = EmptyString -> s = EmptyString.
Proof. destruct s; [reflexivity | discriminate]. Qed.

End NameFacts.

(* ===================================================================== *)
(** ** Facts about the loops of the validator *)
(* ===================================================================== *)

Module LoopFacts.
Import JS SchemaValidator ValidatorSpec NameFacts.

Lemma In_when {E : Type} (b : bool) (x e : E) :
  In e (if b then [x] else []) <-> b = true /\ e = x.
Proof.
  destruct b; simpl; split.
  - intros [<-|[]]. auto.
  - intros [_ ->]. now left.
  - intros [].
  - intros [? _]. discriminate.
Qed.

(** What a loop pushes, it pushes at some entry, in the state that the
    entries before it have left. *)
Lemma scan_In {S X E : Type} (body : S -> X -> list E) (step : S -> X -> S)
  (l : list X) :
  forall (st : S) (e : E),
    In e (scan body step st l)
    <-> exists pre x post,
          l = pre ++ x :: post /\ In e (body (fold_left step pre st) x).
Proof.
  induction l as [|x rest IH]; intros st e; simpl.
  - split; [intros [] | intros (pre & y & post & Hl & _)].
    destruct pre; discriminate.
  - rewrite in_app_iff, IH. split.
    + intros [H|(pre & y & post & -> & H)].
      * exists [], x, rest. auto.
      * exists (x :: pre), y, post. auto.
    + intros (pre & y & post & Hl & H). destruct pre as [|z pre].
      * injection Hl as -> ->. now left.
      * injection Hl as -> ->. right. eauto.
Qed.

Lemma validateTablesFrom_scan (entries : Obj.obj NormalizedTable) :
  forall seen,
    validateTablesFrom seen entries
    = scan (fun s '(tableName, t) => tableErrors s tableName t)
        (fun s '(_, t) => noteName (nt_name t) s) seen entries.
Proof.
  induction entries as [|[tableName t] rest IH]; intros seen; simpl;
    [reflexivity | now rewrite IH].
Qed.

Lemma validateColumnsFrom_scan (tableName : string) (t : NormalizedTable)
  (entries : Obj.obj NormalizedColumn) :
  forall seen,
    validateColumnsFrom tableName t seen entries
    = scan (fun s '(columnName, c) => columnErrors tableName t s columnName c)
        (fun s '(_, c) => noteName (nc_name c) s) seen entries.
Proof.
  induction entries as [|[columnName c] rest IH]; intros seen; simpl;
    [reflexivity | now rewrite IH].
Qed.

Lemma validateDefaultsFrom_scan (tableName : string) (t : NormalizedTable)
  (entries : Obj.obj NormalizedColumn) :
  forall seen,
    validateDefaultsFrom tableName t seen entries
    = scan (fun s '(columnName, c) => defaultErrors tableName t s columnName c)
        (fun s '(_, c) => (s || isAutoincrement c)%bool) seen entries.
Proof.
  induction entries as [|[columnName c] rest IH]; intros seen; simpl;
    [reflexivity | now rewrite IH].
Qed.

(** The set of names seen holds the lower-cased non-empty names met. *)
Lemma seen_names {V : Type} (name_of : V -> string) (pre : Obj.obj V) :
  forall (seen : gset string) (x : string),
    x ∈ fold_left (fun s '(_, v) => noteName (name_of v) s) pre seen
    <-> x ∈ seen
        \/ exists k v, In (k, v) pre /\ name_of v <> EmptyString
                       /\ toLowerCase (name_of v) = x.
Proof.
  induction pre as [|[k v] pre IH]; intros seen x; simpl.
  - split; [auto | intros [H|(? & ? & [] & _)]; exact H].
  - rewrite IH. unfold noteName. split.
    + intros [H|(k' & v' & Hin & Hne & E)].
      * destruct (truthy (name_of v)) eqn:Ht; [|auto].
        apply elem_of_union in H as [H|H%elem_of_singleton]; [auto|].
        right. exists k, v. apply truthy_spec in Ht. auto.
      * right. exists k', v'. auto.
    + intros [H|(k' & v' & [Heq|Hin] & Hne & E)].
      * left. destruct (truthy (name_of v)); set_solver.
      * injection Heq as -> ->. left. apply truthy_spec in Hne.
        rewrite Hne. set_solver.
      * right. exists k', v'. auto.
Qed.

Lemma seen_autoincrement (pre : Obj.obj NormalizedColumn) :
  forall seen : bool,
    fold_left (fun s '(_, c) => (s || isAutoincrement c)%bool) pre seen = true
    <-> seen = true
        \/ exists k c, In (k, c) pre /\ isAutoincrement c = true.
Proof.
  induction pre as [|[k c] pre IH]; intros seen; simpl.
  - split; [auto | intros [H|(? & ? & [] & _)]; exact H].
  - rewrite IH, orb_true_iff. split.
    + intros [[H|H]|(k' & c' & Hin & H)]; [auto | right | right].
      * exists k, c. auto.
      * exists k', c'. auto.
    + intros [Hs|(k' & c' & [Heq|Hin] & Hauto)]; [auto | |].
      * injection Heq as -> ->. auto.
      * right. exists k', c'. auto.
Qed.

Lemma isAutoincrement_spec (c : NormalizedColumn) :
  isAutoincrement c = true <-> kindOf c = Some k_autoincrement.
Proof.
  unfold isAutoincrement, kindOf. destruct (nc_default c) as [d|]; simpl.
  - destruct (d_kind d); simpl; split; congruence.
  - split; discriminate.
Qed.

(** Every selected entry but the first one *)
Lemma In_tl_selected {X K : Type} (p : X -> bool) (g : X -> K) (l : list X)
  (k : K) :
  In k (tl (flat_map (fun x => if p x then [g x] else []) l))
  <-> exists pre x post y,
        l = pre ++ x :: post /\ p x = true /\ g x = k
        /\ In y pre /\ p y = true.
Proof.
  induction l as [|a rest IH].
  - simpl. split; [intros [] | intros (pre & x & post & y & E & _)].
    destruct pre; discriminate.
  - cbn [flat_map]. destruct (p a) eqn:Hpa; cbn [app tl].
    + rewrite in_flat_map. split.
      * intros (x & Hx & Hk). destruct (p x) eqn:Hpx; [|destruct Hk].
        destruct Hk as [<-|[]].
        apply in_split in Hx as (l1 & l2 & ->).
        exists (a :: l1), x, l2, a. simpl. repeat split; auto.
      * intros (pre & x & post & y & E & Hpx & <- & Hy & Hpy).
        destruct pre as [|b pre]; [destruct Hy|]. injection E as -> ->.
        exists x. split; [apply in_elt|]. rewrite Hpx. now left.
    + rewrite IH. split.
      * intros (pre & x & post & y & -> & Hpx & Hk & Hy & Hpy).
        exists (a :: pre), x, post, y. simpl. repeat split; auto.
      * intros (pre & x & post & y & E & Hpx & Hk & Hy & Hpy).
        destruct pre as [|b pre]; [destruct Hy|]. injection E as -> ->.
        destruct Hy as [->|Hy]; [congruence|].
        exists pre, x, post, y. repeat split; auto.
Qed.

End LoopFacts.

(* ===================================================================== *)
(** ** The validator reports exactly the violations *)
(* ===================================================================== *)

Module ValidatorFacts.
Import JS SchemaValidator ValidatorSpec NameFacts LoopFacts.

Lemma not_snake_case (name : string) :
  (truthy name && negb (isSnakeCase name))%bool = true
  <-> name <> EmptyString /\ ~ SnakeCase name.
Proof.
  rewrite andb_true_iff, truthy_spec, negb_true_iff, <- isSnakeCase_spec.
  destruct (isSnakeCase name); intuition congruence.
Qed.

Lemma reserved (name : string) :
  (truthy name && isReservedKeyword name)%bool = true <-> Reserved name.
Proof.
  rewrite andb_true_iff, truthy_spec, isReservedKeyword_spec.
  pose proof (reserved_not_empty name). tauto.
Qed.

Lemma seen_before (name : string) (seen : gset string) :
  (truthy name && bool_decide (toLowerCase name ∈ seen))%bool = true
  <-> name <> EmptyString /\ toLowerCase name ∈ seen.
Proof. now rewrite andb_true_iff, truthy_spec, bool_decide_eq_true. Qed.

Lemma no_entries {V : Type} (o : Obj.obj V) :
  Nat.eqb (length (Obj.keys o)) 0 = true <-> o = [].
Proof.
  rewrite Nat.eqb_eq. unfold Obj.keys. destruct o; simpl; split; congruence.
Qed.

Lemma same_name_not_empty (a b : string) :
  toLowerCase a = toLowerCase b -> b <> EmptyString -> a <> EmptyString.
Proof.
  intros E Hb ->. apply Hb. apply toLowerCase_nil. now rewrite <- E.
Qed.

Lemma tableErrors_In (seen : gset string) (tableName : string)
  (t : NormalizedTable) (e : ValidationError) :
  In e (tableErrors seen tableName t)
  <-> (Blank (nt_name t) /\ e = err_table_empty_name tableName)
      \/ ((nt_name t <> EmptyString /\ ~ SnakeCase (nt_name t))
          /\ e = err_table_not_snake_case tableName (nt_name t))
      \/ (Reserved (nt_name t)
          /\ e = err_table_reserved_keyword tableName (nt_name t))
      \/ ((nt_name t <> EmptyString /\ toLowerCase (nt_name t) ∈ seen)
          /\ e = err_table_duplicate tableName (nt_name t))
      \/ (nt_columns t = []
          /\ e = err_table_no_columns tableName (nt_name t)).
Proof.
  unfold tableErrors. cbv zeta.
  rewrite !in_app_iff, !In_when.
  now rewrite isBlank_spec, not_snake_case, reserved, seen_before, no_entries.
Qed.

Lemma validateTables_spec (schema : NormalizedSchema) (e : ValidationError) :
  In e (validateTables schema) <-> TableViolation schema e.
Proof.
  unfold validateTables. rewrite validateTablesFrom_scan, scan_In. split.
  - intros (pre & [tableName t] & post & Hsplit & Hin).
    assert (Ht : In (tableName, t) (tables schema))
      by (rewrite Hsplit; apply in_elt).
    apply tableErrors_In in Hin
      as [[H ->]|[[[H1 H2] ->]|[[H ->]|[[[H1 H2] ->]|[H ->]]]]].
    + eapply v_table_empty_name; eauto.
    + eapply v_table_not_snake_case; eauto.
    + eapply v_table_reserved_keyword; eauto.
    + apply (seen_names nt_name) in H2 as [H2|(k & v & Hk & _ & Hv)];
        [set_solver|].
      eapply v_table_duplicate; eauto.
    + eapply v_table_no_columns; eauto.
  - intros Hv.
    destruct Hv as [tableName t Ht Hb|tableName t Ht Hne Hns|tableName t Ht Hr
                   |pre tableName t post tableName' t' Hsplit Hin Hne Hsame
                   |tableName t Ht Hnil].
    1-3, 5: apply in_split in Ht as (pre & post & Hsplit);
      exists pre, (tableName, t), post; (split; [assumption|]);
      apply tableErrors_In; tauto.
    exists pre, (tableName, t), post. split; [assumption|].
    apply tableErrors_In. do 3 right. left. split; [|reflexivity].
    split; [assumption|]. apply (seen_names nt_name). right.
    exists tableName', t'. split; [assumption|]. split; [|assumption].
    eapply same_name_not_empty; eauto.
Qed.

Lemma columnErrors_In (tableName : string) (t : NormalizedTable)
  (seen : gset string) (columnName : string) (c : NormalizedColumn)
  (e : ValidationError) :
  In e (columnErrors tableName t seen columnName c)
  <-> (Blank (nc_name c) /\ e = err_column_empty_name tableName columnName)
      \/ ((nc_name c <> EmptyString /\ ~ SnakeCase (nc_name c))
          /\ e = err_column_not_snake_case tableName columnName (nc_name c))
      \/ ((nc_name c <> EmptyString /\ toLowerCase (nc_name c) ∈ seen)
          /\ e = err_column_duplicate tableName columnName (nc_name c)
                   (nt_name t))
      \/ (Blank (nc_type c)
          /\ e = err_column_no_type tableName columnName (nc_name c)
                   (nt_name t)).
Proof.
  unfold columnErrors. cbv zeta.
  rewrite !in_app_iff, !In_when.
  now rewrite !isBlank_spec, not_snake_case, seen_before.
Qed.

Lemma primaryKeysOf_selected (t : NormalizedTable) :
  primaryKeysOf t
  = flat_map (fun x => if nc_primaryKey (snd x) then [fst x] else [])
      (nt_columns t).
Proof.
  unfold primaryKeysOf. apply flat_map_ext. intros [columnName c].
  reflexivity.
Qed.

Lemma multiplePkErrors_In (tableName : string) (t : NormalizedTable)
  (e : ValidationError) :
  In e (multiplePkErrors tableName t)
  <-> exists pre columnName c post columnName' c',
        splitAt (nt_columns t) pre (columnName, c) post
        /\ In (columnName', c') pre
        /\ nc_primaryKey c' = true /\ nc_primaryKey c = true
        /\ e = err_column_multiple_pk tableName columnName (nt_name t).
Proof.
  unfold multiplePkErrors, splitAt.
  rewrite in_map_iff, primaryKeysOf_selected. split.
  - intros (k & <- & Hk).
    apply In_tl_selected in Hk
      as (pre & [columnName c] & post & [columnName' c'] & Hsplit & Hpk & Hg
          & Hin & Hpk').
    simpl in *. subst k. exists pre, columnName, c, post, columnName', c'.
    auto.
  - intros (pre & columnName & c & post & columnName' & c' & Hsplit & Hin
            & Hpk' & Hpk & ->).
    exists columnName. split; [reflexivity|]. apply In_tl_selected.
    exists pre, (columnName, c), post, (columnName', c'). auto.
Qed.

Lemma validateColumns_spec (schema : NormalizedSchema) (e : ValidationError) :
  In e (validateColumns schema) <-> ColumnViolation schema e.
Proof.
  unfold validateColumns. rewrite in_flat_map. split.
  - intros ([tableName t] & Ht & Hin). apply in_app_iff in Hin as [Hin|Hin].
    + rewrite validateColumnsFrom_scan in Hin.
      apply scan_In in Hin as (pre & [columnName c] & post & Hsplit & Hin).
      assert (Hc : In (columnName, c) (nt_columns t))
        by (rewrite Hsplit; apply in_elt).
      apply columnErrors_In in Hin
        as [[H ->]|[[[H1 H2] ->]|[[[H1 H2] ->]|[H ->]]]].
      * eapply v_column_empty_name; eauto.
      * eapply v_column_not_snake_case; eauto.
      * apply (seen_names nc_name) in H2 as [H2|(k & v & Hk & _ & Hv)];
          [set_solver|].
        eapply v_column_duplicate; eauto.
      * eapply v_column_no_type; eauto.
    + apply multiplePkErrors_In in Hin
        as (pre & columnName & c & post & columnName' & c' & Hsplit & Hin
            & Hpk' & Hpk & ->).
      eapply v_column_multiple_pk; eauto.
  - intros Hv.
    destruct Hv
      as [tableName t columnName c Ht Hc Hb
         |tableName t columnName c Ht Hc Hne Hns
         |tableName t pre columnName c post columnName' c' Ht Hsplit Hin
            Hne Hsame
         |tableName t columnName c Ht Hc Hb
         |tableName t pre columnName c post columnName' c' Ht Hsplit Hin
            Hpk' Hpk];
      exists (tableName, t); (split; [assumption|]); apply in_app_iff.
    1, 2, 4: left; rewrite validateColumnsFrom_scan; apply scan_In;
      apply in_split in Hc as (pre & post & Hsplit);
      exists pre, (columnName, c), post; (split; [assumption|]);
      apply columnErrors_In; tauto.
    + left. rewrite validateColumnsFrom_scan. apply scan_In.
      exists pre, (columnName, c), post. split; [assumption|].
      apply columnErrors_In. do 2 right. left. split; [|reflexivity].
      split; [assumption|]. apply (seen_names nc_name). right.
      exists columnName', c'. split; [assumption|]. split; [|assumption].
      eapply same_name_not_empty; eauto.
    + right. apply multiplePkErrors_In.
      exists pre, columnName, c, post, columnName', c'. auto.
Qed.

Lemma type_mismatch (a b : string) :
  (truthy a && truthy b && negb (String.eqb a b))%bool = true
  <-> a <> EmptyString /\ b <> EmptyString /\ a <> b.
Proof.
  rewrite !andb_true_iff, !truthy_spec, negb_true_iff, String.eqb_neq.
  tauto.
Qed.

Lemma foreignKeyErrors_In (schema : NormalizedSchema) (tableName : string)
  (t : NormalizedTable) (columnName : string) (c : NormalizedColumn)
  (e : ValidationError) :
  In e (foreignKeyErrors schema tableName t columnName c)
  <-> exists fk,
        nc_foreignKey c = Some fk
        /\ ((Obj.get (tables schema) (fk_table fk) = None
             /\ e = err_fk_table_not_found tableName columnName (nc_name c)
                      (nt_name t) (fk_table fk))
            \/ (exists target,
                  Obj.get (tables schema) (fk_table fk) = Some target
                  /\ Obj.get (nt_columns target) (fk_column fk) = None
                  /\ e = err_fk_column_not_found tableName columnName
                           (nc_name c) (nt_name t) (fk_table fk)
                           (fk_column fk))
            \/ (exists target rc,
                  Obj.get (tables schema) (fk_table fk) = Some target
                  /\ Obj.get (nt_columns target) (fk_column fk) = Some rc
                  /\ ((nc_primaryKey rc = false
                       /\ e = err_fk_not_primary_key tableName columnName
                                (nc_name c) (nt_name t) (fk_table fk)
                                (fk_column fk))
                      \/ ((nc_type c <> EmptyString
                           /\ nc_type rc <> EmptyString
                           /\ nc_type c <> nc_type rc)
                          /\ e = err_fk_type_mismatch tableName columnName
                                   (nc_name c) (nt_name t) (nc_type c)
                                   (fk_table fk) (fk_column fk)
                                   (nc_type rc))))).
Proof.
  unfold foreignKeyErrors.
  destruct (nc_foreignKey c) as [fk|];
    [|split; [intros [] | intros (fk & [=] & _)]].
  cbv zeta.
  destruct (Obj.get (tables schema) (fk_table fk)) as [target|] eqn:Ht.
  - destruct (Obj.get (nt_columns target) (fk_column fk)) as [rc|] eqn:Hc.
    + rewrite in_app_iff, !In_when, negb_true_iff, type_mismatch. split.
      * intros H. exists fk. split; [reflexivity|]. do 2 right.
        exists target, rc. auto.
      * intros (fk' & [= <-] & [[E _]|[(tg & E & En & _)
                                      |(tg & rc' & E & Er & H)]]);
          [congruence | |].
        -- assert (tg = target) by congruence. subst tg. congruence.
        -- assert (tg = target) by congruence. subst tg.
           assert (rc' = rc) by congruence. subst rc'. exact H.
    + split.
      * intros [<-|[]]. exists fk. split; [reflexivity|]. right. left.
        exists target. auto.
      * intros (fk' & [= <-] & [[E _]|[(tg & E & _ & ->)
                                      |(tg & rc' & E & Er & _)]]);
          [congruence | now left |].
        assert (tg = target) by congruence. subst tg. congruence.
  - split.
    + intros [<-|[]]. exists fk. auto.
    + intros (fk' & [= <-] & [[_ ->]|[(tg & E & _)|(tg & rc' & E & _)]]);
        [now left | congruence | congruence].
Qed.

Lemma validateForeignKeys_spec (schema : NormalizedSchema)
  (e : ValidationError) :
  In e (validateForeignKeys schema) <-> ForeignKeyViolation schema e.
Proof.
  unfold validateForeignKeys. rewrite in_flat_map. split.
  - intros ([tableName t] & Ht & Hin).
    apply in_flat_map in Hin as ([columnName c] & Hc & Hin).
    apply foreignKeyErrors_In in Hin
      as (fk & Hfk & [[Hn ->]|[(target & Hs & Hn & ->)
                              |(target & rc & Hs & Hr
                                & [[Hpk ->]|[(H1 & H2 & H3) ->]])]]).
    + eapply v_fk_table_not_found; eauto.
    + eapply v_fk_column_not_found; eauto.
    + eapply v_fk_not_primary_key; eauto.
    + eapply v_fk_type_mismatch; eauto.
  - intros Hv.
    destruct Hv
      as [tableName t columnName c fk Ht Hc Hfk Hn
         |tableName t columnName c fk target Ht Hc Hfk Hs Hn
         |tableName t columnName c fk target rc Ht Hc Hfk Hs Hr Hpk
         |tableName t columnName c fk target rc Ht Hc Hfk Hs Hr H1 H2 H3];
      exists (tableName, t); (split; [assumption|]);
      apply in_flat_map; exists (columnName, c); (split; [assumption|]);
      apply foreignKeyErrors_In; exists fk; (split; [assumption|]).
    + left. auto.
    + right. left. exists target. auto.
    + do 2 right. exists target, rc. do 2 (split; [assumption|]).
      left. auto.
    + do 2 right. exists target, rc. do 2 (split; [assumption|]).
      right. auto.
Qed.

Lemma defaultErrors_In (tableName : string) (t : NormalizedTable)
  (seen : bool) (columnName : string) (c : NormalizedColumn)
  (e : ValidationError) :
  In e (defaultErrors tableName t seen columnName c)
  <-> (kindOf c = Some k_autoincrement
       /\ ((seen = true
            /\ e = err_multiple_autoincrement tableName columnName (nt_name t))
           \/ (nc_type c <> "int"
               /\ e = err_autoincrement_not_int tableName columnName
                        (nc_name c) (nt_name t) (nc_type c))
           \/ (nc_primaryKey c = false
               /\ e = err_autoincrement_not_pk tableName columnName
                        (nc_name c) (nt_name t))))
      \/ (kindOf c = Some k_uuid
          /\ nc_type c = "int"
          /\ e = err_uuid_on_int tableName columnName (nc_name c) (nt_name t))
      \/ (kindOf c = Some k_now
          /\ nc_type c <> "timestamp"
          /\ e = err_now_not_timestamp tableName columnName (nc_name c)
                   (nt_name t) (nc_type c)).
Proof.
  unfold defaultErrors, kindOf.
  destruct (nc_default c) as [d|]; cbn [option_map];
    [|split; [intros [] | intros [[[=] _]|[[[=] _]|[[=] _]]]]].
  destruct (d_kind d).
  - rewrite !in_app_iff, !In_when, !negb_true_iff, String.eqb_neq. split.
    + intros H. left. split; [reflexivity | exact H].
    + intros [[_ H]|[[[=] _]|[[=] _]]]. exact H.
  - rewrite In_when, String.eqb_eq. split.
    + intros H. right. left. split; [reflexivity | exact H].
    + intros [[[=] _]|[[_ H]|[[=] _]]]. exact H.
  - rewrite In_when, negb_true_iff, String.eqb_neq. split.
    + intros H. do 2 right. split; [reflexivity | exact H].
    + intros [[[=] _]|[[[=] _]|[_ H]]]. exact H.
  - split; [intros [] | intros [[[=] _]|[[[=] _]|[[=] _]]]].
Qed.

Lemma validateDefaults_spec (schema : NormalizedSchema)
  (e : ValidationError) :
  In e (validateDefaults schema) <-> DefaultViolation schema e.
Proof.
  unfold validateDefaults. rewrite in_flat_map. split.
  - intros ([tableName t] & Ht & Hin).
    rewrite validateDefaultsFrom_scan in Hin.
    apply scan_In in Hin as (pre & [columnName c] & post & Hsplit & Hin).
    assert (Hc : In (columnName, c) (nt_columns t))
      by (rewrite Hsplit; apply in_elt).
    apply defaultErrors_In in Hin
      as [[Hk [[Hseen ->]|[[Hty ->]|[Hpk ->]]]]
         |[(Hk & Hty & ->)|(Hk & Hty & ->)]].
    + apply seen_autoincrement in Hseen as [[=]|(k' & c' & Hin' & Hauto)].
      apply isAutoincrement_spec in Hauto.
      eapply v_multiple_autoincrement; eauto.
    + eapply v_autoincrement_not_int; eauto.
    + eapply v_autoincrement_not_pk; eauto.
    + eapply v_uuid_on_int; eauto.
    + eapply v_now_not_timestamp; eauto.
  - intros Hv.
    destruct Hv
      as [tableName t pre columnName c post columnName' c' Ht Hsplit Hin
            Hk' Hk
         |tableName t columnName c Ht Hc Hk Hty
         |tableName t columnName c Ht Hc Hk Hpk
         |tableName t columnName c Ht Hc Hk Hty
         |tableName t columnName c Ht Hc Hk Hty];
      exists (tableName, t); (split; [assumption|]);
      rewrite validateDefaultsFrom_scan; apply scan_In.
    2-5: apply in_split in Hc as (pre & post & Hsplit);
      exists pre, (columnName, c), post; (split; [assumption|]);
      apply defaultErrors_In; tauto.
    exists pre, (columnName, c), post. split; [assumption|].
    apply defaultErrors_In. left. split; [assumption|]. left.
    split; [|reflexivity]. apply seen_autoincrement. right.
    exists columnName', c'. split; [assumption|].
    now apply isAutoincrement_spec.
Qed.

(** The four groups together *)
Lemma validateSchema_errors (schema : NormalizedSchema)
  (e : ValidationError) :
  In e (errors (validateSchema schema)) <-> Violation schema e.
Proof.
  unfold validateSchema, Violation. cbn [errors].
  rewrite !in_app_iff, validateTables_spec, validateColumns_spec,
    validateForeignKeys_spec, validateDefaults_spec.
  reflexivity.
Qed.

Lemma validateSchema_valid (schema : NormalizedSchema) :
  valid (validateSchema schema) = true
  <-> errors (validateSchema schema) = [].
Proof.
  unfold validateSchema. cbn [valid errors]. rewrite Nat.eqb_eq.
  destruct (_ ++ _); simpl; split; congruence.
Qed.

End ValidatorFacts.

(* ===================================================================== *)
(** ** Properties of the ORM renderer *)
(* ===================================================================== *)

Module PrismaProperties.
Import JS JSFacts PrismaCommon NamingSpec NamingFacts.

(** The revision kept in lib/prisma/prismaGenerator.ts has no double-s
    rule and names every scalar field after its own column. *)
Lemma lib_toSingular_double_s :
  PrismaGeneratorLib.toSingular "class" = "clas"
  /\ PrismaGenerator.toSingular "class" = "class".
Proof. split; reflexivity. Qed.

Lemma lib_scalar_field_named_after_column :
  PrismaGeneratorLib.generateScalarField
    (mkNormalizedColumn "author" "int" false false false
       (Some (mkForeignKey "users" "id")) None)
  = "author Int"
  /\ PrismaGenerator.generateScalarField
       (mkNormalizedColumn "author" "int" false false false
          (Some (mkForeignKey "users" "id")) None) false
     = "userId Int @map(" +:+ dquote +:+ "author" +:+ dquote +:+ ")".
Proof. split; reflexivity. Qed.

(** C6, as stated, fails on the one-letter word [s]: the cascade of the
    specification drops the trailing [s] and leaves an empty model name,
    whereas [toSingular] returns words of at most one character unchanged,
    so that table [s] becomes model [S]. *)
Lemma C6_one_letter_word_counterexample :
  PrismaGenerator.toModelName "s" = "S"
  /\ claimed_modelName "s" = EmptyString
  /\ PrismaGenerator.toModelName "s" <> claimed_modelName "s".
Proof. repeat split; discriminate. Qed.

(** C6 (amended).  For every table name the model name is obtained by
    splitting the name on underscores, singularising each word of two or
    more characters with the suffix cascade (double-s kept, -ies to -y,
    -ves to -f, -ses/-xes/-ches/-shes without their last two characters,
    another trailing -s dropped, anything else kept), leaving words of at
    most one character unchanged, then capitalising each word (first
    character upper case, the rest lower case) and concatenating; in
    particular [order_items] yields [OrderItem]. *)
Theorem C6_model_name_by_cascade :
  (forall tableName : string,
     PrismaGenerator.toModelName tableName = derived_modelName tableName)
  /\ PrismaGenerator.toModelName "order_items" = "OrderItem".
Proof.
  split; [|reflexivity].
  intros tableName. rewrite toModelName_words. unfold derived_modelName.
  f_equal. apply map_ext. intros w. now rewrite toSingular_guarded_cascade.
Qed.



End PrismaProperties.

(* ===================================================================== *)
(** ** Properties of the SQL renderer: primary keys *)
(* ===================================================================== *)

Module SqlProperties.
Import JS JSFacts SqlCommon.

(** The revision at lines 153-348 of postgresGenerator.ts marks every
    primary-key column inline and has no table-level clause. *)
Lemma rev_composite_key_inline :
  PostgresGeneratorRev.columnDefsOf Examples.order_lines =
  ["  order_id INT NOT NULL PRIMARY KEY";
   "  line_no INT NOT NULL PRIMARY KEY";
   "  note TEXT"].
Proof. reflexivity. Qed.





(** C8.  Scenario A: whatever the enumeration order of the two tables
    and whatever the flags the scenario leaves open, the SQL renderer
    returns the statement of [users], a blank line, and the statement of
    [posts]; the former begins with [CREATE TABLE users (], the latter
    with [CREATE TABLE posts (], and the latter has the clause
    [FOREIGN KEY (user_id) REFERENCES users(id)]. *)
Theorem C8_scenario_A_users_before_posts :
  forall postsFirst b1 b2 b3 b4 b5 b6 b7 b8 b9 : bool,
    let users := Examples.users b1 b2 b3 in
    let posts := Examples.posts b4 b5 b6 b7 b8 b9 in
    PostgresGenerator.generatePostgresSQL
      (Examples.scenarioA postsFirst users posts)
    = Returned (PostgresGenerator.generateTableSQL "users" users
                +:+ nl +:+ nl
                +:+ PostgresGenerator.generateTableSQL "posts" posts)
    /\ String.prefix "CREATE TABLE users ("
         (PostgresGenerator.generateTableSQL "users" users) = true
    /\ String.prefix "CREATE TABLE posts ("
         (PostgresGenerator.generateTableSQL "posts" posts) = true
    /\ In "  FOREIGN KEY (user_id) REFERENCES users(id)"
         (fkConstraintsOf posts)
    /\ includes (PostgresGenerator.generateTableSQL "posts" posts)
         "FOREIGN KEY (user_id) REFERENCES users(id)" = true.
Proof.
  intros postsFirst b1 b2 b3 b4 b5 b6 b7 b8 b9 users posts.
  subst users posts.
  split.
  { destruct postsFirst; vm_compute; reflexivity. }
  split; [reflexivity|]. split; [reflexivity|].
  split; [simpl; auto|].
  destruct b4, b5, b6, b7, b8, b9; vm_compute; reflexivity.
Qed.

End SqlProperties.

(* ===================================================================== *)
(** ** Properties of the SQL renderer: table order *)
(* ===================================================================== *)

Module OrderProperties.
Import SqlCommon OrderSpec ObjFacts OrderFacts.






(** A cycle does not stop the search: both tables come out once. *)
Lemma orderTables_on_a_cycle :
  orderTables Examples.cyclic = Some ["b"; "a"].
Proof. vm_compute. reflexivity. Qed.

End OrderProperties.

(* ===================================================================== *)
(** ** Properties of the generation guard *)
(* ===================================================================== *)

Module GuardProperties.
Import JS GeneratorValidation GuardSpec ObjFacts OrderFacts GuardFacts.



(** The earlier revisions of the two generators run the same guard. *)
Lemma revisions_share_the_guard (schema : NormalizedSchema) :
  collectErrors schema <> [] ->
  PostgresGeneratorRev.generatePostgresSQL schema
  = Thrown (failureMessage (collectErrors schema))
  /\ PrismaGeneratorLib.generatePrismaSchema schema
     = Thrown (failureMessage (collectErrors schema)).
Proof.
  intros H.
  unfold PostgresGeneratorRev.generatePostgresSQL,
    PrismaGeneratorLib.generatePrismaSchema, PrismaCommon.generateWith.
  rewrite (validate_thrown schema H). split; reflexivity.
Qed.





End GuardProperties.

(* ===================================================================== *)
(** ** Properties of the normalizer *)
(* ===================================================================== *)

Module NormalizerProperties.
Import JS SchemaNormalizer RoundTripSpec NormalizerFacts.

(** C10.  Let [r] be a relation that survives orphan filtering and
    targets column [c] of table [t], and let no surviving relation after
    [r] in the array target that column.  Then, whatever relations come
    before [r], the column stored for [c] by [normalizeSchema] carries as
    its one [foreignKey] the metadata made from [r]: the names that the
    lookup maps hold for the source table and source column of [r].
    (Table identifiers are free of colons, as generated identifiers are;
    [t] and [c] are the last table and column stored under their names.) *)
Theorem C10_last_relation_into_a_column_wins :
  forall (ts : list Table) (pre post : list Relation) (r : Relation)
         (t : Table) (c : Column) (fk : ForeignKey),
    (forall t', In t' ts -> has_char ":"%char (t_id t') = false) ->
    lastWithKey t_name ts t ->
    lastWithKey c_name (t_columns t) c ->
    resolve (tableNameMapOf ts) (columnNameMapOf ts) r = Some fk ->
    toTableId r = t_id t ->
    toColumnId r = c_id c ->
    (forall r', In r' post ->
       resolve (tableNameMapOf ts) (columnNameMapOf ts) r' <> None ->
       ~ (toTableId r' = t_id t /\ toColumnId r' = c_id c)) ->
    exists (nt : NormalizedTable) (nc : NormalizedColumn),
      Obj.get (tables (normalizeSchema ts (pre ++ r :: post))) (t_name t)
      = Some nt
      /\ Obj.get (nt_columns nt) (c_name c) = Some nc
      /\ nc_foreignKey nc = Some fk
      /\ tableNameMapOf ts !! fromTableId r = Some (fk_table fk)
      /\ exists info,
           columnNameMapOf ts
             !! columnKey (fromTableId r) (fromColumnId r) = Some info
           /\ snd info = fk_column fk.
Proof.
  intros ts pre post r t c fk Hplain Ht Hc Hr HtoT HtoC Hpost.
  destruct (normalizeSchema_get ts (pre ++ r :: post) t c Ht Hc)
    as [Hgt Hgc].
  eexists _, _. split; [exact Hgt|]. split; [exact Hgc|]. split.
  - simpl. apply foreignKeyMap_last; try assumption.
    destruct Ht as (tpre & tpost & -> & _).
    apply in_app_iff. right. now left.
  - now apply resolve_source.
Qed.

Lemma C10_last_relation_into_a_column_wins_witness :
  resolve (tableNameMapOf (fst Examples.twoSources))
    (columnNameMapOf (fst Examples.twoSources))
    (mkRelation "r2" "t2" "c2" "t3" "c3")
  = Some (mkForeignKey "accounts" "id")
  /\ exists nt nc,
       Obj.get
         (tables (normalizeSchema (fst Examples.twoSources)
                    (snd Examples.twoSources))) "posts" = Some nt
       /\ Obj.get (nt_columns nt) "owner_id" = Some nc
       /\ nc_foreignKey nc = Some (mkForeignKey "accounts" "id").
Proof.
  assert (Hr : resolve (tableNameMapOf (fst Examples.twoSources))
                 (columnNameMapOf (fst Examples.twoSources))
                 (mkRelation "r2" "t2" "c2" "t3" "c3")
               = Some (mkForeignKey "accounts" "id"))
    by (vm_compute; reflexivity).
  split; [exact Hr|].
  destruct (C10_last_relation_into_a_column_wins
              (fst Examples.twoSources)
              [mkRelation "r1" "t1" "c1" "t3" "c3"] []
              (mkRelation "r2" "t2" "c2" "t3" "c3")
              (mkTable "t3" "posts"
                 [mkColumn "c3" "owner_id" "int" false false false None])
              (mkColumn "c3" "owner_id" "int" false false false None)
              (mkForeignKey "accounts" "id"))
    as (nt & nc & Hnt & Hnc & Hfk & _).
  - intros t' [<-|[<-|[<-|[]]]]; reflexivity.
  - exists [mkTable "t1" "users"
              [mkColumn "c1" "id" "int" true false false None];
            mkTable "t2" "accounts"
              [mkColumn "c2" "id" "int" true false false None]], [].
    split; [reflexivity | intros y []].
  - exists [], []. split; [reflexivity | intros y []].
  - exact Hr.
  - reflexivity.
  - reflexivity.
  - intros r' [].
  - exists nt, nc. auto.
Defined.

End NormalizerProperties.

(* ===================================================================== *)
(** ** The round trip through the canonical schema *)
(* ===================================================================== *)

Module RoundTripProperties.
Import JS SchemaNormalizer SchemaDenormalizer RoundTripSpec ObjFacts
  ListFacts NormalizerFacts DenormalizerFacts.

Lemma idOf_length (n : nat) : String.length (Examples.idOf n) = S n.
Proof. induction n as [|n IH]; simpl; [reflexivity | now rewrite IH]. Qed.

Lemma idOf_fresh : fresh_ids Examples.idOf.
Proof.
  split.
  - intros n m E. apply (f_equal String.length) in E.
    rewrite !idOf_length in E. lia.
  - intros n E. apply (f_equal String.length) in E.
    rewrite idOf_length in E. discriminate.
Qed.

Ltac nodup_literal :=
  apply NoDup_ListNoDup; cbv;
  repeat (constructor; [simpl; intuition congruence|]); constructor.

Lemma blog_wf : wf_graph (fst Examples.blog) (snd Examples.blog).
Proof.
  constructor.
  - nodup_literal.
  - intros t [<-|[<-|[]]]; reflexivity.
  - intros t [<-|[<-|[]]]; nodup_literal.
  - nodup_literal.
  - intros t [<-|[<-|[]]]; discriminate.
  - intros t [<-|[<-|[]]]; nodup_literal.
  - intros r [<-|[]]. vm_compute. discriminate.
  - nodup_literal.
Qed.




End RoundTripProperties.

(* ===================================================================== *)
(** ** Properties of the validator *)
(* ===================================================================== *)

Module ValidatorProperties.
Import SchemaValidator ValidatorSpec ValidatorFacts.



End ValidatorProperties.

(* ===================================================================== *)
(** ** Facts about the editor store *)
(* ===================================================================== *)

Module StoreFacts.
Import SchemaStore StoreSpec RoundTripSpec ListFacts.

Lemma find_app_l {A : Type} (p : A -> bool) (l l' : list A) (x : A) :
  List.find p l = Some x -> List.find p (l ++ l') = Some x.
Proof.
  induction l as [|a l IH]; simpl; [discriminate|].
  destruct (p a); auto.
Qed.

Lemma find_map_same {A : Type} (p : A -> bool) (f : A -> A) (l : list A) :
  (forall a, p (f a) = p a) ->
  List.find p (map f l) = option_map f (List.find p l).
Proof.
  intros Hp. induction l as [|a l IH]; simpl; [reflexivity|].
  rewrite Hp. destruct (p a); [reflexivity | exact IH].
Qed.

Lemma find_filter_kept {A : Type} (p q : A -> bool) (l : list A) :
  (forall a, p a = true -> q a = true) ->
  List.find p (List.filter q l) = List.find p l.
Proof.
  intros Hpq. induction l as [|a l IH]; simpl; [reflexivity|].
  destruct (q a) eqn:Hq; simpl.
  - destruct (p a); [reflexivity | exact IH].
  - destruct (p a) eqn:Hp; [|exact IH].
    rewrite (Hpq a Hp) in Hq. discriminate.
Qed.

Lemma filter_all {A : Type} (q : A -> bool) (l : list A) :
  (forall a, In a l -> q a = true) -> List.filter q l = l.
Proof.
  induction l as [|a l IH]; intros H; simpl; [reflexivity|].
  rewrite (H a) by now left. f_equal. apply IH. intros; apply H; now right.
Qed.

Lemma map_unchanged {A : Type} (f : A -> A) (l : list A) :
  (forall a, In a l -> f a = a) -> map f l = l.
Proof.
  induction l as [|a l IH]; intros H; simpl; [reflexivity|].
  rewrite (H a) by now left. f_equal. apply IH. intros; apply H; now right.
Qed.

(** The ends of a relation resolve when its two tables are found and its
    two columns are found in them. *)
Lemma endpointNames_Some (ts : list Table) (r : Relation) :
  endpointNames ts r <> None
  <-> (exists s, findTable ts (fromTableId r) = Some s
                 /\ findColumn s (fromColumnId r) <> None)
      /\ (exists t, findTable ts (toTableId r) = Some t
                    /\ findColumn t (toColumnId r) <> None).
Proof.
  unfold endpointNames, endpointIds, namesOfIds.
  destruct (findTable ts (fromTableId r)) as [s|];
    [|split; [congruence | intros [(s & [=] & _) _]]].
  destruct (findTable ts (toTableId r)) as [t|];
    [|split; [congruence | intros [_ (t & [=] & _)]]].
  destruct (findColumn s (fromColumnId r)) as [sc|] eqn:Hs;
    [|split; [congruence|]].
  - destruct (findColumn t (toColumnId r)) as [tc|] eqn:Ht.
    + split; [|discriminate]. intros _.
      split; [exists s | exists t]; rewrite ?Hs, ?Ht; split; congruence.
    + split; [congruence|]. intros [_ (t' & [= <-] & H)]. congruence.
  - intros [(s' & [= <-] & H) _]. congruence.
Qed.

(** A change of the tables that keeps what the relation needs *)
Lemma resolved_transfer (ts ts' : list Table) (r : Relation) :
  endpointNames ts r <> None ->
  (forall s, findTable ts (fromTableId r) = Some s ->
             findColumn s (fromColumnId r) <> None ->
             exists s', findTable ts' (fromTableId r) = Some s'
                        /\ findColumn s' (fromColumnId r) <> None) ->
  (forall t, findTable ts (toTableId r) = Some t ->
             findColumn t (toColumnId r) <> None ->
             exists t', findTable ts' (toTableId r) = Some t'
                        /\ findColumn t' (toColumnId r) <> None) ->
  endpointNames ts' r <> None.
Proof.
  rewrite !endpointNames_Some.
  intros [(s & Hs & Hsc) (t & Ht & Htc)] Hfrom Hto. split; eauto.
Qed.

(** The tables after a [map] that keeps identifiers *)
Lemma findTable_map (f : Table -> Table) (ts : list Table) (id : string) :
  (forall t, t_id (f t) = t_id t) ->
  findTable (map f ts) id = option_map f (findTable ts id).
Proof.
  intros Hf. unfold findTable. apply find_map_same.
  intros t. now rewrite Hf.
Qed.

Lemma findColumn_same (t t' : Table) (id : string) :
  t_columns t' = t_columns t -> findColumn t' id = findColumn t id.
Proof. unfold findColumn. now intros ->. Qed.

Lemma resolved_addTable (id : string) (state : State) :
  resolved state -> resolved (addTable id state).
Proof.
  intros H r Hr. apply (resolved_transfer (s_tables state)); [now apply H| |];
    intros t Ht Hc; exists t; (split; [|assumption]);
    now apply find_app_l.
Qed.

Lemma resolved_map (f : Table -> Table) (ts : list Table) (r : Relation) :
  (forall t, t_id (f t) = t_id t) ->
  (forall t, findTable ts (fromTableId r) = Some t ->
             findColumn t (fromColumnId r) <> None ->
             findColumn (f t) (fromColumnId r) <> None) ->
  (forall t, findTable ts (toTableId r) = Some t ->
             findColumn t (toColumnId r) <> None ->
             findColumn (f t) (toColumnId r) <> None) ->
  endpointNames ts r <> None -> endpointNames (map f ts) r <> None.
Proof.
  intros Hid Hfrom Hto H. apply (resolved_transfer ts); [assumption| |];
    intros t Ht Hc; exists (f t); rewrite (findTable_map f ts _ Hid), Ht;
    (split; [reflexivity|]); auto.
Qed.

Lemma resolved_updateTableName (id name : string) (state : State) :
  resolved state -> resolved (updateTableName id name state).
Proof.
  intros H r Hr. apply resolved_map; [| | |now apply H].
  - intros t. now destruct (String.eqb (t_id t) id).
  - intros t _ Hc. now destruct (String.eqb (t_id t) id).
  - intros t _ Hc. now destruct (String.eqb (t_id t) id).
Qed.

Lemma resolved_deleteTable (id : string) (state : State) :
  resolved state -> resolved (deleteTable id state).
Proof.
  intros H r Hr. cbn [deleteTable s_relations s_tables] in *.
  apply filter_In in Hr as [Hr Hkeep].
  apply andb_true_iff in Hkeep as [Hfrom Hto].
  apply negb_true_iff, String.eqb_neq in Hfrom, Hto.
  apply (resolved_transfer (s_tables state)); [now apply H| |];
    intros t Ht Hc; exists t; (split; [|assumption]);
    unfold findTable in *; rewrite find_filter_kept; try assumption;
    intros a Ha%String.eqb_eq; apply negb_true_iff, String.eqb_neq;
    congruence.
Qed.

Lemma findColumn_app (t : Table) (more : list Column) (id : string) :
  findColumn t id <> None ->
  findColumn (mkTable (t_id t) (t_name t) (t_columns t ++ more)) id <> None.
Proof.
  unfold findColumn. cbn [t_columns].
  destruct (List.find _ (t_columns t)) as [c|] eqn:E; [|congruence].
  intros _. now rewrite (find_app_l _ _ more c E).
Qed.

Lemma resolved_addColumn (id tableId : string) (state : State) :
  resolved state -> resolved (addColumn id tableId state).
Proof.
  intros H r Hr. apply resolved_map; [| | |now apply H].
  - intros t. now destruct (String.eqb (t_id t) tableId).
  - intros t _ Hc. destruct (String.eqb (t_id t) tableId);
      [now apply findColumn_app | assumption].
  - intros t _ Hc. destruct (String.eqb (t_id t) tableId);
      [now apply findColumn_app | assumption].
Qed.

Lemma findColumn_spread (t : Table) (columnId id : string)
  (data : ColumnData) :
  cd_id data = None ->
  findColumn t id <> None ->
  findColumn
    (mkTable (t_id t) (t_name t)
       (map (fun column =>
               if String.eqb (c_id column) columnId
               then spreadColumn column data else column)
          (t_columns t))) id <> None.
Proof.
  intros Hid. unfold findColumn. cbn [t_columns].
  rewrite find_map_same.
  - destruct (List.find _ (t_columns t)); [discriminate | congruence].
  - intros c. destruct (String.eqb (c_id c) columnId); [|reflexivity].
    unfold spreadColumn. cbn [c_id]. now rewrite Hid.
Qed.

Lemma resolved_updateColumn (tableId columnId : string) (data : ColumnData)
  (state : State) :
  cd_id data = None ->
  resolved state -> resolved (updateColumn tableId columnId data state).
Proof.
  intros Hid H r Hr. apply resolved_map; [| | |now apply H].
  - intros t. now destruct (String.eqb (t_id t) tableId).
  - intros t _ Hc. destruct (String.eqb (t_id t) tableId);
      [now apply findColumn_spread | assumption].
  - intros t _ Hc. destruct (String.eqb (t_id t) tableId);
      [now apply findColumn_spread | assumption].
Qed.

Lemma findColumn_filter (t : Table) (columnId id : string) :
  id <> columnId ->
  findColumn t id <> None ->
  findColumn
    (mkTable (t_id t) (t_name t)
       (List.filter (fun column => negb (String.eqb (c_id column) columnId))
          (t_columns t))) id <> None.
Proof.
  intros Hne. unfold findColumn. cbn [t_columns].
  rewrite find_filter_kept; [auto|].
  intros c Hc%String.eqb_eq. apply negb_true_iff, String.eqb_neq.
  congruence.
Qed.

Lemma resolved_deleteColumn (tableId columnId : string) (state : State) :
  resolved state -> resolved (deleteColumn tableId columnId state).
Proof.
  intros H r Hr. cbn [deleteColumn s_relations s_tables] in *.
  apply filter_In in Hr as [Hr Hkeep].
  apply andb_true_iff in Hkeep as [Hfrom Hto].
  apply negb_true_iff, andb_false_iff in Hfrom, Hto.
  apply resolved_map; [| | |now apply H].
  - intros t. now destruct (String.eqb (t_id t) tableId).
  - intros t Ht Hc. apply find_id_Some in Ht as [_ Ht].
    destruct (String.eqb_spec (t_id t) tableId) as [E|_]; [|assumption].
    apply findColumn_filter; [|assumption].
    destruct Hfrom as [Hx|Hx]; apply String.eqb_neq in Hx; congruence.
  - intros t Ht Hc. apply find_id_Some in Ht as [_ Ht].
    destruct (String.eqb_spec (t_id t) tableId) as [E|_]; [|assumption].
    apply findColumn_filter; [|assumption].
    destruct Hto as [Hx|Hx]; apply String.eqb_neq in Hx; congruence.
Qed.

Lemma resolved_removeRelation (relationId : string) (state : State) :
  resolved state -> resolved (removeRelation relationId state).
Proof.
  intros H r Hr. cbn [removeRelation s_relations s_tables] in *.
  apply filter_In in Hr as [Hr _]. now apply H.
Qed.

Lemma NoDup_map_filter {A : Type} (f : A -> string) (q : A -> bool)
  (l : list A) :
  NoDup (map f l) -> NoDup (map f (List.filter q l)).
Proof.
  induction l as [|a l IH]; simpl; [auto|].
  intros H. apply NoDup_cons in H as [Ha H].
  destruct (q a); simpl; [|auto].
  apply NoDup_cons. split; [|auto].
  rewrite list_elem_of_In in *. intros Hin. apply Ha.
  apply in_map_iff in Hin as (x & <- & Hx%filter_In).
  apply in_map. tauto.
Qed.

Lemma NoDup_map_snoc {A : Type} (f : A -> string) (l : list A) (x : A) :
  NoDup (map f l) -> (forall a, In a l -> f a <> f x) ->
  NoDup (map f (l ++ [x])).
Proof.
  intros Hnd Hx. rewrite map_app. apply NoDup_app. split; [assumption|].
  split; [|apply NoDup_singleton].
  intros k Hk Hk'. rewrite list_elem_of_In in Hk, Hk'.
  apply in_map_iff in Hk as (a & <- & Ha).
  destruct Hk' as [E|[]]. exact (Hx a Ha (eq_sym E)).
Qed.

Lemma map_id_map (f : Table -> Table) (ts : list Table) :
  (forall t, t_id (f t) = t_id t) -> map t_id (map f ts) = map t_id ts.
Proof. intros H. rewrite map_map. apply map_ext. exact H. Qed.

Lemma distinct_map (f : Table -> Table) (state : State) (rels : list Relation)
  (flag : bool) :
  (forall t, t_id (f t) = t_id t) ->
  (forall t, In t (s_tables state) -> NoDup (map c_id (t_columns t)) ->
             NoDup (map c_id (t_columns (f t)))) ->
  distinct_ids state ->
  distinct_ids (mkState (map f (s_tables state)) rels flag).
Proof.
  intros Hid Hcols [Hts Hcs]. split; cbn [s_tables].
  - now rewrite map_id_map.
  - intros t' (t & <- & Ht)%in_map_iff. auto.
Qed.

Lemma distinct_addTable (id : string) (state : State) :
  (forall t, In t (s_tables state) -> t_id t <> id) ->
  distinct_ids state -> distinct_ids (addTable id state).
Proof.
  intros Hfresh [Hts Hcs]. split; cbn [addTable s_tables].
  - apply NoDup_map_snoc; [assumption|]. exact Hfresh.
  - intros t [Ht|[<-|[]]]%in_app_iff; [auto|]. apply NoDup_nil_2.
Qed.

Lemma distinct_updateTableName (id name : string) (state : State) :
  distinct_ids state -> distinct_ids (updateTableName id name state).
Proof.
  apply distinct_map.
  - intros t. now destruct (String.eqb (t_id t) id).
  - intros t _ H. now destruct (String.eqb (t_id t) id).
Qed.

Lemma distinct_deleteTable (id : string) (state : State) :
  distinct_ids state -> distinct_ids (deleteTable id state).
Proof.
  intros [Hts Hcs]. split; cbn [deleteTable s_tables].
  - now apply NoDup_map_filter.
  - intros t [Ht _]%filter_In. auto.
Qed.

Lemma distinct_addColumn (id tableId : string) (state : State) :
  (forall t c, In t (s_tables state) -> t_id t = tableId ->
               In c (t_columns t) -> c_id c <> id) ->
  distinct_ids state -> distinct_ids (addColumn id tableId state).
Proof.
  intros Hfresh. apply distinct_map.
  - intros t. now destruct (String.eqb (t_id t) tableId).
  - intros t Ht H.
    destruct (String.eqb_spec (t_id t) tableId) as [E|_]; [|assumption].
    cbn [t_columns]. apply NoDup_map_snoc; [assumption|].
    intros c Hc. cbn [c_id]. eauto.
Qed.

Lemma distinct_updateColumn (tableId columnId : string) (data : ColumnData)
  (state : State) :
  cd_id data = None ->
  distinct_ids state ->
  distinct_ids (updateColumn tableId columnId data state).
Proof.
  intros Hid. apply distinct_map.
  - intros t. now destruct (String.eqb (t_id t) tableId).
  - intros t _ H.
    destruct (String.eqb (t_id t) tableId); [|assumption].
    cbn [t_columns]. rewrite map_map.
    erewrite map_ext; [exact H|].
    intros c. destruct (String.eqb (c_id c) columnId); [|reflexivity].
    unfold spreadColumn. cbn [c_id]. now rewrite Hid.
Qed.

Lemma distinct_deleteColumn (tableId columnId : string) (state : State) :
  distinct_ids state -> distinct_ids (deleteColumn tableId columnId state).
Proof.
  apply distinct_map.
  - intros t. now destruct (String.eqb (t_id t) tableId).
  - intros t _ H.
    destruct (String.eqb (t_id t) tableId); [|assumption].
    cbn [t_columns]. now apply NoDup_map_filter.
Qed.

Lemma filter_snoc_out {A : Type} (q : A -> bool) (l : list A) (x : A) :
  (forall a, In a l -> q a = true) -> q x = false ->
  List.filter q (l ++ [x]) = l.
Proof.
  intros Hl Hx. rewrite List.filter_app, (filter_all q l Hl). simpl.
  rewrite Hx. apply app_nil_r.
Qed.

Lemma table_eta (t : Table) : mkTable (t_id t) (t_name t) (t_columns t) = t.
Proof. now destruct t. Qed.

Lemma deleteTable_addTable (id : string) (state : State) :
  unused_table_id id state ->
  deleteTable id (addTable id state) = setNormalized false state.
Proof.
  intros [Hts Hrs]. unfold deleteTable, addTable, setNormalized.
  cbn [s_tables s_relations]. f_equal.
  - apply filter_snoc_out.
    + intros t Ht. apply negb_true_iff, String.eqb_neq. auto.
    + cbn [t_id]. now rewrite String.eqb_refl.
  - apply filter_all. intros r Hr. destruct (Hrs r Hr) as [Hf Ht].
    apply andb_true_iff.
    split; apply negb_true_iff, String.eqb_neq; assumption.
Qed.

Lemma deleteColumn_addColumn (id tableId : string) (state : State) :
  unused_column_id tableId id state ->
  deleteColumn tableId id (addColumn id tableId state)
  = setNormalized false state.
Proof.
  intros [Hts Hrs]. unfold deleteColumn, addColumn, setNormalized.
  cbn [s_tables s_relations]. f_equal.
  - rewrite map_map. apply map_unchanged. intros t Ht.
    destruct (String.eqb_spec (t_id t) tableId) as [E|Hne].
    + cbn [t_id t_name t_columns]. rewrite E, String.eqb_refl.
      rewrite filter_snoc_out.
      * rewrite <- E. apply table_eta.
      * intros c Hc. apply negb_true_iff, String.eqb_neq. eauto.
      * cbn [c_id]. now rewrite String.eqb_refl.
    + apply String.eqb_neq in Hne. now rewrite Hne.
  - apply filter_all. intros r Hr. destruct (Hrs r Hr) as [Hf Ht].
    apply andb_true_iff.
    split; apply negb_true_iff, andb_false_iff;
      [destruct (String.eqb_spec (fromTableId r) tableId);
       destruct (String.eqb_spec (fromColumnId r) id)
      |destruct (String.eqb_spec (toTableId r) tableId);
       destruct (String.eqb_spec (toColumnId r) id)]; tauto.
Qed.

(** Relations that the normalizer skips can be left out beforehand. *)
Lemma fill_filter {A V : Type} (key : A -> string) (val : A -> option V)
  (q : A -> bool) (l : list A) :
  (forall x, In x l -> q x = false -> val x = None) ->
  forall m, fill key val (List.filter q l) m = fill key val l m.
Proof.
  induction l as [|x l IH]; intros H m; [reflexivity|].
  simpl List.filter. destruct (q x) eqn:Hq.
  - rewrite !FillFacts.fill_cons. apply IH. intros; apply H; simpl; auto.
  - rewrite FillFacts.fill_cons, (H x (or_introl eq_refl) Hq).
    apply IH. intros; apply H; simpl; auto.
Qed.

Lemma tableNameMap_absent (ts : list Table) (id : string) :
  (forall t, In t ts -> t_id t <> id) ->
  SchemaNormalizer.tableNameMapOf ts !! id = None.
Proof.
  intros H. rewrite NormalizerFacts.tableNameMapOf_fill.
  rewrite FillFacts.fill_absent; [apply lookup_empty|].
  intros t Ht E. destruct (H t Ht E).
Qed.

Lemma resolve_unknown_table (ts : list Table) (id : string) (r : Relation) :
  (forall t, In t ts -> t_id t <> id) ->
  fromTableId r = id \/ toTableId r = id ->
  SchemaNormalizer.resolve (SchemaNormalizer.tableNameMapOf ts)
    (SchemaNormalizer.columnNameMapOf ts) r = None.
Proof.
  intros H Hr. unfold SchemaNormalizer.resolve.
  destruct Hr as [E|E]; rewrite E, (tableNameMap_absent ts id H);
    [reflexivity|].
  destruct (_ !! fromTableId r); [|reflexivity].
  destruct (_ !! _); reflexivity.
Qed.

Lemma normalize_deleteTable (id : string) (state : State) :
  SchemaNormalizer.normalizeSchema (s_tables (deleteTable id state))
    (s_relations state)
  = getNormalizedSchema (deleteTable id state).
Proof.
  assert (E : SchemaNormalizer.foreignKeyMapOf
                (s_tables (deleteTable id state))
                (s_relations (deleteTable id state))
              = SchemaNormalizer.foreignKeyMapOf
                  (s_tables (deleteTable id state)) (s_relations state)).
  { rewrite !NormalizerFacts.foreignKeyMapOf_fill.
    cbn [deleteTable s_relations]. apply fill_filter.
    intros r _ Hq. apply (resolve_unknown_table _ id).
    - cbn [s_tables]. intros t [_ Ht]%filter_In.
      now apply negb_true_iff, String.eqb_neq in Ht.
    - apply andb_false_iff in Hq as [Hq|Hq];
        apply negb_false_iff, String.eqb_eq in Hq; auto. }
  unfold getNormalizedSchema, SchemaNormalizer.normalizeSchema. cbv zeta.
  now rewrite E.
Qed.

End StoreFacts.

(* ===================================================================== *)
(** ** Properties of the editor store *)
(* ===================================================================== *)

Module StoreProperties.
Import SchemaStore StoreSpec StoreFacts RoundTripSpec.

Lemma blogState_resolved : resolved StoreExamples.blogState.
Proof. intros r [<-|[]]. vm_compute. discriminate. Qed.

Lemma blogState_distinct : distinct_ids StoreExamples.blogState.
Proof.
  split.
  - RoundTripProperties.nodup_literal.
  - intros t [<-|[<-|[]]]; RoundTripProperties.nodup_literal.
Qed.

(** X1.  If both ends of every relation of the store are columns of its
    tables, they still are after adding, renaming or deleting a table,
    after adding or deleting a column, after updating a column without
    changing its identifier, and after removing a relation: the two
    deletions take with them the relations that mention what is deleted. *)
Theorem edits_keep_relations_resolved :
  forall (state : State) (id name tableId columnId relationId : string)
         (data : ColumnData),
    resolved state ->
    cd_id data = None ->
    resolved (addTable id state)
    /\ resolved (updateTableName tableId name state)
    /\ resolved (deleteTable tableId state)
    /\ resolved (addColumn id tableId state)
    /\ resolved (updateColumn tableId columnId data state)
    /\ resolved (deleteColumn tableId columnId state)
    /\ resolved (removeRelation relationId state).
Proof.
  intros state id name tableId columnId relationId data H Hid.
  split; [now apply resolved_addTable|].
  split; [now apply resolved_updateTableName|].
  split; [now apply resolved_deleteTable|].
  split; [now apply resolved_addColumn|].
  split; [now apply resolved_updateColumn|].
  split; [now apply resolved_deleteColumn|].
  now apply resolved_removeRelation.
Qed.

Lemma edits_keep_relations_resolved_witness :
  resolved StoreExamples.blogState
  /\ cd_id (StoreExamples.rename "mail") = None
  /\ resolved (deleteTable "t1" StoreExamples.blogState)
  /\ resolved (deleteColumn "t2" "c4" StoreExamples.blogState).
Proof.
  split; [exact blogState_resolved|]. split; [reflexivity|].
  pose proof (edits_keep_relations_resolved StoreExamples.blogState
                "t3" "authors" "t1" "c1" "r1" (StoreExamples.rename "mail")
                blogState_resolved eq_refl) as H.
  split; [exact (proj1 (proj2 (proj2 H)))|].
  exact (proj1 (proj2 (proj2 (proj2 (proj2 (proj2
           (edits_keep_relations_resolved StoreExamples.blogState
              "t3" "authors" "t2" "c4" "r1" (StoreExamples.rename "mail")
              blogState_resolved eq_refl))))))).
Defined.

(** X2.  If the tables of the store have identifiers of their own, and
    the columns of each table too, this is still so after every edit of
    the tables: adding a table or a column under an identifier not yet
    in use there, renaming or deleting a table, deleting a column, and
    updating a column without changing its identifier. *)
Theorem edits_keep_ids_distinct :
  forall (state : State) (id name tableId columnId : string)
         (data : ColumnData),
    distinct_ids state ->
    cd_id data = None ->
    (forall t, In t (s_tables state) -> t_id t <> id) ->
    (forall t c, In t (s_tables state) -> t_id t = tableId ->
                 In c (t_columns t) -> c_id c <> id) ->
    distinct_ids (addTable id state)
    /\ distinct_ids (updateTableName tableId name state)
    /\ distinct_ids (deleteTable tableId state)
    /\ distinct_ids (addColumn id tableId state)
    /\ distinct_ids (updateColumn tableId columnId data state)
    /\ distinct_ids (deleteColumn tableId columnId state).
Proof.
  intros state id name tableId columnId data H Hid Hft Hfc.
  split; [now apply distinct_addTable|].
  split; [now apply distinct_updateTableName|].
  split; [now apply distinct_deleteTable|].
  split; [now apply distinct_addColumn|].
  split; [now apply distinct_updateColumn|].
  now apply distinct_deleteColumn.
Qed.

Lemma blogState_fresh_table :
  forall t, In t (s_tables StoreExamples.blogState) -> t_id t <> "t3".
Proof. intros t [<-|[<-|[]]]; discriminate. Qed.

Lemma blogState_fresh_column :
  forall t c, In t (s_tables StoreExamples.blogState) -> t_id t = "t1" ->
              In c (t_columns t) -> c_id c <> "t3".
Proof.
  intros t c [<-|[<-|[]]] _ Hc; simpl in Hc;
    repeat (destruct Hc as [<-|Hc]; [discriminate|]); destruct Hc.
Qed.

Lemma edits_keep_ids_distinct_witness :
  distinct_ids StoreExamples.blogState
  /\ distinct_ids (addTable "t3" StoreExamples.blogState)
  /\ distinct_ids (addColumn "t3" "t1" StoreExamples.blogState).
Proof.
  split; [exact blogState_distinct|].
  pose proof (edits_keep_ids_distinct StoreExamples.blogState
                "t3" "authors" "t1" "c1" (StoreExamples.rename "mail")
                blogState_distinct eq_refl blogState_fresh_table
                blogState_fresh_column) as H.
  split; [exact (proj1 H) | exact (proj1 (proj2 (proj2 (proj2 H))))].
Defined.

(** X3.  Deleting a table that has just been added under an identifier
    that no table had and no relation mentioned gives back the tables and
    the relations there were, and so does deleting a column that has
    just been added to a table under an identifier that no column of
    that table had and no relation mentioned for it.  Only the flag
    [isNormalized] is lost. *)
Theorem deleting_undoes_adding :
  forall (state : State) (id tableId : string),
    (unused_table_id id state ->
     deleteTable id (addTable id state) = setNormalized false state)
    /\ (unused_column_id tableId id state ->
        deleteColumn tableId id (addColumn id tableId state)
        = setNormalized false state).
Proof.
  intros state id tableId. split.
  - apply deleteTable_addTable.
  - apply deleteColumn_addColumn.
Qed.

Lemma deleting_undoes_adding_witness :
  unused_table_id "t3" StoreExamples.blogState
  /\ unused_column_id "t1" "t3" StoreExamples.blogState
  /\ deleteTable "t3" (addTable "t3" StoreExamples.blogState)
     = setNormalized false StoreExamples.blogState
  /\ deleteColumn "t1" "t3" (addColumn "t3" "t1" StoreExamples.blogState)
     = setNormalized false StoreExamples.blogState.
Proof.
  assert (Ht : unused_table_id "t3" StoreExamples.blogState).
  { split; [exact blogState_fresh_table|].
    intros r [<-|[]]. split; discriminate. }
  assert (Hc : unused_column_id "t1" "t3" StoreExamples.blogState).
  { split; [exact blogState_fresh_column|].
    intros r [<-|[]]. split; intros [_ [=]]. }
  split; [exact Ht|]. split; [exact Hc|].
  split.
  - exact (proj1 (deleting_undoes_adding StoreExamples.blogState "t3" "t1")
             Ht).
  - exact (proj2 (deleting_undoes_adding StoreExamples.blogState "t3" "t1")
             Hc).
Defined.

End StoreProperties.

(* ===================================================================== *)
(** ** Facts about objects filled key by key *)
(* ===================================================================== *)

Module EntryFacts.
Import ObjFacts SetFacts.

Section Entries.
Context {A V : Type}.
Variable key : A -> string.
Variable val : A -> V.

Lemma In_replace (k k0 : string) (v v0 : V) (o : Obj.obj V) :
  In (k, v) (Obj.replace k0 v0 o) -> (k, v) = (k0, v0) \/ In (k, v) o.
Proof.
  induction o as [|[k' v'] o IH]; simpl; [auto|].
  destruct (String.eqb_spec k' k0) as [->|_]; simpl.
  - intros [E|H]; auto.
  - intros [E|H]; [auto|]. destruct (IH H); auto.
Qed.

Lemma In_set (k k0 : string) (v v0 : V) (o : Obj.obj V) :
  In (k, v) (Obj.set k0 v0 o) -> (k, v) = (k0, v0) \/ In (k, v) o.
Proof.
  unfold Obj.set. destruct (Obj.has o k0); [apply In_replace|].
  destruct (Obj.array_index k0) as [n|].
  - intros H. apply (Permutation_in _ (insert_index_perm n k0 v0 o)) in H.
    destruct H as [E|H]; auto.
  - intros [H|[E|[]]]%in_app_iff; auto.
Qed.

(** Every entry of the object was stored by the loop or was there. *)
Lemma fold_set_In (l : list A) :
  forall (o : Obj.obj V) (k : string) (v : V),
    In (k, v) (fold_left (fun o x => Obj.set (key x) (val x) o) l o) ->
    In (k, v) o \/ exists x, In x l /\ k = key x /\ v = val x.
Proof.
  induction l as [|x l IH]; intros o k v H; simpl in H; [auto|].
  apply IH in H as [H|(y & Hy & Hk & Hv)].
  - apply In_set in H as [[= -> ->]|H]; [|auto].
    right. exists x. simpl. auto.
  - right. exists y. simpl. auto.
Qed.

(** and every key the loop stored is a key of the object. *)
Lemma fold_set_present (l : list A) :
  forall (o : Obj.obj V) (k : string),
    Obj.get o k <> None \/ (exists x, In x l /\ key x = k) ->
    Obj.get (fold_left (fun o x => Obj.set (key x) (val x) o) l o) k <> None.
Proof.
  induction l as [|x l IH]; intros o k H; simpl.
  - destruct H as [H|(x & [] & _)]. exact H.
  - apply IH. rewrite get_set.
    destruct (String.eqb_spec (key x) k) as [E|Hne]; [left; discriminate|].
    destruct H as [H|(y & [<-|Hy] & Hk)]; [auto | congruence | eauto].
Qed.

Lemma keys_replace (k : string) (v : V) (o : Obj.obj V) :
  Obj.keys (Obj.replace k v o) = Obj.keys o.
Proof.
  unfold Obj.keys. induction o as [|[k' v'] o IH]; simpl; [reflexivity|].
  destruct (String.eqb k' k); simpl; [reflexivity | now rewrite IH].
Qed.

Lemma NoDup_keys_set (k : string) (v : V) (o : Obj.obj V) :
  NoDup (Obj.keys o) -> NoDup (Obj.keys (Obj.set k v o)).
Proof.
  intros Hnd. unfold Obj.set. destruct (Obj.has o k) eqn:Hk.
  - now rewrite keys_replace.
  - assert (Hfresh : k ∉ Obj.keys o).
    { rewrite list_elem_of_In, <- has_iff. congruence. }
    assert (Hcons : NoDup (Obj.keys ((k, v) :: o)))
      by (apply NoDup_cons; auto).
    destruct (Obj.array_index k) as [n|].
    + unfold Obj.keys in *.
      now rewrite (Permutation_map fst (insert_index_perm n k v o)).
    + unfold Obj.keys in *. rewrite map_app. simpl.
      now rewrite <- Permutation_cons_append.
Qed.

Lemma NoDup_keys_fold (l : list A) :
  forall o : Obj.obj V,
    NoDup (Obj.keys o) ->
    NoDup (Obj.keys (fold_left (fun o x => Obj.set (key x) (val x) o) l o)).
Proof.
  induction l as [|x l IH]; intros o H; simpl; [exact H|].
  apply IH. now apply NoDup_keys_set.
Qed.

End Entries.

End EntryFacts.

(* ===================================================================== *)
(** ** Facts about the schema that the normalizer builds *)
(* ===================================================================== *)

Module PipelineFacts.
Import SchemaNormalizer EntryFacts ObjFacts FillFacts NormalizerFacts.

Lemma normalized_entry (ts : list Table) (rs : list Relation)
  (tn : string) (nt : NormalizedTable) :
  In (tn, nt) (tables (normalizeSchema ts rs)) ->
  exists t, In t ts /\ tn = t_name t
            /\ nt = normalizeTable (foreignKeyMapOf ts rs) t.
Proof.
  unfold normalizeSchema. cbn [tables]. intros H.
  apply fold_set_In in H as [[]|H]. exact H.
Qed.

Lemma normalized_column_entry (fkMap : gmap string ForeignKey) (t : Table)
  (cn : string) (nc : NormalizedColumn) :
  In (cn, nc) (nt_columns (normalizeTable fkMap t)) ->
  exists c, In c (t_columns t) /\ cn = c_name c
            /\ nc = normalizeColumn fkMap t c.
Proof.
  unfold normalizeTable, normalizeColumns. cbn [nt_columns]. intros H.
  apply fold_set_In in H as [[]|H]. exact H.
Qed.

Lemma normalized_table_present (ts : list Table) (rs : list Relation)
  (t : Table) :
  In t ts -> Obj.get (tables (normalizeSchema ts rs)) (t_name t) <> None.
Proof.
  intros Ht. unfold normalizeSchema. cbn [tables].
  apply fold_set_present. right. eauto.
Qed.

Lemma normalized_always_wf (ts : list Table) (rs : list Relation) :
  wf_schema (normalizeSchema ts rs).
Proof.
  split.
  - unfold normalizeSchema. cbn [tables].
    apply NoDup_keys_fold. apply NoDup_nil_2.
  - apply List.Forall_forall. intros nt Hnt.
    apply In_values in Hnt as (tn & Hnt).
    apply normalized_entry in Hnt as (t & _ & _ & ->).
    unfold wf_table, normalizeTable, normalizeColumns. cbn [nt_columns].
    apply NoDup_keys_fold. apply NoDup_nil_2.
Qed.

Lemma foreignKey_origin (ts : list Table) (rs : list Relation) (k : string)
  (fk : ForeignKey) :
  foreignKeyMapOf ts rs !! k = Some fk ->
  exists r, In r rs
            /\ resolve (tableNameMapOf ts) (columnNameMapOf ts) r = Some fk.
Proof.
  rewrite foreignKeyMapOf_fill. intros H.
  apply fill_inv in H as [H|(r & Hr & _ & Hfk)]; [|eauto].
  rewrite lookup_empty in H. discriminate.
Qed.

Lemma tableName_origin (ts : list Table) (id name : string) :
  tableNameMapOf ts !! id = Some name ->
  exists t, In t ts /\ t_id t = id /\ t_name t = name.
Proof.
  rewrite tableNameMapOf_fill. intros H.
  apply fill_inv in H as [H|(t & Ht & Hid & [= Hname])]; [|eauto].
  rewrite lookup_empty in H. discriminate.
Qed.

(** The table that a foreign key of a normalized schema names is a key of
    that schema. *)
Lemma normalized_target_present (ts : list Table) (rs : list Relation)
  (tn cn : string) (nt : NormalizedTable) (nc : NormalizedColumn)
  (fk : ForeignKey) :
  In (tn, nt) (tables (normalizeSchema ts rs)) ->
  In (cn, nc) (nt_columns nt) ->
  nc_foreignKey nc = Some fk ->
  Obj.get (tables (normalizeSchema ts rs)) (fk_table fk) <> None.
Proof.
  intros Hnt Hnc Hfk.
  apply normalized_entry in Hnt as (t & Ht & -> & ->).
  apply normalized_column_entry in Hnc as (c & Hc & -> & ->).
  cbn [normalizeColumn nc_foreignKey] in Hfk.
  apply foreignKey_origin in Hfk as (r & Hr & Hres).
  apply resolve_source in Hres as [Hname _].
  apply tableName_origin in Hname as (s & Hs & _ & <-).
  now apply normalized_table_present.
Qed.

(** *** The guard on the schema of a well-formed graph *)

Section GraphGuard.
Import RoundTripSpec ListFacts GeneratorValidation GuardSpec GuardFacts.
Variable ts : list Table.
Variable rs : list Relation.
Hypothesis Hg : wf_graph ts rs.

#[local] Abbreviation fkMap := (foreignKeyMapOf ts rs).
#[local] Abbreviation N := (normalizeSchema ts rs).






End GraphGuard.

End PipelineFacts.

(* ===================================================================== *)
(** ** Validator, guard and generators on one schema *)
(* ===================================================================== *)

Module PipelineProperties.
Import SchemaNormalizer SchemaValidator ValidatorSpec ValidatorFacts
  GeneratorValidation GuardSpec GuardFacts OrderFacts PipelineSpec
  PipelineFacts ObjFacts.

Lemma table_not_found_origin (schema : NormalizedSchema)
  (e : ValidationError) :
  Violation schema e -> code e = "FK_TABLE_NOT_FOUND" ->
  exists tableName t columnName c fk,
    In (tableName, t) (tables schema)
    /\ In (columnName, c) (nt_columns t)
    /\ nc_foreignKey c = Some fk
    /\ Obj.get (tables schema) (fk_table fk) = None.
Proof.
  intros [H|[H|[H|H]]] Hcode; destruct H; cbn in Hcode; try discriminate.
  eauto 10.
Qed.

(** X4.  In the schema that [normalizeSchema] returns, whatever the
    editor graph, the table that a foreign key names is a table of the
    schema; so the validator never reports FK_TABLE_NOT_FOUND on it. *)
Theorem normalized_foreign_keys_find_their_table :
  forall (ts : list Table) (rs : list Relation),
    let N := normalizeSchema ts rs in
    (forall tn nt cn nc fk,
       In (tn, nt) (tables N) -> In (cn, nc) (nt_columns nt) ->
       nc_foreignKey nc = Some fk ->
       exists target, Obj.get (tables N) (fk_table fk) = Some target)
    /\ Forall (fun e => code e <> "FK_TABLE_NOT_FOUND")
         (errors (validateSchema N)).
Proof.
  intros ts rs N.
  assert (Hcore : forall tn nt cn nc fk,
             In (tn, nt) (tables N) -> In (cn, nc) (nt_columns nt) ->
             nc_foreignKey nc = Some fk ->
             exists target, Obj.get (tables N) (fk_table fk) = Some target).
  { intros tn nt cn nc fk Hnt Hnc Hfk.
    pose proof (normalized_target_present ts rs tn cn nt nc fk Hnt Hnc Hfk)
      as H.
    fold N in H. destruct (Obj.get (tables N) (fk_table fk)) as [target|];
      [eauto | congruence]. }
  split; [exact Hcore|].
  apply List.Forall_forall. intros e He Hcode.
  apply validateSchema_errors in He.
  destruct (table_not_found_origin N e He Hcode)
    as (tn & nt & cn & nc & fk & Hnt & Hnc & Hfk & Hnone).
  destruct (Hcore tn nt cn nc fk Hnt Hnc Hfk) as [target Hsome]. congruence.
Qed.

Lemma valid_no_violation (schema : NormalizedSchema) (e : ValidationError) :
  valid (validateSchema schema) = true -> ~ Violation schema e.
Proof.
  intros Hv He. apply validateSchema_valid in Hv.
  apply validateSchema_errors in He. rewrite Hv in He. exact He.
Qed.

(** For a valid schema the guard has one rule left to check. *)
Lemma valid_guard (schema : NormalizedSchema) :
  wf_schema schema ->
  valid (validateSchema schema) = true ->
  keys_apart schema <-> validateSchemaForGeneration schema = Returned tt.
Proof.
  intros Hwf Hv. split.
  - intros Hapart. apply validate_returned.
    destruct (collectErrors schema) as [|line rest] eqn:E; [reflexivity|].
    exfalso.
    assert (Hb : Broken schema line)
      by (apply collectErrors_spec; [assumption|]; rewrite E; now left).
    destruct Hb as [tn t cn c fk Ht Hc Hfk Hpk
                   |tn t cn c fk Ht Hc Hfk Hn
                   |tn t cn c fk target Ht Hc Hfk Hs Hn
                   |tn t cn c fk target rc Ht Hc Hfk Hs Hr Hpk].
    + rewrite (Hapart tn t cn c Ht Hc Hpk) in Hfk. discriminate.
    + eapply (valid_no_violation schema _ Hv). do 2 right. left.
      eapply v_fk_table_not_found; eauto.
    + eapply (valid_no_violation schema _ Hv). do 2 right. left.
      eapply v_fk_column_not_found; eauto.
    + eapply (valid_no_violation schema _ Hv). do 2 right. left.
      eapply v_fk_not_primary_key; eauto.
  - intros Hret tn t cn c Ht Hc Hpk.
    destruct (nc_foreignKey c) as [fk|] eqn:Hfk; [|reflexivity]. exfalso.
    assert (Hin : In (msg_fk_on_pk tn cn) (collectErrors schema)).
    { apply collectErrors_spec; [assumption|].
      eapply broken_fk_on_primary_key; eauto. }
    rewrite validate_thrown in Hret; [discriminate|].
    intros E. rewrite E in Hin. exact Hin.
Qed.

(** X5.  For a valid canonical schema, each generator returns a text
    exactly when no primary-key column carries a foreign key: the other
    rules of the guard follow from the validator's. *)
Theorem valid_schema_generates_iff_keys_apart :
  forall schema : NormalizedSchema,
    wf_schema schema ->
    valid (validateSchema schema) = true ->
    (keys_apart schema
     <-> exists sql, PostgresGenerator.generatePostgresSQL schema
                     = Returned sql)
    /\ (keys_apart schema
        <-> exists text, PrismaGenerator.generatePrismaSchema schema
                         = Returned text).
Proof.
  intros schema Hwf Hv.
  pose proof (valid_guard schema Hwf Hv) as Hguard.
  unfold PostgresGenerator.generatePostgresSQL,
    PrismaGenerator.generatePrismaSchema, PrismaCommon.generateWith.
  split; rewrite Hguard; split.
  - intros ->. destruct (orderTables_returns schema) as [order ->]. eauto.
  - intros [sql H].
    destruct (validateSchemaForGeneration schema) as [[]| |];
      [reflexivity | discriminate | discriminate].
  - intros ->. eauto.
  - intros [text H].
    destruct (validateSchemaForGeneration schema) as [[]| |];
      [reflexivity | discriminate | discriminate].
Qed.

Lemma blogSchema_wf : wf_schema blogSchema.
Proof. apply normalized_always_wf. Qed.

Lemma blogSchema_valid : valid (validateSchema blogSchema) = true.
Proof. vm_compute. reflexivity. Qed.

Lemma valid_schema_generates_iff_keys_apart_witness :
  wf_schema blogSchema
  /\ valid (validateSchema blogSchema) = true
  /\ (keys_apart blogSchema
      <-> exists sql, PostgresGenerator.generatePostgresSQL blogSchema
                      = Returned sql).
Proof.
  split; [exact blogSchema_wf|]. split; [exact blogSchema_valid|].
  exact (proj1 (valid_schema_generates_iff_keys_apart blogSchema
                  blogSchema_wf blogSchema_valid)).
Defined.



End PipelineProperties.

(* ===================================================================== *)
(** ** Facts about the column rows *)
(* ===================================================================== *)

Module RowFacts.
Import SchemaStore ColumnRow RowSpec StoreSpec StoreFacts ListFacts.

Lemma defaultChange_id (kind : option DefaultKind) (value : option string) :
  cd_id (defaultChangeUpdates kind value) = None.
Proof. destruct kind as [[]|]; reflexivity. Qed.

Lemma updates_keep_id (tables : list Table) (tableId : string)
  (column : Column) (data : ColumnData) :
  row_updates tables tableId column data -> cd_id data = None.
Proof.
  intros H. destruct H as [value|newType|field|checked data H|checked data H
                          |checked data H|value data H|data H].
  - reflexivity.
  - reflexivity.
  - destruct field; reflexivity.
  - unfold autoincrementBox in H. destruct (_ || _)%bool; [discriminate|].
    injection H as <-. destruct checked; reflexivity.
  - unfold uuidBox in H. destruct (_ || _)%bool; [discriminate|].
    injection H as <-. destruct checked; reflexivity.
  - unfold nowBox in H. destruct (negb _); [discriminate|].
    injection H as <-. destruct checked; reflexivity.
  - unfold customInput in H. injection H as <-.
    destruct (JS.truthy _); reflexivity.
  - unfold clearCustom in H. destruct (hasCustom _); [|discriminate].
    injection H as <-. reflexivity.
Qed.

(** A change of the default only *)
Lemma spread_default (column : Column) (kind : option DefaultKind)
  (value : option string) :
  let c' := spreadColumn column (defaultChangeUpdates kind value) in
  c_type c' = c_type column /\ c_primaryKey c' = c_primaryKey column
  /\ c_id c' = c_id column
  /\ c_default c'
     = match kind with
       | None => None
       | Some k_value =>
           Some (mkDefault k_value
                   (Some (match value with
                          | Some v => v
                          | None => EmptyString
                          end)))
       | Some k => Some (mkDefault k None)
       end.
Proof. destruct kind as [[]|]; repeat split. Qed.

Lemma compatible_cleared (column : Column) :
  compatible (spreadColumn column (defaultChangeUpdates None None)).
Proof. exact I. Qed.

Lemma updates_compatible (tables : list Table) (tableId : string)
  (column : Column) (data : ColumnData) :
  row_updates tables tableId column data ->
  compatible column -> compatible (spreadColumn column data).
Proof.
  intros H Hc.
  destruct H as [value|newType|field|checked data H|checked data H
                |checked data H|value data H|data H].
  - exact Hc.
  - unfold compatible, typeChangeUpdates, spreadColumn in *.
    cbn [c_default c_type c_primaryKey cd_default cd_type cd_primaryKey
         default] in *.
    destruct (c_default column) as [[[] v]|]; cbn in *; try exact I;
      destruct (String.eqb newType "int") eqn:E1;
      destruct (String.eqb newType "timestamp") eqn:E2;
      destruct (String.eqb newType "uuid") eqn:E3;
      destruct (String.eqb newType "varchar") eqn:E4;
      cbn; try exact I;
      rewrite ?String.eqb_eq in *; tauto.
  - unfold compatible, toggleUpdates, spreadColumn in *.
    destruct field;
      cbn [c_default c_type c_primaryKey cd_default cd_type cd_primaryKey
           default] in *;
      destruct (c_primaryKey column) eqn:Hpk;
      destruct (c_default column) as [[[] v]|]; cbn in *; try exact I;
      try exact Hc; destruct Hc; discriminate.
  - unfold autoincrementBox in H.
    destruct (negb _ || _)%bool eqn:E; [discriminate|]. injection H as <-.
    apply orb_false_iff in E as [E _]. apply negb_false_iff in E.
    unfold canUseAutoincrement in E.
    apply andb_true_iff in E as [E _]. apply andb_true_iff in E as [Ety Epk].
    apply String.eqb_eq in Ety.
    destruct checked; [|exact I].
    unfold compatible. cbn. auto.
  - unfold uuidBox in H.
    destruct (negb _ || _)%bool eqn:E; [discriminate|]. injection H as <-.
    apply orb_false_iff in E as [E _]. apply negb_false_iff in E.
    unfold canUseUUID in E. apply andb_true_iff in E as [Ety Epk].
    apply orb_true_iff in Ety.
    destruct checked; [|exact I].
    unfold compatible. cbn. rewrite !String.eqb_eq in Ety. auto.
  - unfold nowBox in H. destruct (negb _) eqn:E; [discriminate|].
    injection H as <-. apply negb_false_iff, String.eqb_eq in E.
    destruct checked; [|exact I]. unfold compatible. cbn. exact E.
  - unfold customInput in H. injection H as <-.
    destruct (JS.truthy _); exact I.
  - unfold clearCustom in H. destruct (hasCustom _); [|discriminate].
    injection H as <-. exact I.
Qed.

(** A row sets an auto-increment default only where no other column of
    the table has one. *)
Lemma updates_autoincrement (tables : list Table) (tableId : string)
  (column : Column) (data : ColumnData) :
  row_updates tables tableId column data ->
  kindIs k_autoincrement (spreadColumn column data) = true ->
  kindIs k_autoincrement column = true
  \/ hasOtherAutoincrement tables tableId column = false.
Proof.
  intros H.
  destruct H as [value|newType|field|checked data H|checked data H
                |checked data H|value data H|data H].
  - auto.
  - unfold kindIs, typeChangeUpdates, spreadColumn.
    cbn [c_default cd_default]. destruct (c_default column) as [d|]; [|auto].
    match goal with
    | |- context [if ?b then Some None else None] => destruct b
    end; cbn; [discriminate | auto].
  - unfold kindIs, toggleUpdates, spreadColumn.
    destruct field; cbn [c_default cd_default];
      destruct (c_default column) as [d|]; auto.
    match goal with
    | |- context [if ?b then Some None else None] => destruct b
    end; cbn; [discriminate | auto].
  - unfold autoincrementBox in H.
    destruct (negb _ || _)%bool eqn:E; [discriminate|]. intros _. right.
    apply orb_false_iff in E as [E _]. apply negb_false_iff in E.
    unfold canUseAutoincrement in E. apply andb_true_iff in E as [_ E].
    now apply negb_true_iff in E.
  - unfold uuidBox in H. destruct (_ || _)%bool; [discriminate|].
    injection H as <-. destruct checked; cbn; intros [=].
  - unfold nowBox in H. destruct (negb _); [discriminate|].
    injection H as <-. destruct checked; cbn; intros [=].
  - unfold customInput in H. injection H as <-.
    destruct (JS.truthy _); cbn; intros [=].
  - unfold clearCustom in H. destruct (hasCustom _); [|discriminate].
    injection H as <-. cbn. intros [=].
Qed.

Lemma hasOther_spec (tables : list Table) (t : Table) (column c : Column) :
  NoDup (map t_id tables) -> In t tables ->
  hasOtherAutoincrement tables (t_id t) column = false ->
  In c (t_columns t) -> c_id c <> c_id column ->
  kindIs k_autoincrement c = false.
Proof.
  intros Hnd Ht Hother Hc Hne.
  unfold hasOtherAutoincrement, otherColumns in Hother.
  rewrite (find_by_id t_id tables t Hnd Ht) in Hother.
  destruct (kindIs k_autoincrement c) eqn:E; [|reflexivity].
  assert (Hex : existsb (kindIs k_autoincrement)
                  (List.filter
                     (fun c => negb (String.eqb (c_id c) (c_id column)))
                     (t_columns t)) = true).
  { apply existsb_exists. exists c. split; [|assumption].
    apply filter_In. split; [assumption|].
    now apply negb_true_iff, String.eqb_neq. }
  congruence.
Qed.

Lemma spread_id (column : Column) (data : ColumnData) :
  cd_id data = None -> c_id (spreadColumn column data) = c_id column.
Proof. intros H. unfold spreadColumn. cbn [c_id]. now rewrite H. Qed.

(** The tables after [updateColumn] *)
Lemma updateColumn_tables (tableId columnId : string) (data : ColumnData)
  (state : State) (t' : Table) (c' : Column) :
  In t' (s_tables (updateColumn tableId columnId data state)) ->
  In c' (t_columns t') ->
  exists t c,
    In t (s_tables state) /\ In c (t_columns t) /\ t_id t' = t_id t
    /\ ((t_id t = tableId /\ c_id c = columnId
         /\ c' = spreadColumn c data)
        \/ ((t_id t <> tableId \/ c_id c <> columnId) /\ c' = c)).
Proof.
  cbn [updateColumn s_tables]. intros (t & <- & Ht)%in_map_iff.
  destruct (String.eqb_spec (t_id t) tableId) as [E|Hne].
  - cbn [t_columns t_id]. intros (c & <- & Hc)%in_map_iff.
    exists t, c. do 2 (split; [assumption|]). split; [reflexivity|].
    destruct (String.eqb_spec (c_id c) columnId); auto.
  - intros Hc'. exists t, c'. do 3 (split; [auto|]). right. auto.
Qed.

Lemma invariant_updateColumn (state : State) (tableId : string)
  (column : Column) (data : ColumnData) :
  editor_invariant state ->
  rendered state tableId column ->
  row_updates (s_tables state) tableId column data ->
  editor_invariant (updateColumn tableId (c_id column) data state).
Proof.
  intros (Hd & Hc & Hs) (t0 & Ht0 & Hid0 & Hcol) Hu.
  pose proof (updates_keep_id _ _ _ _ Hu) as Hkeep.
  assert (Hsame : forall t c,
             In t (s_tables state) -> In c (t_columns t) ->
             t_id t = tableId -> c_id c = c_id column ->
             t = t0 /\ c = column).
  { intros t c Ht Hcin Hid Hcid.
    assert (t = t0) as ->
      by (apply (NoDup_map_inj t_id (s_tables state));
          [apply Hd | assumption | assumption | congruence]).
    split; [reflexivity|].
    apply (NoDup_map_inj c_id (t_columns t0));
      [now apply Hd | assumption | assumption | assumption]. }
  split; [now apply distinct_updateColumn|]. split.
  - intros t' c' Ht' Hc'.
    destruct (updateColumn_tables _ _ _ _ _ _ Ht' Hc')
      as (t & c & Ht & Hcin & _ & [(Hid & Hcid & ->)|[_ ->]]);
      [|now apply (Hc t)].
    destruct (Hsame t c Ht Hcin Hid Hcid) as [-> ->].
    apply (updates_compatible _ _ _ _ Hu). now apply (Hc t0).
  - intros t' c1' c2' Ht' Hc1' Hc2' Ha1 Ha2.
    destruct (updateColumn_tables _ _ _ _ _ _ Ht' Hc1')
      as (t1 & c1 & Ht1 & Hc1 & Hid1 & H1).
    destruct (updateColumn_tables _ _ _ _ _ _ Ht' Hc2')
      as (t2 & c2 & Ht2 & Hc2 & Hid2 & H2).
    assert (t2 = t1) as ->
      by (apply (NoDup_map_inj t_id (s_tables state));
          [apply Hd | assumption | assumption | congruence]).
    assert (Hother : forall c c',
               In c (t_columns t1) -> In c' (t_columns t1) ->
               t_id t1 = tableId -> c_id c = c_id column ->
               kindIs k_autoincrement (spreadColumn c data) = true ->
               kindIs k_autoincrement c' = true ->
               c_id c = c_id c').
    { intros c c' Hcin Hcin' Hid Hcid Ha Ha'.
      destruct (Hsame t1 c Ht1 Hcin Hid Hcid) as [-> ->].
      destruct (updates_autoincrement _ _ _ _ Hu Ha) as [Hwas|Hnone].
      - now apply (Hs t0).
      - destruct (String.eqb_spec (c_id c') (c_id column)) as [E|Hne];
          [congruence|].
        rewrite <- Hid0 in Hnone.
        rewrite (hasOther_spec _ t0 column c' (proj1 Hd) Ht0 Hnone Hcin' Hne)
          in Ha'.
        discriminate. }
    destruct H1 as [(Hid & Hcid1 & ->)|[_ ->]],
             H2 as [(Hid' & Hcid2 & ->)|[_ ->]].
    + rewrite !spread_id by assumption. congruence.
    + rewrite spread_id by assumption. eapply Hother; eauto.
    + rewrite spread_id by assumption. symmetry. eapply Hother; eauto.
    + now apply (Hs t1).
Qed.

(** Tables whose columns with a default are columns of one table there
    was before *)
Lemma invariant_fewer (state state' : State) :
  distinct_ids state' ->
  (forall t', In t' (s_tables state') ->
     exists cols,
       (cols = [] \/ exists t, In t (s_tables state) /\ cols = t_columns t)
       /\ forall c', In c' (t_columns t') ->
                     In c' cols \/ c_default c' = None) ->
  editor_invariant state -> editor_invariant state'.
Proof.
  intros Hd' Hfrom (_ & Hc & Hs). split; [assumption|]. split.
  - intros t' c' Ht' Hc'.
    destruct (Hfrom t' Ht') as (cols & Hcols & Hall).
    destruct (Hall c' Hc') as [Hin|Hnone].
    + destruct Hcols as [->|(t & Ht & ->)]; [destruct Hin|].
      now apply (Hc t).
    + unfold compatible. now rewrite Hnone.
  - intros t' c1 c2 Ht' Hc1 Hc2 Ha1 Ha2.
    destruct (Hfrom t' Ht') as (cols & Hcols & Hall).
    destruct (Hall c1 Hc1) as [Hin1|Hnone];
      [|unfold kindIs in Ha1; rewrite Hnone in Ha1; discriminate].
    destruct (Hall c2 Hc2) as [Hin2|Hnone];
      [|unfold kindIs in Ha2; rewrite Hnone in Ha2; discriminate].
    destruct Hcols as [->|(t & Ht & ->)]; [destruct Hin1|].
    now apply (Hs t).
Qed.

Lemma invariant_same_tables (state state' : State) :
  s_tables state' = s_tables state ->
  editor_invariant state -> editor_invariant state'.
Proof.
  unfold editor_invariant, distinct_ids, all_compatible, single_autoincrement.
  now intros ->.
Qed.

(** Every event of the editor keeps the invariant. *)
Lemma invariant_event (state state' : State) :
  editor_invariant state -> event state state' -> editor_invariant state'.
Proof.
  intros Hinv Hev. pose proof Hinv as (Hd & _ & _).
  destruct Hev as [id Hfresh|id name|id|id tableId Hfresh
                  |tableId column data Hr Hu|tableId column
                  |id relation|relationId updates|relationId|value|].
  - apply (invariant_fewer state); [now apply distinct_addTable| |assumption].
    cbn [addTable s_tables].
    intros t' [Ht'|[<-|[]]]%in_app_iff.
    + exists (t_columns t'). split; [right; eauto | auto].
    + exists []. split; [auto | intros c' []].
  - apply (invariant_fewer state);
      [now apply distinct_updateTableName| |assumption].
    cbn [updateTableName s_tables]. intros t' (t & <- & Ht)%in_map_iff.
    exists (t_columns t). split; [right; eauto|].
    destruct (String.eqb (t_id t) id); auto.
  - apply (invariant_fewer state); [now apply distinct_deleteTable| |assumption].
    cbn [deleteTable s_tables]. intros t' [Ht' _]%filter_In.
    exists (t_columns t'). split; [right; eauto | auto].
  - apply (invariant_fewer state); [now apply distinct_addColumn| |assumption].
    cbn [addColumn s_tables]. intros t' (t & <- & Ht)%in_map_iff.
    exists (t_columns t). split; [right; eauto|].
    destruct (String.eqb (t_id t) tableId); [|auto].
    cbn [t_columns]. intros c' [Hc'|[<-|[]]]%in_app_iff; auto.
  - now apply invariant_updateColumn.
  - apply (invariant_fewer state);
      [now apply distinct_deleteColumn| |assumption].
    unfold handleDelete. cbn [deleteColumn s_tables].
    intros t' (t & <- & Ht)%in_map_iff.
    exists (t_columns t). split; [right; eauto|].
    destruct (String.eqb (t_id t) tableId); [|auto].
    cbn [t_columns]. intros c' [Hc' _]%filter_In. auto.
  - apply (invariant_same_tables state); [|assumption].
    now destruct relation as [[[? ?] ?] ?].
  - now apply (invariant_same_tables state).
  - now apply (invariant_same_tables state).
  - now apply (invariant_same_tables state).
  - split; [|split].
    + split; [apply NoDup_nil_2 | intros t []].
    + intros t c [].
    + intros t c c' [].
Qed.

Lemma invariant_reachable (state : State) :
  reachable state -> editor_invariant state.
Proof.
  induction 1 as [|state state' _ IH Hev].
  - split; [|split].
    + split; [apply NoDup_nil_2 | intros t []].
    + intros t c [].
    + intros t c c' [].
  - now apply (invariant_event state).
Qed.

(** An entry of an object with each key once is not among the entries
    before it. *)
Lemma NoDup_keys_split {V : Type} (o pre post : Obj.obj V) (k : string)
  (v v' : V) :
  NoDup (Obj.keys o) -> o = pre ++ (k, v) :: post -> ~ In (k, v') pre.
Proof.
  intros Hnd -> Hin. unfold Obj.keys in Hnd. rewrite map_app in Hnd.
  apply NoDup_app in Hnd as (_ & Hdisj & _).
  apply (Hdisj k).
  - rewrite list_elem_of_In. apply in_map_iff. exists (k, v'). auto.
  - simpl. left.
Qed.

Lemma kindOf_normalized (fkMap : gmap string ForeignKey) (t : Table)
  (c : Column) (kind : DefaultKind) :
  ValidatorSpec.kindOf (SchemaNormalizer.normalizeColumn fkMap t c)
  = Some kind ->
  exists d, c_default c = Some d /\ d_kind d = kind.
Proof.
  unfold ValidatorSpec.kindOf. cbn [SchemaNormalizer.normalizeColumn nc_default].
  destruct (c_default c) as [d|]; [|discriminate]. intros [= <-]. eauto.
Qed.

(** With the invariant, the default-value rules of the validator find
    nothing in the normalized schema. *)
Lemma invariant_defaults (state : State) :
  editor_invariant state ->
  SchemaValidator.validateDefaults (getNormalizedSchema state) = [].
Proof.
  intros (Hd & Hc & Hs).
  destruct (SchemaValidator.validateDefaults _) as [|e rest] eqn:E;
    [reflexivity|].
  exfalso.
  assert (Hv : ValidatorSpec.DefaultViolation (getNormalizedSchema state) e)
    by (apply ValidatorFacts.validateDefaults_spec; rewrite E; now left).
  clear E rest.
  assert (Hsrc : forall tn nt cn nc,
             In (tn, nt) (tables (getNormalizedSchema state)) ->
             In (cn, nc) (nt_columns nt) ->
             exists t c fkMap,
               In t (s_tables state) /\ In c (t_columns t)
               /\ nt = SchemaNormalizer.normalizeTable fkMap t
               /\ cn = c_name c
               /\ nc = SchemaNormalizer.normalizeColumn fkMap t c).
  { intros tn nt cn nc Hnt Hnc.
    apply PipelineFacts.normalized_entry in Hnt as (t & Ht & _ & ->).
    pose proof Hnc as Hnc'.
    apply PipelineFacts.normalized_column_entry in Hnc' as (c & Hcin & -> & ->).
    exists t, c. eauto 10. }
  destruct Hv
    as [tn nt pre cn nc post cn' nc' Hnt Hsplit Hin Hk' Hk
       |tn nt cn nc Hnt Hnc Hk Hty
       |tn nt cn nc Hnt Hnc Hk Hpk
       |tn nt cn nc Hnt Hnc Hk Hty
       |tn nt cn nc Hnt Hnc Hk Hty].
  - unfold ValidatorSpec.splitAt in Hsplit.
    assert (Hnc : In (cn, nc) (nt_columns nt))
      by (rewrite Hsplit; apply in_elt).
    assert (Hnc' : In (cn', nc') (nt_columns nt))
      by (rewrite Hsplit; apply in_or_app; now left).
    destruct (Hsrc tn nt cn nc Hnt Hnc)
      as (t & c & fkMap & Ht & Hcin & Hnt1 & -> & ->).
    pose proof Hnt1 as Hnt2. rewrite Hnt2 in Hnc'.
    apply PipelineFacts.normalized_column_entry in Hnc'
      as (c' & Hcin' & -> & ->).
    apply kindOf_normalized in Hk as (d & Hd1 & Hd2).
    apply kindOf_normalized in Hk' as (d' & Hd1' & Hd2').
    assert (c' = c) as ->.
    { apply (NoDup_map_inj c_id (t_columns t));
        [now apply Hd | assumption | assumption|].
      apply (Hs t); try assumption; unfold kindIs;
        rewrite ?Hd1, ?Hd1', ?Hd2, ?Hd2'; reflexivity. }
    eapply (NoDup_keys_split (nt_columns nt)); [|exact Hsplit|exact Hin].
    pose proof (PipelineFacts.normalized_always_wf (s_tables state)
                  (s_relations state)) as Hwf.
    apply (GuardFacts.wf_table_of _ tn _ Hwf).
    apply ObjFacts.get_In; [apply Hwf | exact Hnt].
  - destruct (Hsrc tn nt cn nc Hnt Hnc)
      as (t & c & fkMap & Ht & Hcin & _ & -> & ->).
    apply kindOf_normalized in Hk as (d & Hd1 & Hd2).
    pose proof (Hc t c Ht Hcin) as Hcomp. unfold compatible in Hcomp.
    rewrite Hd1, Hd2 in Hcomp. apply Hty. apply Hcomp.
  - destruct (Hsrc tn nt cn nc Hnt Hnc)
      as (t & c & fkMap & Ht & Hcin & _ & -> & ->).
    apply kindOf_normalized in Hk as (d & Hd1 & Hd2).
    pose proof (Hc t c Ht Hcin) as Hcomp. unfold compatible in Hcomp.
    rewrite Hd1, Hd2 in Hcomp.
    cbn [SchemaNormalizer.normalizeColumn nc_primaryKey] in Hpk.
    destruct Hcomp. congruence.
  - destruct (Hsrc tn nt cn nc Hnt Hnc)
      as (t & c & fkMap & Ht & Hcin & _ & -> & ->).
    apply kindOf_normalized in Hk as (d & Hd1 & Hd2).
    pose proof (Hc t c Ht Hcin) as Hcomp. unfold compatible in Hcomp.
    rewrite Hd1, Hd2 in Hcomp.
    cbn [SchemaNormalizer.normalizeColumn nc_type] in Hty.
    destruct Hcomp as [[Hx|Hx] _]; rewrite Hx in Hty; discriminate.
  - destruct (Hsrc tn nt cn nc Hnt Hnc)
      as (t & c & fkMap & Ht & Hcin & _ & -> & ->).
    apply kindOf_normalized in Hk as (d & Hd1 & Hd2).
    pose proof (Hc t c Ht Hcin) as Hcomp. unfold compatible in Hcomp.
    rewrite Hd1, Hd2 in Hcomp. apply Hty. apply Hcomp.
Qed.

End RowFacts.

(* ===================================================================== *)
(** ** Properties of the column rows and of the export panel *)
(* ===================================================================== *)

Module RowProperties.
Import SchemaStore ColumnRow RowSpec RowFacts StoreSpec ExportPanel
  PipelineSpec.

Lemma oneColumn_reachable : reachable RowExamples.oneColumn.
Proof.
  eapply reach_event; [eapply reach_event; [apply reach_initial|]|].
  - apply ev_addTable. intros t [].
  - apply ev_addColumn. intros t c [<-|[]] _ [].
Qed.

Lemma keyed_event : event RowExamples.oneColumn RowExamples.keyed.
Proof.
  apply (ev_row RowExamples.oneColumn "t" RowExamples.freshColumn).
  - exists (mkTable "t" "new_table" [RowExamples.freshColumn]).
    split; [now left|]. split; [reflexivity | now left].
  - apply ru_toggle.
Qed.

(** X7.  Take a store in which tables and columns have identifiers of
    their own, every default fits the type and the primary-key flag of
    its column (auto-increment on an int primary key, uuid on a uuid or
    varchar primary key, now on a timestamp) and no table has two
    auto-increment columns.  Every event of the editor other than
    loading a saved project leaves such a store: the handlers of a row
    clear a default that the new type or flag does not fit, and a control
    that would set an unfit default is disabled. *)
Theorem editor_events_keep_defaults_fit :
  forall state state' : State,
    editor_invariant state -> event state state' -> editor_invariant state'.
Proof. exact invariant_event. Qed.

Lemma editor_events_keep_defaults_fit_witness :
  editor_invariant RowExamples.oneColumn
  /\ event RowExamples.oneColumn RowExamples.keyed
  /\ editor_invariant RowExamples.keyed.
Proof.
  assert (H : editor_invariant RowExamples.oneColumn)
    by exact (invariant_reachable _ oneColumn_reachable).
  split; [exact H|]. split; [exact keyed_event|].
  exact (editor_events_keep_defaults_fit _ _ H keyed_event).
Defined.

(** X8.  In every state that the editor reaches from the empty store by
    such events, the default-value rules of the validator report nothing
    on the normalized schema. *)
Theorem editor_states_pass_the_default_rules :
  forall state : State,
    reachable state ->
    SchemaValidator.validateDefaults (getNormalizedSchema state) = [].
Proof.
  intros state H. apply invariant_defaults. now apply invariant_reachable.
Qed.

Lemma editor_states_pass_the_default_rules_witness :
  reachable RowExamples.keyed
  /\ SchemaValidator.validateDefaults
       (getNormalizedSchema RowExamples.keyed) = [].
Proof.
  assert (H : reachable RowExamples.keyed)
    by exact (reach_event _ _ oneColumn_reachable keyed_event).
  split; [exact H|].
  exact (editor_states_pass_the_default_rules _ H).
Defined.

(** An enabled button whose generator throws *)
Lemma keyToKey_throws :
  canExport RowExamples.keyToKey = true
  /\ exists message,
       copyToClipboard sql RowExamples.keyToKey = Output (Thrown message).
Proof. split; [vm_compute; reflexivity|]. eexists. vm_compute. reflexivity. Qed.


End RowProperties.

(* ===================================================================== *)
(** ** Facts about the generated SQL *)
(* ===================================================================== *)

Module TextFacts.
Import JS JSFacts ValidatorSpec NameFacts.

Lemma Contains_refl (s : string) : Contains s s.
Proof. exists EmptyString, EmptyString. now rewrite append_nil_r. Qed.

Lemma Contains_inside (p q s x : string) :
  Contains s x -> Contains (p +:+ s +:+ q) x.
Proof.
  intros (p' & q' & ->). exists (p +:+ p'), (q' +:+ q).
  now rewrite !append_assoc.
Qed.

Lemma Contains_right (p s x : string) : Contains s x -> Contains (p +:+ s) x.
Proof.
  intros H. rewrite <- (append_nil_r s). now apply Contains_inside.
Qed.

Lemma Contains_left (q s x : string) : Contains s x -> Contains (s +:+ q) x.
Proof. intros H. now apply (Contains_inside EmptyString q). Qed.

Lemma Contains_trans (s x y : string) :
  Contains s x -> Contains x y -> Contains s y.
Proof. intros (p & q & ->) H. now apply Contains_inside. Qed.

Lemma join_cons (sep w : string) (ws : list string) :
  ws <> [] -> join sep (w :: ws) = w +:+ sep +:+ join sep ws.
Proof. destruct ws; [congruence | reflexivity]. Qed.

Lemma Contains_join (sep w : string) (ws : list string) :
  In w ws -> Contains (join sep ws) w.
Proof.
  induction ws as [|x ws IH]; [intros []|].
  intros Hin. destruct ws as [|y ws].
  - destruct Hin as [->|[]]. apply Contains_refl.
  - rewrite join_cons by discriminate. destruct Hin as [->|Hin].
    + apply Contains_left, Contains_refl.
    + apply Contains_right, Contains_right. now apply IH.
Qed.

Lemma join_snoc (sep w : string) (ws : list string) :
  ws <> [] -> join sep (ws ++ [w]) = join sep ws +:+ sep +:+ w.
Proof.
  induction ws as [|x ws IH]; [congruence|]. intros _.
  destruct ws as [|y ws]; [reflexivity|].
  change ((x :: y :: ws) ++ [w]) with (x :: ((y :: ws) ++ [w])).
  rewrite join_cons by (simpl; discriminate).
  rewrite IH by discriminate.
  rewrite (join_cons sep x (y :: ws)) by discriminate.
  now rewrite !append_assoc.
Qed.

End TextFacts.

Module SqlFacts.
Import JS JSFacts SqlCommon SqlSpec ObjFacts OrderFacts TextFacts
  ValidatorSpec NameFacts.

Lemma readBody_escaped (value rest : string) :
  String.prefix squote rest = false ->
  readBody (replace_char "039"%char (squote +:+ squote) value
            +:+ squote +:+ rest)
  = Some (value, rest).
Proof.
  intros Hrest. induction value as [|a value IH].
  - cbn. destruct rest as [|b rest]; [reflexivity|].
    cbn in Hrest. destruct (Ascii.eqb_spec b "039"%char) as [->|_].
    + cbn [String.prefix] in Hrest.
      destruct (ascii_dec "039"%char "039"%char); [|congruence].
      destruct rest; discriminate.
    + reflexivity.
  - cbn [replace_char]. destruct (Ascii.eqb_spec a "039"%char) as [->|Hne].
    + unfold squote in *. cbn. cbn in IH. now rewrite IH.
    + unfold squote in *. cbn. apply Ascii.eqb_neq in Hne. rewrite Hne.
      cbn in IH. now rewrite IH.
Qed.

Lemma columnParts_nonempty (column : NormalizedColumn) :
  columnParts column <> [].
Proof. unfold columnParts. simpl. discriminate. Qed.

(** Without a composite key, the two revisions write the same clauses. *)
Lemma columnDefsOf_agree (t : NormalizedTable) :
  length (PostgresGenerator.pkColumnsOf t) <= 1 ->
  PostgresGeneratorRev.columnDefsOf t = PostgresGenerator.columnDefsOf t.
Proof.
  intros Hlen.
  unfold PostgresGeneratorRev.columnDefsOf, PostgresGenerator.columnDefsOf,
    PostgresGenerator.isCompositePK.
  replace (Nat.ltb 1 (length (PostgresGenerator.pkColumnsOf t))) with false
    by (symmetry; apply Nat.ltb_ge; exact Hlen).
  rewrite app_nil_r. apply map_ext. intros c.
  unfold PostgresGenerator.columnDef,
    PostgresGeneratorRev.generateColumnDefinition,
    PostgresGenerator.generateColumnDefinition.
  destruct (nc_primaryKey c); cbn [negb andb].
  - rewrite join_snoc by apply columnParts_nonempty. reflexivity.
  - now rewrite app_nil_r.
Qed.

Lemma statementsOf_ext (schema : NormalizedSchema)
  (f g : string -> NormalizedTable -> string) (order : list string) :
  (forall tableName t, In (tableName, t) (tables schema) ->
                       f tableName t = g tableName t) ->
  statementsOf schema f order = statementsOf schema g order.
Proof.
  intros H. unfold statementsOf. induction order as [|x order IH];
    [reflexivity|].
  simpl. rewrite IH. f_equal.
  destruct (Obj.get (tables schema) x) as [t|] eqn:E; [|reflexivity].
  f_equal. apply H. now apply get_Some_In.
Qed.

Lemma revisions_agree (schema : NormalizedSchema) :
  single_keys schema ->
  PostgresGeneratorRev.generatePostgresSQL schema
  = PostgresGenerator.generatePostgresSQL schema.
Proof.
  intros Hkeys.
  unfold PostgresGeneratorRev.generatePostgresSQL,
    PostgresGenerator.generatePostgresSQL.
  destruct (GeneratorValidation.validateSchemaForGeneration schema);
    try reflexivity.
  destruct (orderTables schema) as [order|]; [|reflexivity].
  do 2 f_equal. apply statementsOf_ext. intros tableName t Hin.
  unfold PostgresGeneratorRev.generateTableSQL,
    PostgresGenerator.generateTableSQL.
  rewrite columnDefsOf_agree; [reflexivity|]. exact (Hkeys _ _ Hin).
Qed.

Lemma primaryKeys_length (t : NormalizedTable) :
  length (SchemaValidator.primaryKeysOf t)
  = length (PostgresGenerator.pkColumnsOf t).
Proof.
  unfold SchemaValidator.primaryKeysOf, PostgresGenerator.pkColumnsOf,
    Obj.values.
  induction (nt_columns t) as [|[columnName c] columns IH]; [reflexivity|].
  cbn [flat_map map]. rewrite length_app, IH.
  rewrite filter_cons. destruct (nc_primaryKey c) eqn:E.
  - rewrite decide_True by (cbn; rewrite E; exact I). reflexivity.
  - rewrite decide_False by (cbn; rewrite E; auto). reflexivity.
Qed.

Lemma valid_single_keys (schema : NormalizedSchema) :
  SchemaValidator.valid (SchemaValidator.validateSchema schema) = true ->
  single_keys schema.
Proof.
  intros Hv tableName t Hin.
  apply ValidatorFacts.validateSchema_valid in Hv.
  unfold SchemaValidator.validateSchema in Hv. cbn [SchemaValidator.errors] in Hv.
  apply app_eq_nil in Hv as [_ Hv]. apply app_eq_nil in Hv as [Hv _].
  unfold SchemaValidator.validateColumns in Hv.
  assert (Hnone : SchemaValidator.multiplePkErrors tableName t = []).
  { destruct (SchemaValidator.multiplePkErrors tableName t) as [|e l] eqn:E;
      [reflexivity|].
    exfalso.
    assert (Hin' : In e (flat_map
               (fun '(tableName, t) =>
                  SchemaValidator.validateColumnsFrom tableName t ∅
                    (nt_columns t)
                  ++ SchemaValidator.multiplePkErrors tableName t)
               (tables schema))).
    { apply in_flat_map. exists (tableName, t). split; [assumption|].
      apply in_app_iff. right. rewrite E. now left. }
    rewrite Hv in Hin'. exact Hin'. }
  unfold SchemaValidator.multiplePkErrors in Hnone.
  apply map_eq_nil in Hnone. rewrite <- primaryKeys_length.
  destruct (SchemaValidator.primaryKeysOf t) as [|k [|k' l]]; simpl in *;
    [lia | lia | discriminate].
Qed.

(** The text of a table that has a statement is in the output. *)
Lemma statement_in_output (schema : NormalizedSchema)
  (f : string -> NormalizedTable -> string) (order : list string)
  (tableName : string) (t : NormalizedTable) :
  In tableName order ->
  Obj.get (tables schema) tableName = Some t ->
  Contains (join (nl +:+ nl) (statementsOf schema f order)) (f tableName t).
Proof.
  intros Hin Hget. apply Contains_join. unfold statementsOf.
  apply in_flat_map. exists tableName. split; [assumption|].
  rewrite Hget. now left.
Qed.

Lemma clause_in_statement (t : NormalizedTable) (defs : list string)
  (clause : string) :
  In clause defs -> Contains (assemble t defs) clause.
Proof.
  intros Hin. unfold assemble.
  eapply Contains_trans.
  - apply (Contains_join nl (join ("," +:+ nl) defs)). simpl. auto.
  - now apply Contains_join.
Qed.

Lemma createLine_in_statement (t : NormalizedTable) (defs : list string) :
  Contains (assemble t defs) (createLine t).
Proof.
  unfold assemble. apply (Contains_join nl (createLine t)). simpl. auto.
Qed.

End SqlFacts.

(* ===================================================================== *)
(** ** Properties of the generated SQL *)
(* ===================================================================== *)

Module SqlTextProperties.
Import JS JSFacts SqlCommon SqlSpec ObjFacts OrderFacts TextFacts SqlFacts
  ValidatorSpec NameFacts GeneratorValidation GuardSpec GuardFacts
  PipelineSpec.

(** X10.  The quoted default value that [escapeSQLValue] writes reads
    back, as a string literal of standard SQL, as the value itself,
    whatever the value, and the reading stops where the literal ends: a
    quote in the value cannot close the literal early. *)
Theorem default_literal_reads_back :
  forall value rest : string,
    String.prefix squote rest = false ->
    readLiteral (escapeSQLValue value +:+ rest) = Some (value, rest).
Proof.
  intros value rest Hrest. unfold escapeSQLValue. cbv zeta.
  rewrite !append_assoc. cbn [squote String.append readLiteral].
  rewrite Ascii.eqb_refl.
  exact (readBody_escaped value rest Hrest).
Qed.

Lemma default_literal_reads_back_witness :
  String.prefix squote " NOT NULL" = false
  /\ readLiteral ("'it''s' NOT NULL") = Some ("it's", " NOT NULL").
Proof.
  split; [reflexivity|].
  exact (default_literal_reads_back "it's" " NOT NULL" eq_refl).
Defined.

(** X11.  On a schema no table of which has more than one primary-key
    column, the two revisions of the SQL generator in
    lib/sql/postgresGenerator.ts give the same result, text or error. *)
Theorem sql_revisions_agree_on_single_keys :
  forall schema : NormalizedSchema,
    single_keys schema ->
    PostgresGeneratorRev.generatePostgresSQL schema
    = PostgresGenerator.generatePostgresSQL schema.
Proof. intros schema Hkeys. now apply revisions_agree. Qed.

Lemma blogSchema_single_keys : single_keys blogSchema.
Proof.
  intros tableName t [[= <- <-]|[[= <- <-]|[]]]; vm_compute; lia.
Qed.

Lemma sql_revisions_agree_on_single_keys_witness :
  single_keys blogSchema
  /\ PostgresGeneratorRev.generatePostgresSQL blogSchema
     = PostgresGenerator.generatePostgresSQL blogSchema.
Proof.
  split; [exact blogSchema_single_keys|].
  exact (sql_revisions_agree_on_single_keys blogSchema
           blogSchema_single_keys).
Defined.

(** X12.  A schema that the validator accepts has at most one
    primary-key column in every table.  So [generateTableSQL] never
    takes its composite-key branch on it: the key is marked in its column
    definition and no table-level [PRIMARY KEY (...)] clause is written. *)
Theorem valid_schema_has_single_keys :
  forall schema : NormalizedSchema,
    SchemaValidator.valid (SchemaValidator.validateSchema schema) = true ->
    single_keys schema
    /\ forall tableName t,
         In (tableName, t) (tables schema) ->
         PostgresGenerator.isCompositePK t = false
         /\ PostgresGenerator.columnDefsOf t
            = map (PostgresGenerator.columnDef false)
                (Obj.values (nt_columns t)).
Proof.
  intros schema Hv. pose proof (valid_single_keys schema Hv) as Hkeys.
  split; [assumption|]. intros tableName t Hin.
  assert (E : PostgresGenerator.isCompositePK t = false).
  { unfold PostgresGenerator.isCompositePK. apply Nat.ltb_ge.
    exact (Hkeys _ _ Hin). }
  split; [assumption|].
  unfold PostgresGenerator.columnDefsOf. rewrite E. apply app_nil_r.
Qed.

Lemma valid_schema_has_single_keys_witness :
  SchemaValidator.valid (SchemaValidator.validateSchema blogSchema) = true
  /\ single_keys blogSchema.
Proof.
  split; [vm_compute; reflexivity|].
  exact (proj1 (valid_schema_has_single_keys blogSchema eq_refl)).
Defined.

(** X13.  When the SQL generator returns a text, nothing of the schema
    is left out of it: the text contains the statement of every table,
    and the statement of a table contains its [CREATE TABLE] line and,
    for every foreign key of the table, the clause [FOREIGN KEY (column)
    REFERENCES table(column)]; the column that such a clause references
    is a primary-key column of a table of the schema. *)
Theorem returned_sql_leaves_nothing_out :
  forall (schema : NormalizedSchema) (text : string),
    wf_schema schema ->
    PostgresGenerator.generatePostgresSQL schema = Returned text ->
    forall tableName t,
      In (tableName, t) (tables schema) ->
      let statement := PostgresGenerator.generateTableSQL tableName t in
      includes text statement = true
      /\ includes statement (createLine t) = true
      /\ forall columnName c fk,
           In (columnName, c) (nt_columns t) ->
           nc_foreignKey c = Some fk ->
           includes statement (referenceClause c fk) = true
           /\ exists target rc,
                Obj.get (tables schema) (fk_table fk) = Some target
                /\ Obj.get (nt_columns target) (fk_column fk) = Some rc
                /\ nc_primaryKey rc = true.
Proof.
  intros schema text Hwf Hgen tableName t Hin statement.
  unfold PostgresGenerator.generatePostgresSQL in Hgen.
  destruct (validateSchemaForGeneration schema) as [[]| |] eqn:Hguard;
    try discriminate.
  destruct (orderTables schema) as [order|] eqn:Horder; [|discriminate].
  injection Hgen as <-.
  assert (Hnone : collectErrors schema = []).
  { destruct (collectErrors schema) as [|line l] eqn:E; [reflexivity|].
    rewrite validate_thrown in Hguard by (rewrite E; discriminate).
    discriminate. }
  assert (Hok : forall line, ~ Broken schema line).
  { intros line Hb. apply collectErrors_spec in Hb; [|assumption].
    rewrite Hnone in Hb. exact Hb. }
  destruct (orderTables_spec schema order Horder) as (_ & Hall & _).
  destruct Hwf as [Hnd Hcols].
  split; [|split].
  - apply includes_spec. apply statement_in_output.
    + apply Hall. apply In_keys. eauto.
    + now apply get_In.
  - apply includes_spec. apply createLine_in_statement.
  - intros columnName c fk Hc Hfk.
    assert (Hpk : nc_primaryKey c = false).
    { destruct (nc_primaryKey c) eqn:E; [|reflexivity]. exfalso.
      eapply Hok. eapply broken_fk_on_primary_key; eauto. }
    split.
    + apply includes_spec. subst statement.
      unfold PostgresGenerator.generateTableSQL.
      eapply Contains_trans.
      * apply clause_in_statement. apply in_app_iff. right.
        unfold fkConstraintsOf. apply in_flat_map. exists c.
        split; [apply In_values; eauto|].
        rewrite Hfk, Hpk. cbn [negb]. left. reflexivity.
      * apply (Contains_right "  "). apply Contains_refl.
    + destruct (Obj.get (tables schema) (fk_table fk)) as [target|] eqn:Et.
      2:{ exfalso. eapply Hok. eapply broken_target_table_missing; eauto. }
      destruct (Obj.get (nt_columns target) (fk_column fk)) as [rc|] eqn:Ec.
      2:{ exfalso. eapply Hok. eapply broken_target_column_missing; eauto. }
      exists target, rc. split; [reflexivity|]. split; [exact Ec|].
      destruct (nc_primaryKey rc) eqn:E; [reflexivity|]. exfalso.
      eapply Hok. eapply broken_target_not_primary_key; eauto.
Qed.

Lemma blogSql_returned :
  PostgresGenerator.generatePostgresSQL blogSchema = Returned blogSql.
Proof. vm_compute. reflexivity. Qed.

Lemma returned_sql_leaves_nothing_out_witness :
  wf_schema blogSchema
  /\ PostgresGenerator.generatePostgresSQL blogSchema = Returned blogSql
  /\ includes blogSql (PostgresGenerator.generateTableSQL "posts" blogPosts)
     = true.
Proof.
  split; [exact PipelineProperties.blogSchema_wf|].
  split; [exact blogSql_returned|].
  exact (proj1 (returned_sql_leaves_nothing_out blogSchema blogSql
                  PipelineProperties.blogSchema_wf blogSql_returned
                  "posts" blogPosts (or_intror (or_introl eq_refl)))).
Defined.

End SqlTextProperties.

(* ===================================================================== *)
(** ** Facts about the relation map of the Prisma generator *)
(* ===================================================================== *)

Module RelationMapFacts.
Import PrismaCommon RelationMapSpec ObjFacts.

(** The referencing tables recorded for [target] *)
#[local] Abbreviation recorded m target :=
  (default [] (m !! target) : list string).

Lemma existsb_eqb_In (x : string) (l : list string) :
  existsb (String.eqb x) l = true <-> In x l.
Proof.
  rewrite existsb_exists. split.
  - intros (y & Hy & E). apply String.eqb_eq in E. now subst.
  - intros H. exists x. split; [assumption | apply String.eqb_refl].
Qed.

Lemma noteReference_same (source target : string)
  (m : gmap string (list string)) :
  recorded (noteReference source target m) target
  = if existsb (String.eqb source) (recorded m target)
    then recorded m target
    else recorded m target ++ [source].
Proof.
  unfold noteReference.
  destruct (m !! target) as [l|] eqn:E; simpl.
  - rewrite !E. simpl. destruct (existsb (String.eqb source) l); simpl.
    + now rewrite E.
    + now rewrite lookup_insert_eq.
  - rewrite !lookup_insert_eq. simpl. now rewrite lookup_insert_eq.
Qed.

Lemma noteReference_other (source target k : string)
  (m : gmap string (list string)) :
  k <> target ->
  recorded (noteReference source target m) k = recorded m k.
Proof.
  intros Hne. unfold noteReference.
  destruct (m !! target) as [l|] eqn:E; simpl.
  - rewrite !E. simpl.
    destruct (existsb (String.eqb source) l); simpl; [reflexivity|].
    now rewrite lookup_insert_ne by congruence.
  - rewrite !lookup_insert_eq. simpl.
    now rewrite !lookup_insert_ne by congruence.
Qed.

Lemma buildRelationMap_flat (schema : NormalizedSchema) :
  buildRelationMap schema
  = fold_left (fun m '(source, target) => noteReference source target m)
      (referencesOf schema) ∅.
Proof.
  unfold buildRelationMap, referencesOf.
  generalize (∅ : gmap string (list string)).
  induction (tables schema) as [|[tableName table] rest IH]; intros m;
    [reflexivity|].
  cbn [fold_left flat_map]. rewrite fold_left_app, IH. f_equal.
  generalize m. clear.
  induction (Obj.values (nt_columns table)) as [|column columns IH];
    intros m; [reflexivity|].
  cbn [fold_left flat_map].
  destruct (nc_foreignKey column) as [fk|]; cbn [app fold_left]; apply IH.
Qed.

Lemma recorded_fold (refs : list (string * string))
  (m : gmap string (list string)) (target : string) :
  NoDup (recorded m target) ->
  let m' := fold_left
              (fun m '(source, target) => noteReference source target m)
              refs m in
  NoDup (recorded m' target)
  /\ forall source,
       In source (recorded m' target)
       <-> In source (recorded m target) \/ In (source, target) refs.
Proof.
  revert m. induction refs as [|[s t] refs IH]; intros m Hnd; cbn [fold_left].
  - split; [assumption|]. intros source. simpl. tauto.
  - assert (Hstep : NoDup (recorded (noteReference s t m) target)
                    /\ forall source,
                         In source (recorded (noteReference s t m) target)
                         <-> In source (recorded m target)
                             \/ (source, target) = (s, t)).
    { destruct (String.eqb_spec target t) as [->|Hne].
      - rewrite noteReference_same.
        destruct (existsb (String.eqb s) (recorded m t)) eqn:E.
        + split; [assumption|]. intros source. split; [auto|].
          intros [H|[= -> ]]; [assumption|]. now apply existsb_eqb_In.
        + split.
          * apply NoDup_app. split; [assumption|]. split.
            -- intros x Hx Hs. apply list_elem_of_In in Hs as [->|[]].
               apply list_elem_of_In, existsb_eqb_In in Hx. congruence.
            -- apply NoDup_singleton.
          * intros source. rewrite in_app_iff. simpl.
            split; intros [H|H]; auto.
            -- destruct H as [->|[]]. auto.
            -- injection H as ->. auto.
      - rewrite noteReference_other by assumption.
        split; [assumption|]. intros source. split; [auto|].
        intros [H|[= _ E]]; [assumption | congruence]. }
    destruct Hstep as [Hnd' Hin'].
    destruct (IH (noteReference s t m) Hnd') as [Hnd'' Hin''].
    split; [assumption|]. intros source.
    rewrite Hin'', Hin'. simpl. split.
    + intros [[H|H]|H]; auto.
    + intros [H|[H|H]]; auto.
Qed.

Lemma noteReference_nonempty (source target : string)
  (m : gmap string (list string)) :
  (forall k l, m !! k = Some l -> l <> []) ->
  forall k l, noteReference source target m !! k = Some l -> l <> [].
Proof.
  intros Hm k l. unfold noteReference.
  destruct (m !! target) as [l0|] eqn:E0; simpl.
  - rewrite !E0. simpl.
    destruct (existsb (String.eqb source) l0); [apply Hm|].
    destruct (decide (k = target)) as [->|Hne].
    + rewrite lookup_insert_eq. intros [= <-]. now destruct l0.
    + rewrite lookup_insert_ne by congruence. apply Hm.
  - rewrite !lookup_insert_eq. simpl.
    destruct (decide (k = target)) as [->|Hne].
    + rewrite lookup_insert_eq. intros [= <-]. discriminate.
    + rewrite !lookup_insert_ne by congruence. apply Hm.
Qed.

(** No entry of the map is an empty list. *)
Lemma recorded_nonempty (refs : list (string * string))
  (m : gmap string (list string)) :
  (forall k l, m !! k = Some l -> l <> []) ->
  forall k l,
    fold_left (fun m '(source, target) => noteReference source target m)
      refs m !! k = Some l ->
    l <> [].
Proof.
  revert m. induction refs as [|[s t] refs IH]; intros m Hm; [exact Hm|].
  cbn [fold_left]. apply IH. now apply noteReference_nonempty.
Qed.

Lemma referencesOf_In (schema : NormalizedSchema) (source target : string) :
  In (source, target) (referencesOf schema)
  <-> referencing schema target source.
Proof.
  unfold referencesOf, referencing. rewrite in_flat_map. split.
  - intros ([tableName table] & Ht & Hin).
    apply in_flat_map in Hin as (column & Hc & Hin).
    destruct (nc_foreignKey column) as [fk|] eqn:E; [|destruct Hin].
    destruct Hin as [[= -> <-]|[]]. exists table, column, fk. auto.
  - intros (table & column & fk & Ht & Hc & Hfk & <-).
    exists (source, table). split; [assumption|].
    apply in_flat_map. exists column. split; [assumption|].
    rewrite Hfk. now left.
Qed.

(** The referencing tables recorded for a table *)
Lemma recorded_In (schema : NormalizedSchema) (target source : string) :
  In source (recorded (buildRelationMap schema) target)
  <-> referencing schema target source.
Proof.
  rewrite buildRelationMap_flat.
  destruct (recorded_fold (referencesOf schema) ∅ target) as [_ Hin].
  { rewrite lookup_empty. constructor. }
  cbv zeta in Hin. rewrite Hin, lookup_empty, <- referencesOf_In.
  simpl. tauto.
Qed.

Lemma insert_sorted_In (x y : string) (l : list string) :
  In y (insert_sorted x l) <-> y = x \/ In y l.
Proof.
  induction l as [|a l IH]; simpl; [intuition congruence|].
  destruct (String.leb x a); simpl; [intuition congruence|].
  rewrite IH. intuition congruence.
Qed.

(** Sorting keeps the names. *)
Lemma sort_In (y : string) (l : list string) : In y (sort l) <-> In y l.
Proof.
  unfold sort. induction l as [|a l IH]; simpl; [tauto|].
  rewrite insert_sorted_In, IH. intuition congruence.
Qed.

End RelationMapFacts.

(* ===================================================================== *)
(** ** Properties of the relation map *)
(* ===================================================================== *)

Module RelationMapProperties.
Import PrismaCommon RelationMapSpec RelationMapFacts.

(** X14.  The list that [buildRelationMap] records for a table holds
    exactly the tables that have a foreign key into it, each once,
    however many of its columns reference the table; a table that no
    foreign key names has no entry.  So a model gets one back-relation
    field for each table that references it. *)
Theorem relation_map_lists_each_referencing_table_once :
  forall (schema : NormalizedSchema) (target : string),
    let referencingTables :=
      default [] (buildRelationMap schema !! target) in
    NoDup referencingTables
    /\ (forall source,
          In source referencingTables <-> referencing schema target source)
    /\ (buildRelationMap schema !! target = None
        <-> forall source, ~ referencing schema target source).
Proof.
  intros schema target referencingTables. subst referencingTables.
  rewrite buildRelationMap_flat.
  destruct (recorded_fold (referencesOf schema) ∅ target) as [Hnd Hin].
  { rewrite lookup_empty. constructor. }
  cbv zeta in Hnd, Hin.
  assert (Hin' : forall source,
            In source
              (default []
                 (fold_left
                    (fun m '(source, target) =>
                       noteReference source target m)
                    (referencesOf schema) ∅ !! target))
            <-> referencing schema target source).
  { intros source. rewrite Hin, lookup_empty, <- referencesOf_In.
    simpl. tauto. }
  split; [assumption|]. split; [assumption|].
  split.
  - intros E source Hs. apply Hin' in Hs. rewrite E in Hs. exact Hs.
  - intros Hno.
    destruct (fold_left _ (referencesOf schema) ∅ !! target) as [l|] eqn:E;
      [|reflexivity].
    exfalso.
    assert (Hne : l <> []).
    { apply (recorded_nonempty (referencesOf schema) ∅) with target;
        [|exact E].
      intros k l' H. rewrite lookup_empty in H. discriminate. }
    destruct l as [|source l]; [congruence|].
    apply (Hno source), Hin'. now left.
Qed.

(** X21.  When the Prisma generator of unnamed/part_003 returns a
    text, the text contains the model of every table, and the model of a
    table contains its opening line with the model name, the line
    [@@map] with the table name and, for every table that references it,
    the back-relation field named after that table. *)
Theorem returned_prisma_has_every_model :
  forall (schema : NormalizedSchema) (text : string),
    wf_schema schema ->
    PrismaGenerator.generatePrismaSchema schema = Returned text ->
    forall tableName t,
      In (tableName, t) (tables schema) ->
      let model :=
        PrismaGenerator.generateModel tableName t (buildRelationMap schema)
      in
      JS.includes text model = true
      /\ JS.includes model
           ("model " +:+ PrismaGenerator.toModelName tableName +:+ " {")
         = true
      /\ JS.includes model
           ("@@map(" +:+ JS.dquote +:+ tableName +:+ JS.dquote +:+ ")")
         = true
      /\ forall source,
           referencing schema tableName source ->
           JS.includes model
             (generateBackRelationField source
                (PrismaGenerator.toModelName source)) = true.
Proof.
  intros schema text [Hnd _] Hgen tableName t Hin model.
  unfold PrismaGenerator.generatePrismaSchema, generateWith in Hgen.
  destruct (GeneratorValidation.validateSchemaForGeneration schema)
    as [[]| |]; try discriminate.
  cbv zeta in Hgen. injection Hgen as <-.
  split; [|split; [|split]].
  - apply NameFacts.includes_spec, TextFacts.Contains_join.
    apply in_flat_map. exists tableName. split.
    + apply sort_In, ObjFacts.In_keys. eauto.
    + rewrite (ObjFacts.get_In _ _ _ Hnd Hin). now left.
  - apply NameFacts.includes_spec. subst model.
    unfold PrismaGenerator.generateModel. cbv zeta.
    apply TextFacts.Contains_join. simpl. auto.
  - apply NameFacts.includes_spec. subst model.
    unfold PrismaGenerator.generateModel. cbv zeta.
    eapply TextFacts.Contains_trans.
    + apply TextFacts.Contains_join.
      apply in_app_iff. right. apply in_app_iff. right.
      apply in_app_iff. right. apply in_app_iff. right.
      apply in_app_iff. left. left. reflexivity.
    + apply (TextFacts.Contains_right "  "), TextFacts.Contains_refl.
  - intros source Hs. apply NameFacts.includes_spec. subst model.
    unfold PrismaGenerator.generateModel. cbv zeta.
    eapply TextFacts.Contains_trans.
    + apply TextFacts.Contains_join.
      apply in_app_iff. right. apply in_app_iff. right.
      apply in_app_iff. right. apply in_app_iff. left.
      apply in_map_iff. exists source. split; [reflexivity|].
      now apply recorded_In.
    + apply (TextFacts.Contains_right "  "), TextFacts.Contains_refl.
Qed.

Lemma blogPrisma_returned :
  PrismaGenerator.generatePrismaSchema PipelineSpec.blogSchema
  = Returned blogPrisma.
Proof. vm_compute. reflexivity. Qed.

Lemma returned_prisma_has_every_model_witness :
  wf_schema PipelineSpec.blogSchema
  /\ PrismaGenerator.generatePrismaSchema PipelineSpec.blogSchema
     = Returned blogPrisma
  /\ JS.includes blogPrisma
       (PrismaGenerator.generateModel "posts" SqlSpec.blogPosts
          (buildRelationMap PipelineSpec.blogSchema)) = true.
Proof.
  split; [exact PipelineProperties.blogSchema_wf|].
  split; [exact blogPrisma_returned|].
  exact (proj1 (returned_prisma_has_every_model PipelineSpec.blogSchema
                  blogPrisma PipelineProperties.blogSchema_wf
                  blogPrisma_returned "posts" SqlSpec.blogPosts
                  (or_intror (or_introl eq_refl)))).
Defined.

End RelationMapProperties.

(* ===================================================================== *)
(** ** Facts about the editor page *)
(* ===================================================================== *)

Module EditorFacts.
Import JS JSFacts SchemaStore SchemaNormalizer RoundTripSpec Editor
  EditorSpec ObjFacts ListFacts FillFacts NormalizerFacts.

Lemma split2_plain (b : string) :
  has_char ":"%char b = false -> split2 ":"%char ":"%char b = [b].
Proof.
  induction b as [|x r IH]; [reflexivity|].
  intros H. cbn [has_char] in H. apply orb_false_iff in H as [Hx Hr].
  cbn [split2]. destruct r as [|y r']; [reflexivity|].
  rewrite Hx. cbn [andb]. now rewrite (IH Hr).
Qed.

(** A handle splits into the two identifiers it was made of. *)
Lemma split2_handle (a b : string) :
  has_char ":"%char a = false -> has_char ":"%char b = false ->
  split2 ":"%char ":"%char (a +:+ "::" +:+ b) = [a; b].
Proof.
  intros Ha Hb. induction a as [|x a IH].
  - cbn. now rewrite (split2_plain b Hb).
  - cbn [has_char] in Ha. apply orb_false_iff in Ha as [Hx Ha].
    specialize (IH Ha).
    change (String x a +:+ "::" +:+ b) with (String x (a +:+ "::" +:+ b)).
    cbn [split2].
    destruct (a +:+ "::" +:+ b) as [|y r'] eqn:E.
    + destruct a; discriminate.
    + rewrite Hx. cbn [andb]. now rewrite IH.
Qed.

Lemma destructure_handle (a b : string) :
  has_char ":"%char a = false -> has_char ":"%char b = false ->
  destructure (a +:+ "::" +:+ b) = (Some a, Some b).
Proof.
  intros Ha Hb. unfold destructure. now rewrite split2_handle.
Qed.

Lemma handle_truthy (a b : string) : truthy (a +:+ "::" +:+ b) = true.
Proof. destruct a; reflexivity. Qed.

Lemma has_char_cons (c x : ascii) (s : string) :
  has_char c (String x s) = false <-> x <> c /\ has_char c s = false.
Proof.
  cbn [has_char]. rewrite orb_false_iff, Ascii.eqb_neq. reflexivity.
Qed.

Lemma NoDup_lastWithKey {A : Type} (key : A -> string) (l : list A) (x : A) :
  NoDup (map key l) -> In x l -> lastWithKey key l x.
Proof.
  intros Hnd Hin. apply in_split in Hin as (pre & post & ->).
  exists pre, post. split; [reflexivity|].
  intros y Hy E. rewrite map_app in Hnd. cbn [map] in Hnd.
  apply NoDup_app in Hnd as (_ & _ & Hnd). apply NoDup_cons in Hnd as [Hx _].
  apply Hx. rewrite <- E. apply list_elem_of_In. now apply in_map.
Qed.

Section Tidy.
Variable ts : list Table.
Hypothesis Htidy : tidy ts.

Lemma find_table (t : Table) :
  In t ts -> findTable ts (t_id t) = Some t.
Proof.
  intros Ht. unfold findTable. apply (find_by_id t_id); [apply Htidy|].
  assumption.
Qed.

Lemma find_column (t : Table) (c : Column) :
  In t ts -> In c (t_columns t) -> findColumn t (c_id c) = Some c.
Proof.
  intros Ht Hc. unfold findColumn.
  apply (find_by_id c_id); [now apply Htidy | assumption].
Qed.

(** A relation between two columns of the tables is kept, with the
    names of its source. *)
Lemma resolve_columns (r : Relation) (s t : Table) (sc tc : Column) :
  In s ts -> In sc (t_columns s) -> In t ts -> In tc (t_columns t) ->
  endpointIds r = (t_id s, c_id sc, t_id t, c_id tc) ->
  resolve (tableNameMapOf ts) (columnNameMapOf ts) r
  = Some (mkForeignKey (t_name s) (c_name sc)).
Proof.
  intros Hs Hsc Ht Htc E.
  rewrite (resolve_find ts [] Htidy). unfold endpointNames. rewrite E.
  unfold namesOfIds.
  now rewrite (find_table s Hs), (find_table t Ht), (find_column s sc Hs Hsc),
    (find_column t tc Ht Htc).
Qed.

(** The column of the canonical schema that a relation appended last
    points at carries the names of the source of the relation. *)
Lemma appended_relation (rs : list Relation) (r : Relation) (s t : Table)
  (sc tc : Column) :
  In s ts -> In sc (t_columns s) -> In t ts -> In tc (t_columns t) ->
  endpointIds r = (t_id s, c_id sc, t_id t, c_id tc) ->
  exists nt nc,
    Obj.get (tables (normalizeSchema ts (rs ++ [r]))) (t_name t) = Some nt
    /\ Obj.get (nt_columns nt) (c_name tc) = Some nc
    /\ nc_foreignKey nc = Some (mkForeignKey (t_name s) (c_name sc)).
Proof.
  intros Hs Hsc Ht Htc E.
  assert (Hlt : lastWithKey t_name ts t)
    by (apply NoDup_lastWithKey; [apply Htidy | assumption]).
  assert (Hlc : lastWithKey c_name (t_columns t) tc)
    by (apply NoDup_lastWithKey; [now apply Htidy | assumption]).
  destruct (normalizeSchema_get ts (rs ++ [r]) t tc Hlt Hlc) as [Hgt Hgc].
  eexists _, _. split; [exact Hgt|]. split; [exact Hgc|].
  cbn [nc_foreignKey normalizeColumn].
  unfold endpointIds in E. injection E as E1 E2 E3 E4.
  apply foreignKeyMap_last; try assumption.
  - intros t' Ht'. now apply Htidy.
  - apply (resolve_columns r s t sc tc); try assumption.
    unfold endpointIds. congruence.
  - intros r' [].
Qed.

End Tidy.

(** *** Retargeting *)

(** No column is stored under a key whose column part has a space. *)
Lemma spaced_key_absent (ts : list Table) (tableId columnId : string) :
  plain_ids ts ->
  has_char ":"%char tableId = false ->
  columnNameMapOf ts !! columnKey tableId (String " "%char columnId) = None.
Proof.
  intros Hplain Hid. rewrite columnNameMapOf_fill, fill_absent;
    [apply lookup_empty|].
  intros [t c] Hp Hk. exfalso. cbn [fst snd] in Hk.
  apply in_flat_map in Hp as (t0 & Ht0 & Hp).
  apply in_map_iff in Hp as (c0 & [= -> ->] & Hc).
  destruct (Hplain t Ht0) as [[Hcolon _] Hcols].
  apply columnKey_inj in Hk as [_ Hk]; [|assumption|assumption].
  destruct (Hcols c Hc) as [_ Hspace]. rewrite Hk in Hspace.
  cbn in Hspace. discriminate.
Qed.

Lemma resolve_spaced (ts : list Table) (r : Relation) (columnId : string) :
  plain_ids ts ->
  has_char ":"%char (toTableId r) = false ->
  toColumnId r = String " "%char columnId ->
  resolve (tableNameMapOf ts) (columnNameMapOf ts) r = None.
Proof.
  intros Hplain Hid E. unfold resolve. rewrite E.
  rewrite (spaced_key_absent ts _ _ Hplain Hid).
  destruct (tableNameMapOf ts !! fromTableId r); [|reflexivity].
  destruct (columnNameMapOf ts !! _); [|reflexivity].
  destruct (tableNameMapOf ts !! toTableId r); reflexivity.
Qed.

(** Relations that are skipped count for nothing. *)
Lemma foreignKeyMap_skip (ts : list Table) (rs : list Relation)
  (f : Relation -> Relation) (p : Relation -> bool)
  (m : gmap string ForeignKey) :
  (forall r, In r rs -> p r = false ->
     resolve (tableNameMapOf ts) (columnNameMapOf ts) (f r) = None) ->
  foreignKeyMapFrom (tableNameMapOf ts) (columnNameMapOf ts)
    (map (fun r => if p r then r else f r) rs) m
  = foreignKeyMapFrom (tableNameMapOf ts) (columnNameMapOf ts)
      (List.filter p rs) m.
Proof.
  revert m. induction rs as [|r rs IH]; intros m H; [reflexivity|].
  cbn [map List.filter]. destruct (p r) eqn:E.
  - cbn [foreignKeyMapFrom fold_left]. apply IH.
    intros r' Hr'. apply H. now right.
  - cbn [foreignKeyMapFrom fold_left].
    rewrite (H r (or_introl eq_refl) E). apply IH.
    intros r' Hr'. apply H. now right.
Qed.

(** *** The flag *)

Lemma check_keeps_graph (state : State) :
  s_tables (handleTestNormalization state) = s_tables state
  /\ s_relations (handleTestNormalization state) = s_relations state.
Proof.
  unfold handleTestNormalization. cbv zeta.
  destruct (SchemaValidator.valid _); split; reflexivity.
Qed.

Lemma handleEdgesDelete_flag (edgesToDelete : list string) (state : State) :
  s_isNormalized (handleEdgesDelete edgesToDelete state) = true ->
  handleEdgesDelete edgesToDelete state = state.
Proof.
  unfold handleEdgesDelete. revert state.
  induction edgesToDelete as [|id ids IH]; intros state H; [reflexivity|].
  cbn [fold_left] in *. rewrite (IH _ H) in H. discriminate.
Qed.

(** An action that leaves the flag set has not touched the graph, or is
    a check that succeeded. *)
Lemma action_flag (state state' : State) :
  action state state' ->
  s_isNormalized state' = true ->
  (state' = state
   \/ (state' = setNormalized true state
       /\ SchemaValidator.valid
            (SchemaValidator.validateSchema (getNormalizedSchema state))
          = true)).
Proof.
  intros Hact Hflag.
  destruct Hact as [id|id name|id|id tableId|tableId columnId data
                   |tableId column|id connection state' title Hc
                   |selected value state' Hu|selected|edges| | |uuid schema];
    try discriminate.
  - unfold handleConnect in Hc.
    destruct (missing _ || missing _)%bool; [injection Hc as <- _; auto|].
    destruct (destructure _) as [sT sC].
    destruct (destructure _) as [tT tC].
    destruct (List.find _ (s_tables state)) as [sourceTable|];
      [|injection Hc as <- _; auto].
    destruct (List.find _ (t_columns sourceTable)) as [sourceColumn|];
      [|injection Hc as <- _; auto].
    destruct (negb (c_primaryKey sourceColumn));
      [injection Hc as <- _; auto|].
    destruct sT, sC, tT, tC; try discriminate.
    injection Hc as <- _. discriminate.
  - unfold handleUpdateTargetColumn in Hu.
    destruct (missing selected); [injection Hu as <-; auto|].
    destruct (List.find _ (s_relations state)); [|injection Hu as <-; auto].
    destruct (destructure value) as [[toT|] [toC|]]; try discriminate.
    injection Hu as <-. discriminate.
  - unfold handleDeleteSelectedEdge in *.
    destruct (missing selected); [auto | discriminate].
  - left. now apply handleEdgesDelete_flag.
  - unfold handleTestNormalization in *. cbv zeta in *.
    destruct (SchemaValidator.valid _) eqn:E; auto.
  - unfold loadProject in Hflag. cbv zeta in Hflag.
    destruct (SchemaDenormalizer.denormalizeSchema uuid schema).
    discriminate.
Qed.

Lemma reached_flag (state : State) :
  reached state ->
  s_isNormalized state = true ->
  SchemaValidator.valid
    (SchemaValidator.validateSchema (getNormalizedSchema state)) = true.
Proof.
  induction 1 as [|state state' Hreach IH Hact]; [discriminate|].
  intros Hflag.
  destruct (action_flag state state' Hact Hflag) as [->|[-> Hv]].
  - now apply IH.
  - exact Hv.
Qed.

End EditorFacts.

(* ===================================================================== *)
(** ** Properties of the editor page *)
(* ===================================================================== *)

Module EditorProperties.
Import JS JSFacts SchemaStore SchemaNormalizer RoundTripSpec Editor
  EditorSpec EditorFacts ObjFacts ListFacts ExportPanel.

(** X15.  Let the tables of the store have identifiers and names of
    their own, as have the columns of each table, names that are not
    empty and identifiers without colon or space.  A connection drawn
    from the handle of one column row to the handle of another is valid
    ([isValidConnection]) exactly when the source column is a primary
    key.  [handleConnect] then appends the relation from the source
    column to the target column, and in the normalized schema the target
    column carries the foreign key naming the source table and column,
    whatever was related to it before; when the source is no primary key
    the store is left as it was. *)
Theorem connecting_from_a_key_makes_the_foreign_key :
  forall (state : State) (id : string) (s t : Table) (sc tc : Column),
    tidy (s_tables state) ->
    plain_ids (s_tables state) ->
    In s (s_tables state) -> In sc (t_columns s) ->
    In t (s_tables state) -> In tc (t_columns t) ->
    let connection :=
      mkConnection (Some (handleId (t_id s) sc))
        (Some (handleId (t_id t) tc)) in
    isValidConnection (s_tables state) connection = c_primaryKey sc
    /\ (c_primaryKey sc = false ->
        exists title,
          handleConnect id connection state = Some (state, title))
    /\ (c_primaryKey sc = true ->
        exists state' title,
          handleConnect id connection state = Some (state', title)
          /\ state'
             = addRelation id (t_id s, c_id sc, t_id t, c_id tc) state
          /\ exists nt nc,
               Obj.get (tables (getNormalizedSchema state')) (t_name t)
               = Some nt
               /\ Obj.get (nt_columns nt) (c_name tc) = Some nc
               /\ nc_foreignKey nc
                  = Some (mkForeignKey (t_name s) (c_name sc))).
Proof.
  intros state id s t sc tc Htidy Hplain Hs Hsc Ht Htc connection.
  destruct (Hplain s Hs) as [[Hsid _] Hscols].
  destruct (Hscols sc Hsc) as [Hscid _].
  destruct (Hplain t Ht) as [[Htid _] Htcols].
  destruct (Htcols tc Htc) as [Htcid _].
  assert (Hfs : List.find (fun x => is_id (Some (t_id s)) (t_id x))
                  (s_tables state) = Some s)
    by exact (find_table _ Htidy s Hs).
  assert (Hfc : List.find (fun x => is_id (Some (c_id sc)) (c_id x))
                  (t_columns s) = Some sc)
    by exact (find_column _ Htidy s sc Hs Hsc).
  subst connection.
  unfold isValidConnection, handleConnect, handleId.
  cbn [sourceHandle targetHandle missing default from_option Datatypes.id].
  rewrite !handle_truthy. cbn [negb orb].
  rewrite !destructure_handle by assumption.
  rewrite Hfs, Hfc.
  split; [reflexivity|]. split.
  - intros ->. cbn [negb]. eauto.
  - intros ->. cbn [negb]. eexists _, _. split; [reflexivity|].
    split; [reflexivity|].
    unfold getNormalizedSchema, addRelation.
    cbn [s_tables s_relations].
    apply (appended_relation _ Htidy (s_relations state) _ s t sc tc);
      try assumption.
    reflexivity.
Qed.

Lemma blog_tidy : tidy (fst Examples.blog).
Proof.
  pose proof RoundTripProperties.blog_wf as H.
  destruct H as [H1 H2 H3 H4 H5 H6 _ _].
  constructor; try assumption.
  - intros r [].
  - constructor.
Qed.

Lemma blog_plain : plain_ids (fst Examples.blog).
Proof.
  intros t [<-|[<-|[]]]; (split; [split; reflexivity|]);
    intros c Hc; simpl in Hc;
    repeat (destruct Hc as [<-|Hc]; [split; reflexivity|]); destruct Hc.
Qed.

Lemma connecting_from_a_key_makes_the_foreign_key_witness :
  tidy (s_tables unrelated)
  /\ plain_ids (s_tables unrelated)
  /\ isValidConnection (s_tables unrelated)
       (mkConnection (Some "t1::c1") (Some "t2::c4")) = true.
Proof.
  split; [exact blog_tidy|]. split; [exact blog_plain|].
  exact (proj1 (connecting_from_a_key_makes_the_foreign_key
                  unrelated "r1"
                  (mkTable "t1" "users"
                     [mkColumn "c1" "id" "int" true false false None;
                      mkColumn "c2" "email" "varchar" false false true None])
                  (mkTable "t2" "posts"
                     [mkColumn "c3" "id" "int" true false false
                        (Some (mkDefault k_autoincrement None));
                      mkColumn "c4" "user_id" "int" false false false None])
                  (mkColumn "c1" "id" "int" true false false None)
                  (mkColumn "c4" "user_id" "int" false false false None)
                  blog_tidy blog_plain
                  (or_introl eq_refl) (or_introl eq_refl)
                  (or_intror (or_introl eq_refl))
                  (or_intror (or_introl eq_refl)))).
Defined.

(** X16.  Let the identifiers of the tables and columns of the store
    have no colon and no space.  Choosing a target in the relation panel
    ([handleUpdateTargetColumn] with the value of any option of its
    select) sets the target column of the selected relation to the
    identifier of the chosen column with a space before it, which is the
    identifier of no column.  The relation is orphaned: the normalized
    schema is the one the store would have had the relation been
    deleted. *)
Theorem retargeting_orphans_the_relation :
  forall (state : State) (edgeId : string) (r : Relation)
         (t : Table) (c : Column),
    plain_ids (s_tables state) ->
    In r (s_relations state) -> r_id r = edgeId -> edgeId <> EmptyString ->
    In t (s_tables state) -> In c (t_columns t) ->
    exists state',
      handleUpdateTargetColumn (Some edgeId) (optionValue t c) state
      = Some state'
      /\ state'
         = updateRelation edgeId
             (mkRelationData None None (Some (t_id t))
                (Some (String " "%char (c_id c)))) state
      /\ (forall r', In r' (s_relations state') -> r_id r' = edgeId ->
            endpointNames (s_tables state') r' = None)
      /\ getNormalizedSchema state'
         = getNormalizedSchema (removeRelation edgeId state).
Proof.
  intros state edgeId r t c Hplain Hr Hid Hne Ht Hc.
  destruct (Hplain t Ht) as [[Htid _] Hcols].
  destruct (Hcols c Hc) as [Hcid _].
  unfold handleUpdateTargetColumn.
  assert (Hm : missing (Some edgeId) = false)
    by (destruct edgeId; [congruence | reflexivity]).
  rewrite Hm. cbn [default from_option Datatypes.id].
  destruct (List.find (fun r0 => String.eqb (r_id r0) edgeId)
              (s_relations state)) as [r0|] eqn:Ef.
  2:{ exfalso. apply (find_id_None _ _ _ Ef r Hr Hid). }
  assert (Hd : destructure (optionValue t c)
               = (Some (t_id t), Some (String " "%char (c_id c)))).
  { unfold optionValue.
    change (t_id t +:+ ":: " +:+ c_id c)
      with (t_id t +:+ "::" +:+ String " "%char (c_id c)).
    apply destructure_handle; [assumption|].
    apply has_char_cons. split; [discriminate | assumption]. }
  rewrite Hd. eexists. split; [reflexivity|]. split; [reflexivity|].
  assert (Hskip : forall r', r_id r' = edgeId ->
            resolve (tableNameMapOf (s_tables state))
              (columnNameMapOf (s_tables state))
              (spreadRelation r'
                 (mkRelationData None None (Some (t_id t))
                    (Some (String " "%char (c_id c))))) = None).
  { intros r' _. apply (resolve_spaced _ _ (c_id c)); auto. }
  split.
  - intros r' Hr' Hid'. cbn [updateRelation s_relations s_tables] in *.
    apply in_map_iff in Hr' as (r1 & E & Hr1).
    destruct (String.eqb_spec (r_id r1) edgeId) as [E1|E1].
    + subst r'. unfold endpointNames, endpointIds, namesOfIds.
      cbn [spreadRelation fromTableId fromColumnId toTableId toColumnId
             default from_option Datatypes.id rd_fromTableId
             rd_fromColumnId rd_toTableId rd_toColumnId].
      destruct (findTable (s_tables state) (fromTableId r1)) as [s|];
        [|reflexivity].
      destruct (findTable (s_tables state) (t_id t)) as [t'|] eqn:Et;
        [|reflexivity].
      destruct (findColumn s (fromColumnId r1)); [|reflexivity].
      destruct (findColumn t' (String " "%char (c_id c))) as [c'|] eqn:Ec;
        [|reflexivity].
      exfalso. apply find_id_Some in Et as [Ht' _].
      apply find_id_Some in Ec as [Hc' Hcid'].
      destruct (Hplain t' Ht') as [_ Hcols'].
      destruct (Hcols' c' Hc') as [_ Hspace]. rewrite Hcid' in Hspace.
      cbn in Hspace. discriminate.
    + subst r'. congruence.
  - unfold getNormalizedSchema, updateRelation, removeRelation,
      normalizeSchema. cbn [s_tables s_relations].
    assert (E : foreignKeyMapOf (s_tables state)
                  (map (fun rel =>
                          if String.eqb (r_id rel) edgeId
                          then spreadRelation rel
                                 (mkRelationData None None (Some (t_id t))
                                    (Some (String " "%char (c_id c))))
                          else rel) (s_relations state))
                = foreignKeyMapOf (s_tables state)
                    (List.filter
                       (fun rel => negb (String.eqb (r_id rel) edgeId))
                       (s_relations state))).
    { unfold foreignKeyMapOf.
      rewrite <- (foreignKeyMap_skip (s_tables state) (s_relations state)
                    (fun rel => spreadRelation rel
                                  (mkRelationData None None (Some (t_id t))
                                     (Some (String " "%char (c_id c)))))
                    (fun rel => negb (String.eqb (r_id rel) edgeId))).
      - f_equal. apply map_ext. intros rel.
        destruct (String.eqb (r_id rel) edgeId); reflexivity.
      - intros r' _ Hp. apply Hskip.
        apply negb_false_iff in Hp. now apply String.eqb_eq. }
    cbv zeta. now rewrite E.
Qed.

Lemma retargeting_orphans_the_relation_witness :
  plain_ids (s_tables StoreExamples.blogState)
  /\ getNormalizedSchema
       (updateRelation "r1"
          (mkRelationData None None (Some "t2") (Some " c4"))
          StoreExamples.blogState)
     = getNormalizedSchema (removeRelation "r1" StoreExamples.blogState).
Proof.
  split; [exact blog_plain|].
  destruct (retargeting_orphans_the_relation StoreExamples.blogState "r1"
              (mkRelation "r1" "t1" "c1" "t2" "c4")
              (mkTable "t2" "posts"
                 [mkColumn "c3" "id" "int" true false false
                    (Some (mkDefault k_autoincrement None));
                  mkColumn "c4" "user_id" "int" false false false None])
              (mkColumn "c4" "user_id" "int" false false false None)
              blog_plain (or_introl eq_refl) eq_refl
              ltac:(discriminate)
              (or_intror (or_introl eq_refl))
              (or_intror (or_introl eq_refl)))
    as (state' & _ & -> & _ & E).
  exact E.
Defined.

(** X17.  In every state that the editor page reaches from the empty
    store, the flag [isNormalized] is set only if the schema now in the
    store passes the validator: every edit resets the flag and only a
    successful check sets it.  So the export buttons are enabled exactly
    when the flag is set, and [copyToClipboard] never reports errors of
    the schema. *)
Theorem flag_set_only_on_a_valid_schema :
  forall state : State,
    reached state ->
    (s_isNormalized state = true ->
     SchemaValidator.valid
       (SchemaValidator.validateSchema (getNormalizedSchema state)) = true)
    /\ canExport state = s_isNormalized state
    /\ forall type description,
         copyToClipboard type state <> FixErrors description.
Proof.
  intros state Hreach.
  pose proof (reached_flag state Hreach) as Hv.
  split; [assumption|]. split.
  - unfold canExport. destruct (s_isNormalized state); [|reflexivity].
    cbn [negb]. cbv zeta. exact (Hv eq_refl).
  - intros type description. unfold copyToClipboard.
    destruct (s_isNormalized state); cbn [negb]; [|discriminate].
    cbv zeta. unfold getNormalizedSchema in Hv. rewrite (Hv eq_refl).
    cbn [negb]. discriminate.
Qed.

Lemma emptyChecked_reached : reached emptyChecked.
Proof. apply (reached_action initial); constructor. Qed.

Lemma flag_set_only_on_a_valid_schema_witness :
  reached emptyChecked
  /\ s_isNormalized emptyChecked = true
  /\ canExport emptyChecked = true.
Proof.
  split; [exact emptyChecked_reached|]. split; [reflexivity|].
  exact (proj1 (proj2 (flag_set_only_on_a_valid_schema emptyChecked
                         emptyChecked_reached))).
Defined.

End EditorProperties.

(* ===================================================================== *)
(** ** Facts about loading a saved schema *)
(* ===================================================================== *)

Module LoadFacts.
Import JS SchemaNormalizer SchemaDenormalizer RoundTripSpec LoadSpec
  ObjFacts ListFacts NormalizerFacts DenormalizerFacts.

Lemma NoDup_flat_map {A B : Type} (f : A -> list B) (l : list A) :
  NoDup l ->
  (forall x, In x l -> NoDup (f x)) ->
  (forall x1 x2 y, In x1 l -> In x2 l -> In y (f x1) -> In y (f x2) ->
                   x1 = x2) ->
  NoDup (flat_map f l).
Proof.
  induction l as [|a l IH]; intros Hnd Hf Hdis; simpl; [constructor|].
  apply NoDup_cons in Hnd as [Ha Hnd].
  apply NoDup_app. split; [apply Hf; now left|]. split.
  - intros y Hy Hy'. apply list_elem_of_In in Hy, Hy'.
    apply in_flat_map in Hy' as (x & Hx & Hy').
    assert (a = x) by (apply (Hdis a x y); simpl; auto).
    subst. apply Ha. now apply list_elem_of_In.
  - apply IH; [assumption| |].
    + intros x Hx. apply Hf. now right.
    + intros x1 x2 y H1 H2. apply Hdis; now right.
Qed.

Lemma NoDup_entries {V : Type} (o : Obj.obj V) :
  NoDup (Obj.keys o) -> NoDup o.
Proof.
  unfold Obj.keys. induction o as [|[k v] o IH]; simpl; intros H;
    [constructor|].
  apply NoDup_cons in H as [Hk H]. apply NoDup_cons. split; [|now apply IH].
  intros Hin. apply Hk. apply list_elem_of_In. apply list_elem_of_In in Hin.
  change k with (fst (k, v)). now apply in_map.
Qed.

Lemma NoDup_map_injective {A B : Type} (f : A -> B) (l : list A) :
  NoDup l ->
  (forall x y, In x l -> In y l -> f x = f y -> x = y) ->
  NoDup (map f l).
Proof.
  induction l as [|a l IH]; simpl; intros Hnd Hinj; [constructor|].
  apply NoDup_cons in Hnd as [Ha Hnd]. apply NoDup_cons. split.
  - intros Hin. apply list_elem_of_In, in_map_iff in Hin as (x & E & Hx).
    assert (x = a) by (apply Hinj; auto). subst.
    apply Ha. now apply list_elem_of_In.
  - apply IH; [assumption|]. intros x y Hx Hy. apply Hinj; now right.
Qed.


Section Loaded.
Variable uuid : nat -> string.
Hypothesis Hids : uuids uuid.
Variable schema : NormalizedSchema.
Hypothesis Hsaved : saved schema.
Variable ts' : list Table.
Variable tm : gmap string (string * gmap string string).
Variable n : nat.
Hypothesis Hrun : denormalizeTables uuid 0 (tables schema) ∅ = (ts', tm, n).
Variable rs' : list Relation.
Variable n2 : nat.
Hypothesis Hrs : relationsOfTables uuid n tm (tables schema) = (rs', n2).

Let fresh : fresh_ids uuid := proj1 Hids.
Let Hwf : wf_schema schema := proj1 Hsaved.
Let Hnames : keyed_by_name schema := proj1 (proj2 Hsaved).

Lemma loaded_table_names : map t_name ts' = Obj.keys (tables schema).
Proof.
  pose proof (built_all uuid schema Hwf ts' tm n Hrun) as Hall.
  rewrite (Forall2_map_eq
             (fun e : string * NormalizedTable => nt_name (snd e)) t_name
             (tables schema) ts').
  - unfold Obj.keys. apply map_ext_in. intros [tn nt] Hin.
    exact (proj1 (Hnames tn nt Hin)).
  - eapply Forall2_impl; [exact Hall|]. intros e t' H. apply H.
Qed.

(** The table and the column that step 1 builds for a column *)
Lemma built_column (tn cn : string) (nt : NormalizedTable)
  (nc : NormalizedColumn) :
  In (tn, nt) (tables schema) -> In (cn, nc) (nt_columns nt) ->
  exists t' cm c',
    In t' ts' /\ t_name t' = tn /\ tm !! tn = Some (t_id t', cm)
    /\ In c' (t_columns t') /\ c_name c' = cn
    /\ columnView c' = normalizedView nc
    /\ cm !! cn = Some (c_id c').
Proof.
  intros Hnt Hnc.
  pose proof (built_all uuid schema Hwf ts' tm n Hrun) as Hall.
  destruct (Forall2_In_l _ _ _ _ Hall Hnt)
    as (t' & Ht' & Hname & Hview & cm & Hcm & _ & Hmap).
  cbn [fst snd] in *. destruct (Hnames tn nt Hnt) as [Hkey Hckey].
  specialize (Hmap (wf_entry schema Hwf tn nt Hnt)).
  destruct (Forall2_In_l _ _ _ _ (Forall2_and _ _ _ _ Hview Hmap) Hnc)
    as (c' & Hc' & Hv & Hid).
  cbn [fst snd] in *. exists t', cm, c'.
  split; [assumption|]. split; [congruence|]. split; [assumption|].
  split; [assumption|]. split; [|split; assumption].
  rewrite <- (Hckey cn nc Hnc).
  unfold columnView, normalizedView in Hv. congruence.
Qed.

Lemma loaded_column_names (tn : string) (nt : NormalizedTable) (t' : Table) :
  In (tn, nt) (tables schema) -> In t' ts' -> t_name t' = tn ->
  map c_name (t_columns t') = Obj.keys (nt_columns nt).
Proof.
  intros Hnt Ht' Hname.
  destruct (built_lookup uuid schema Hwf Hnames ts' tm n Hrun tn nt Hnt)
    as (t0 & cm & Ht0 & Hname0 & _ & Hview & _).
  assert (t0 = t') as ->.
  { apply (NoDup_map_inj t_name ts'); try assumption; [|congruence].
    rewrite loaded_table_names. apply Hwf. }
  transitivity (map (fun v : string * string * bool * bool * bool
                               * option Default =>
                       fst (fst (fst (fst (fst v)))))
                  (map columnView (t_columns t'))).
  { rewrite map_map. reflexivity. }
  rewrite Hview, map_map. unfold Obj.keys. apply map_ext_in.
  intros [cn nc] Hc. cbn. exact (proj2 (Hnames tn nt Hnt) cn nc Hc).
Qed.

Lemma loaded_entry (t' : Table) :
  In t' ts' ->
  exists nt, In (t_name t', nt) (tables schema).
Proof.
  intros Ht'.
  assert (Hk : In (t_name t') (Obj.keys (tables schema)))
    by (rewrite <- loaded_table_names; now apply in_map).
  now apply In_keys in Hk.
Qed.

Lemma loaded_id_plain (t' : Table) :
  In t' ts' -> has_char ":"%char (t_id t') = false.
Proof.
  intros Ht'.
  assert (Hin : In (t_id t') (allIds ts')).
  { unfold allIds. apply in_flat_map. exists t'. split; [assumption|].
    now left. }
  destruct (denormalizeTables_spec uuid _ _ _ _ _ _ Hrun) as (_ & E & _).
  rewrite E in Hin. apply in_map_iff in Hin as (k & <- & _).
  apply Hids.
Qed.

Lemma loaded_ids : NoDup (map t_id ts').
Proof. apply allIds_tables, (built_ids uuid fresh schema ts' tm n Hrun). Qed.

Lemma loaded_column_ids (t' : Table) :
  In t' ts' -> NoDup (map c_id (t_columns t')).
Proof.
  apply allIds_columns, (built_ids uuid fresh schema ts' tm n Hrun).
Qed.

(** The identifiers in the map of step 1 are those of the table and the
    column built for the names. *)
Lemma endpoints_target (tn cn : string) (nt : NormalizedTable)
  (nc : NormalizedColumn) (info : string * gmap string string)
  (a b c d : string) :
  In (tn, nt) (tables schema) -> In (cn, nc) (nt_columns nt) ->
  tm !! tn = Some info ->
  endpointsOf tm info cn nc = Some (a, b, c, d) ->
  exists t' c',
    In t' ts' /\ t_name t' = tn /\ t_id t' = c
    /\ In c' (t_columns t') /\ c_name c' = cn /\ c_id c' = d.
Proof.
  intros Hnt Hnc Hinfo Hep.
  destruct (built_column tn cn nt nc Hnt Hnc)
    as (t' & cm & c' & Ht' & Hname & Htm & Hc' & Hcname & _ & Hcm).
  rewrite Htm in Hinfo. injection Hinfo as <-.
  unfold endpointsOf in Hep.
  destruct (nc_foreignKey nc) as [fk|]; [|discriminate].
  destruct (tm !! fk_table fk) as [pkinfo|]; [|discriminate].
  cbn [fst snd] in Hep. rewrite Hcm in Hep.
  destruct (snd pkinfo !! fk_column fk) as [pkc|]; [|discriminate].
  destruct (truthy (c_id c') && truthy pkc)%bool; [|discriminate].
  injection Hep as _ _ <- <-. exists t', c'. auto 10.
Qed.

(** The quadruples of identifiers that step 2 makes relations of *)
Lemma relation_origin (ids : string * string * string * string) :
  In ids (map endpointIds rs') <->
  exists tn nt cn nc info,
    In (tn, nt) (tables schema) /\ In (cn, nc) (nt_columns nt)
    /\ tm !! tn = Some info /\ endpointsOf tm info cn nc = Some ids.
Proof.
  rewrite (relationsOfTables_ids uuid _ _ _ _ _ Hrs), in_flat_map. split.
  - intros ([tn nt] & Hnt & Hin).
    destruct (tm !! tn) as [info|] eqn:Hinfo; [|destruct Hin].
    apply in_flat_map in Hin as ([cn nc] & Hnc & Hin).
    destruct (endpointsOf tm info cn nc) as [ids'|] eqn:Hep; [|destruct Hin].
    destruct Hin as [->|[]]. exists tn, nt, cn, nc, info. auto.
  - intros (tn & nt & cn & nc & info & Hnt & Hnc & Hinfo & Hep).
    exists (tn, nt). split; [assumption|]. rewrite Hinfo.
    apply in_flat_map. exists (cn, nc). split; [assumption|].
    rewrite Hep. now left.
Qed.

(** A relation is made only for a foreign key that names a column of the
    schema, and its endpoints are the columns built for the names. *)
Lemma relation_names (tn cn : string) (nt : NormalizedTable)
  (nc : NormalizedColumn) (info : string * gmap string string)
  (ids : string * string * string * string) :
  In (tn, nt) (tables schema) -> In (cn, nc) (nt_columns nt) ->
  tm !! tn = Some info -> endpointsOf tm info cn nc = Some ids ->
  exists fk,
    nc_foreignKey nc = Some fk /\ targetExists schema fk = true
    /\ namesOfIds ts' ids = Some (fk_table fk, fk_column fk, tn, cn).
Proof.
  intros Hnt Hnc Hinfo Hep.
  pose proof Hep as Hep'. unfold endpointsOf in Hep'.
  destruct (nc_foreignKey nc) as [fk|] eqn:Hfk; [|discriminate].
  destruct (tm !! fk_table fk) as [pkinfo|] eqn:Hpk; [|discriminate].
  assert (HT : In (fk_table fk) (Obj.keys (tables schema))).
  { destruct (in_dec string_dec (fk_table fk) (Obj.keys (tables schema)))
      as [H|H]; [assumption|].
    rewrite (built_absent uuid schema ts' tm n Hrun _ H) in Hpk.
    discriminate. }
  apply In_keys in HT as [target Htarget].
  destruct (built_lookup uuid schema Hwf Hnames ts' tm n Hrun _ target
              Htarget)
    as (tT & cmT & HtT & HnameT & HtmT & _ & HnoneT & _).
  rewrite HtmT in Hpk. injection Hpk as <-. cbn [fst snd] in Hep'.
  destruct (snd info !! cn); [|discriminate].
  destruct (cmT !! fk_column fk) as [pkc|] eqn:HpkC; [|discriminate].
  assert (HC : In (fk_column fk) (Obj.keys (nt_columns target))).
  { destruct (in_dec string_dec (fk_column fk)
                (Obj.keys (nt_columns target))) as [H|H]; [assumption|].
    rewrite (HnoneT _ H) in HpkC. discriminate. }
  exists fk. split; [reflexivity|]. split.
  - unfold targetExists.
    rewrite (get_In _ _ _ (proj1 Hwf) Htarget). now apply has_iff.
  - apply In_keys in HC as [ncT HncT].
    destruct (endpoints_resolved uuid fresh schema Hwf Hnames ts' tm n Hrun
                tn cn nt target nc ncT fk Hnt Hnc Hfk Htarget HncT)
      as (info' & ids0 & Hi & He & Hn).
    rewrite Hinfo in Hi. injection Hi as <-.
    rewrite Hep in He. injection He as <-. exact Hn.
Qed.

(** The names determine the entry. *)
Lemma entry_unique (tn cn : string) (nt nt0 : NormalizedTable)
  (nc nc0 : NormalizedColumn) :
  In (tn, nt) (tables schema) -> In (cn, nc) (nt_columns nt) ->
  In (tn, nt0) (tables schema) -> In (cn, nc0) (nt_columns nt0) ->
  nt = nt0 /\ nc = nc0.
Proof.
  intros Hnt Hnc Hnt0 Hnc0.
  assert (nt = nt0) as <-.
  { pose proof (get_In _ _ _ (proj1 Hwf) Hnt) as E.
    rewrite (get_In _ _ _ (proj1 Hwf) Hnt0) in E. congruence. }
  split; [reflexivity|].
  pose proof (wf_entry schema Hwf tn nt Hnt) as Hnd.
  pose proof (get_In _ _ _ Hnd Hnc) as E.
  rewrite (get_In _ _ _ Hnd Hnc0) in E. congruence.
Qed.

(** The target of a relation determines the names it was made for. *)
Lemma target_names (tn cn tn0 cn0 : string) (nt nt0 : NormalizedTable)
  (nc nc0 : NormalizedColumn) (info info0 : string * gmap string string)
  (a b a0 b0 c d : string) :
  In (tn, nt) (tables schema) -> In (cn, nc) (nt_columns nt) ->
  tm !! tn = Some info -> endpointsOf tm info cn nc = Some (a, b, c, d) ->
  In (tn0, nt0) (tables schema) -> In (cn0, nc0) (nt_columns nt0) ->
  tm !! tn0 = Some info0 ->
  endpointsOf tm info0 cn0 nc0 = Some (a0, b0, c, d) ->
  tn = tn0 /\ cn = cn0.
Proof.
  intros Hnt Hnc Hinfo Hep Hnt0 Hnc0 Hinfo0 Hep0.
  destruct (endpoints_target tn cn nt nc info a b c d Hnt Hnc Hinfo Hep)
    as (t1 & c1 & Ht1 & Hn1 & Hi1 & Hc1 & Hcn1 & Hci1).
  destruct (endpoints_target tn0 cn0 nt0 nc0 info0 a0 b0 c d
              Hnt0 Hnc0 Hinfo0 Hep0)
    as (t2 & c2 & Ht2 & Hn2 & Hi2 & Hc2 & Hcn2 & Hci2).
  assert (t1 = t2) as <-.
  { apply (NoDup_map_inj t_id ts'); try assumption; [apply loaded_ids|].
    congruence. }
  assert (c1 = c2) as <-.
  { apply (NoDup_map_inj c_id (t_columns t1)); try assumption;
      [now apply loaded_column_ids | congruence]. }
  split; congruence.
Qed.

Lemma loaded_targets :
  NoDup (map (fun r => (toTableId r, toColumnId r)) rs').
Proof.
  assert (E : map (fun r => (toTableId r, toColumnId r)) rs'
              = map (fun ids : string * string * string * string =>
                       (snd (fst ids), snd ids))
                  (map endpointIds rs')).
  { rewrite map_map. reflexivity. }
  rewrite E. clear E.
  apply NoDup_map_injective.
  - rewrite (relationsOfTables_ids uuid _ _ _ _ _ Hrs).
    apply NoDup_flat_map.
    + apply NoDup_entries, Hwf.
    + intros [tn nt] Hnt. destruct (tm !! tn) as [info|] eqn:Hinfo;
        [|constructor].
      apply NoDup_flat_map.
      * apply NoDup_entries. exact (wf_entry schema Hwf tn nt Hnt).
      * intros [cn nc] _. destruct (endpointsOf tm info cn nc);
          [apply NoDup_singleton | constructor].
      * intros [cn1 nc1] [cn2 nc2] [[[a b] c] d] H1 H2 Hy1 Hy2.
        destruct (endpointsOf tm info cn1 nc1) as [ids1|] eqn:E1;
          [|destruct Hy1].
        destruct (endpointsOf tm info cn2 nc2) as [ids2|] eqn:E2;
          [|destruct Hy2].
        destruct Hy1 as [->|[]], Hy2 as [->|[]].
        destruct (target_names tn cn1 tn cn2 nt nt nc1 nc2 info info
                    a b a b c d Hnt H1 Hinfo E1 Hnt H2 Hinfo E2) as [_ <-].
        destruct (entry_unique tn cn1 nt nt nc1 nc2 Hnt H1 Hnt H2)
          as [_ <-].
        reflexivity.
    + intros [tn1 nt1] [tn2 nt2] [[[a b] c] d] H1 H2 Hy1 Hy2.
      destruct (tm !! tn1) as [info1|] eqn:Hi1; [|destruct Hy1].
      destruct (tm !! tn2) as [info2|] eqn:Hi2; [|destruct Hy2].
      apply in_flat_map in Hy1 as ([cn1 nc1] & Hc1 & Hy1).
      apply in_flat_map in Hy2 as ([cn2 nc2] & Hc2 & Hy2).
      destruct (endpointsOf tm info1 cn1 nc1) as [ids1|] eqn:E1;
        [|destruct Hy1].
      destruct (endpointsOf tm info2 cn2 nc2) as [ids2|] eqn:E2;
        [|destruct Hy2].
      destruct Hy1 as [->|[]], Hy2 as [->|[]].
      destruct (target_names tn1 cn1 tn2 cn2 nt1 nt2 nc1 nc2 info1 info2
                  a b a b c d H1 Hc1 Hi1 E1 H2 Hc2 Hi2 E2) as [<- <-].
      destruct (entry_unique tn1 cn1 nt1 nt2 nc1 nc2 H1 Hc1 H2 Hc2)
        as [<- _].
      reflexivity.
  - intros [[[a1 b1] c1] d1] [[[a2 b2] c2] d2] Hx Hy E.
    cbn [fst snd] in E. injection E as <- <-.
    apply relation_origin in Hx
      as (tn1 & nt1 & cn1 & nc1 & info1 & Hnt1 & Hnc1 & Hi1 & E1).
    apply relation_origin in Hy
      as (tn2 & nt2 & cn2 & nc2 & info2 & Hnt2 & Hnc2 & Hi2 & E2).
    destruct (target_names tn1 cn1 tn2 cn2 nt1 nt2 nc1 nc2 info1 info2
                a1 b1 a2 b2 c1 d1 Hnt1 Hnc1 Hi1 E1 Hnt2 Hnc2 Hi2 E2)
      as [<- <-].
    destruct (entry_unique tn1 cn1 nt1 nt2 nc1 nc2 Hnt1 Hnc1 Hnt2 Hnc2)
      as [<- <-].
    rewrite Hi1 in Hi2. injection Hi2 as <-. congruence.
Qed.

(** The graph that loading gives is one the editor keeps. *)
Lemma loaded_wf : wf_graph ts' rs'.
Proof.
  constructor.
  - exact loaded_ids.
  - exact loaded_id_plain.
  - exact loaded_column_ids.
  - rewrite loaded_table_names. apply Hwf.
  - intros t' Ht'. apply Hsaved.
    rewrite <- loaded_table_names. now apply in_map.
  - intros t' Ht'. destruct (loaded_entry t' Ht') as [nt Hnt].
    rewrite (loaded_column_names (t_name t') nt t' Hnt Ht' eq_refl).
    exact (wf_entry schema Hwf _ nt Hnt).
  - intros r Hr. unfold endpointNames.
    assert (Hin : In (endpointIds r) (map endpointIds rs'))
      by now apply in_map.
    apply relation_origin in Hin
      as (tn & nt & cn & nc & info & Hnt & Hnc & Hinfo & Hep).
    destruct (relation_names tn cn nt nc info _ Hnt Hnc Hinfo Hep)
      as (fk & _ & _ & E).
    rewrite E. discriminate.
  - exact loaded_targets.
Qed.

#[local] Abbreviation fkMap' := (foreignKeyMapOf ts' rs').
#[local] Abbreviation N' := (normalizeSchema ts' rs').




End Loaded.

End LoadFacts.

(* ===================================================================== *)
(** ** Properties of loading a saved schema *)
(* ===================================================================== *)

Module LoadProperties.
Import JS SchemaStore SchemaNormalizer SchemaDenormalizer RoundTripSpec
  LoadSpec LoadFacts ObjFacts StoreSpec.

(** X18.  Let a saved schema have each key once, every table and column
    under its own name and no table without a name, and let the
    identifiers drawn be distinct, not empty and without a colon.  Then
    the editor graph that [denormalizeSchema] builds is one the editor
    keeps: tables and columns have identifiers of their own, tables have
    names of their own and so have the columns of a table, every relation
    joins two columns of the graph, and no column has two relations into
    it.  So the store that loading the project leaves has no orphaned
    relation and no identifier twice. *)
Theorem loaded_graph_is_well_formed :
  forall (randomUUID : nat -> string) (schema : NormalizedSchema),
    uuids randomUUID ->
    saved schema ->
    let g := denormalizeSchema randomUUID schema in
    wf_graph (fst g) (snd g)
    /\ forall state,
         resolved (Editor.loadProject randomUUID schema state)
         /\ distinct_ids (Editor.loadProject randomUUID schema state).
Proof.
  intros uuid schema Hids Hsaved g.
  assert (Hg : wf_graph (fst g) (snd g)).
  { subst g. unfold denormalizeSchema.
    destruct (denormalizeTables uuid 0 (tables schema) ∅)
      as [[ts' tm] n] eqn:Hrun.
    destruct (relationsOfTables uuid n tm (tables schema))
      as [rs' n2] eqn:Hrs.
    exact (loaded_wf uuid Hids schema Hsaved ts' tm n Hrun rs' n2 Hrs). }
  split; [assumption|]. intros state.
  unfold Editor.loadProject. cbv zeta. fold g.
  destruct g as [ts' rs']. cbn [fst snd] in Hg.
  unfold resolved, distinct_ids, loadSchema. cbn [s_tables s_relations].
  split; [apply Hg|]. split; apply Hg.
Qed.

Lemma idOf_uuids : uuids Examples.idOf.
Proof.
  split; [exact RoundTripProperties.idOf_fresh|].
  intros n. induction n as [|n IH]; [reflexivity|]. exact IH.
Qed.

Lemma dangling_saved : saved dangling.
Proof.
  split; [|split].
  - split.
    + apply NoDup_singleton.
    + constructor; [|constructor]. unfold wf_table. cbn.
      apply NoDup_cons. split; [|apply NoDup_singleton].
      intros H. apply list_elem_of_In in H as [H|[]]. discriminate.
  - intros tn t [[= <- <-]|[]]. split; [reflexivity|].
    intros cn c [[= <- <-]|[[= <- <-]|[]]]; reflexivity.
  - intros tn [<-|[]]. discriminate.
Qed.

Lemma loaded_graph_is_well_formed_witness :
  uuids Examples.idOf /\ saved dangling
  /\ wf_graph (fst (denormalizeSchema Examples.idOf dangling))
       (snd (denormalizeSchema Examples.idOf dangling)).
Proof.
  split; [exact idOf_uuids|]. split; [exact dangling_saved|].
  exact (proj1 (loaded_graph_is_well_formed Examples.idOf dangling
                  idOf_uuids dangling_saved)).
Defined.



End LoadProperties.

(* ===================================================================== *)
(** ** Facts about the positions *)
(* ===================================================================== *)

Module PositionFacts.
Import JS SchemaNormalizer SchemaDenormalizer RoundTripSpec LoadSpec
  Positions ObjFacts ListFacts SetFacts EntryFacts NormalizerFacts
  DenormalizerFacts.

Section Conditional.
Context {A V : Type}.
Variable key : A -> option string.
Variable val : A -> V.




End Conditional.




Section Layout.
Variable Position : Type.
Variable ts : list Table.
Variable rs : list Relation.
Hypothesis Hg : wf_graph ts rs.
Variable positions : Obj.obj Position.
Hypothesis Hpos : NoDup (Obj.keys positions).



End Layout.

Section Reload.
Variable Position : Type.
Variable uuid : nat -> string.
Hypothesis Hids : uuids uuid.
Variable schema : NormalizedSchema.
Hypothesis Hsaved : saved schema.
Variable ts' : list Table.
Variable tm : gmap string (string * gmap string string).
Variable n : nat.
Hypothesis Hrun : denormalizeTables uuid 0 (tables schema) ∅ = (ts', tm, n).
Variable byName : Obj.obj Position.
Hypothesis HbyName : NoDup (Obj.keys byName).


End Reload.

End PositionFacts.

(* ===================================================================== *)
(** ** Properties of the positions *)
(* ===================================================================== *)

Module PositionProperties.
Import JS SchemaNormalizer SchemaDenormalizer RoundTripSpec LoadSpec
  Positions PositionFacts ObjFacts NormalizerFacts DenormalizerFacts.





End PositionProperties.
